(** * Minesweeper (src/main.py): shallow embedding and properties

    The engine of [MinesweeperGame] is embedded function by function, and
    after it the handlers of the application [MinesweeperGUI].
    Python sets are [gset]s, dictionaries are [gmap]s, Python integers are
    [Z].  Three things the source leaves to its environment are made
    explicit in a [World] that every effectful operation threads:
    the draws of [random.sample], the order in which a Python set yields
    its elements ([set.pop], iteration), and the readings of [time.time]. *)

From Stdlib Require Import ZArith Lia.
From stdpp Require Import base option list strings pretty gmap fin_sets.

Local Open Scope Z_scope.
Set Warnings "-clear-no-such-hyp".

(** ** Enumerations *)

Inductive GameState := READY | PLAYING | WON | LOST.
Inductive CellState := HIDDEN | REVEALED | FLAGGED | QUESTIONED.

#[global] Instance GameState_eq_dec : EqDecision GameState.
Proof. solve_decision. Defined.
#[global] Instance CellState_eq_dec : EqDecision CellState.
Proof. solve_decision. Defined.

(** ** Position *)

Record Position := mkPosition { row : Z; col : Z }.

#[global] Instance Position_eq_dec : EqDecision Position.
Proof. solve_decision. Defined.

#[global] Instance Position_countable : Countable Position.
Proof.
  refine (inj_countable' (λ p, (row p, col p)) (λ rc, mkPosition rc.1 rc.2) _).
  by intros [].
Defined.

(** The three offsets [(-1, 0, 1)] of the comprehension. *)
Definition deltas : list Z := [-1; 0; 1].

(** [Position.neighbors]: the set comprehension, with its guard
    [(dr or dc) and 0 <= row + dr < max_row and 0 <= col + dc < max_col]. *)
Definition neighbors (self : Position) (max_row max_col : Z) : gset Position :=
  list_to_set
    (dr ← deltas; dc ← deltas;
     if bool_decide ((dr ≠ 0 ∨ dc ≠ 0)
                     ∧ (0 ≤ row self + dr ∧ row self + dr < max_row)
                     ∧ (0 ≤ col self + dc ∧ col self + dc < max_col))
     then [mkPosition (row self + dr) (col self + dc)]
     else []).

(** A position lies on the board. *)
Definition in_bounds (max_row max_col : Z) (p : Position) : Prop :=
  (0 ≤ row p ∧ row p < max_row) ∧ (0 ≤ col p ∧ col p < max_col).

#[global] Instance in_bounds_dec R C p : Decision (in_bounds R C p).
Proof. unfold in_bounds. apply _. Defined.

(** [{Position(r, c) for r in range(rows) for c in range(cols)}]. *)
Definition all_positions_list (rows cols : Z) : list Position :=
  r ← seqZ 0 rows; c ← seqZ 0 cols; [mkPosition r c].

Definition all_positions (rows cols : Z) : gset Position :=
  list_to_set (all_positions_list rows cols).

(** [X ^ Y] on Python sets. *)
Definition sym_diff (X Y : gset Position) : gset Position := (X ∖ Y) ∪ (Y ∖ X).

(** ** The environment: random draws, set order, clock; and failures *)

Inductive exn := ValueError | KeyError.

Inductive outcome (A : Type) : Type :=
| Done (a : A)
| Raise (e : exn)
| OutOfFuel.
Arguments Done {A} a.
Arguments Raise {A} e.
Arguments OutOfFuel {A}.

Record World := mkWorld {
  entropy : list nat;   (* every choice the run leaves open, in order *)
  clock : list Z        (* successive readings of time.time() *)
}.

Definition M (A : Type) : Type := World → outcome (A * World).

#[global] Instance M_ret : MRet M := λ A a w, Done (a, w).
#[global] Instance M_bind : MBind M := λ A B f m w,
  match m w with
  | Done (a, w') => f a w'
  | Raise e => Raise e
  | OutOfFuel => OutOfFuel
  end.

Definition raise {A} (e : exn) : M A := λ _, Raise e.
Definition out_of_fuel {A} : M A := λ _, OutOfFuel.

(** A number below [n], taken from the entropy (0 once it is used up). *)
Definition randbelow (n : nat) : M nat := λ w,
  Done ((hd 0%nat (entropy w)) `mod` n,
        {| entropy := tl (entropy w); clock := clock w |})%nat.

(** [time.time()]. *)
Definition time_time : M Z := λ w,
  Done (hd 0 (clock w), {| entropy := entropy w; clock := tl (clock w) |}).

(** [k] distinct elements of [pool], each picked by one draw. *)
Fixpoint choose_distinct {A} (pool : list A) (k : nat) : M (list A) :=
  match k with
  | O => mret []
  | S k' =>
      j ← randbelow (length pool);
      match pool !! j with
      | Some x => rest ← choose_distinct (delete j pool) k'; mret (x :: rest)
      | None => mret []
      end
  end.

(** [random.sample(population, k)]: raises [ValueError] unless
    [0 <= k <= len(population)]. *)
Definition random_sample {A} (population : list A) (k : Z) : M (list A) :=
  if decide (0 ≤ k ∧ k ≤ Z.of_nat (length population))
  then choose_distinct population (Z.to_nat k)
  else raise ValueError.

(** [s.pop()] on a set: some element of [s]; [KeyError] on the empty set. *)
Definition set_pop (s : gset Position) : M Position :=
  j ← randbelow (size s);
  match elements s !! j with
  | Some x => mret x
  | None => raise KeyError
  end.

(** The order in which iterating over the set [s] yields its elements. *)
Definition set_iter (s : gset Position) : M (list Position) :=
  choose_distinct (elements s) (size s).

(** ** The engine *)

Record MinesweeperGame := mkGame {
  rows : Z;
  cols : Z;
  total_mines : Z;
  state : GameState;
  start_time : Z;
  elapsed_time : Z;
  mines : gset Position;
  cell_states : gmap Position CellState;
  revealed : gset Position;
  flags : gset Position;
  adjacent_cache : gmap Position nat
}.

(** [__init__]. *)
Definition new_game (rows cols mines : Z) : MinesweeperGame :=
  {| rows := rows; cols := cols; total_mines := mines;
     state := READY; start_time := 0; elapsed_time := 0;
     mines := ∅; cell_states := ∅; revealed := ∅; flags := ∅;
     adjacent_cache := ∅ |}.

(** [reset]. *)
Definition reset (self : MinesweeperGame) : MinesweeperGame :=
  {| rows := rows self; cols := cols self; total_mines := total_mines self;
     state := READY; start_time := 0; elapsed_time := 0;
     mines := ∅; cell_states := ∅; revealed := ∅; flags := ∅;
     adjacent_cache := ∅ |}.

(** Assignments to the attributes of [self]. *)
Definition set_state (v : GameState) (self : MinesweeperGame) :=
  mkGame (rows self) (cols self) (total_mines self) v (start_time self)
    (elapsed_time self) (mines self) (cell_states self) (revealed self)
    (flags self) (adjacent_cache self).
Definition set_start_time (v : Z) (self : MinesweeperGame) :=
  mkGame (rows self) (cols self) (total_mines self) (state self) v
    (elapsed_time self) (mines self) (cell_states self) (revealed self)
    (flags self) (adjacent_cache self).
Definition set_elapsed_time (v : Z) (self : MinesweeperGame) :=
  mkGame (rows self) (cols self) (total_mines self) (state self)
    (start_time self) v (mines self) (cell_states self) (revealed self)
    (flags self) (adjacent_cache self).
Definition set_mines (v : gset Position) (self : MinesweeperGame) :=
  mkGame (rows self) (cols self) (total_mines self) (state self)
    (start_time self) (elapsed_time self) v (cell_states self)
    (revealed self) (flags self) (adjacent_cache self).
Definition set_cell_states (v : gmap Position CellState)
    (self : MinesweeperGame) :=
  mkGame (rows self) (cols self) (total_mines self) (state self)
    (start_time self) (elapsed_time self) (mines self) v (revealed self)
    (flags self) (adjacent_cache self).
Definition set_revealed (v : gset Position) (self : MinesweeperGame) :=
  mkGame (rows self) (cols self) (total_mines self) (state self)
    (start_time self) (elapsed_time self) (mines self) (cell_states self) v
    (flags self) (adjacent_cache self).
Definition set_flags (v : gset Position) (self : MinesweeperGame) :=
  mkGame (rows self) (cols self) (total_mines self) (state self)
    (start_time self) (elapsed_time self) (mines self) (cell_states self)
    (revealed self) v (adjacent_cache self).
Definition set_adjacent_cache (v : gmap Position nat)
    (self : MinesweeperGame) :=
  mkGame (rows self) (cols self) (total_mines self) (state self)
    (start_time self) (elapsed_time self) (mines self) (cell_states self)
    (revealed self) (flags self) v.

(** [cell_states[pos]] of the [defaultdict]: [HIDDEN] when absent. *)
Definition cell_state (self : MinesweeperGame) (pos : Position) : CellState :=
  default HIDDEN (cell_states self !! pos).

(** [adjacent_cache.get(pos, 0)]. *)
Definition cached_count (self : MinesweeperGame) (pos : Position) : nat :=
  default 0%nat (adjacent_cache self !! pos).

(** The dictionary built by [_cache_adjacent_counts]. *)
Definition adjacent_counts (rows cols : Z) (mines : gset Position)
  : gmap Position nat :=
  list_to_map
    ((λ p, (p, size (neighbors p rows cols ∩ mines)))
       <$> all_positions_list rows cols).

Definition _cache_adjacent_counts (self : MinesweeperGame) : MinesweeperGame :=
  set_adjacent_cache
    (adjacent_counts (rows self) (cols self) (mines self)) self.

Definition safe_zone (self : MinesweeperGame) (first_click : Position)
  : gset Position :=
  {[first_click]} ∪ neighbors first_click (rows self) (cols self).

Definition available (self : MinesweeperGame) (first_click : Position)
  : gset Position :=
  all_positions (rows self) (cols self) ∖ safe_zone self first_click.

(** [initialize_mines]. *)
Definition initialize_mines (first_click : Position) (self : MinesweeperGame)
  : M MinesweeperGame :=
  let avail := available self first_click in
  picked ← random_sample (elements avail)
             (Z.min (total_mines self) (Z.of_nat (size avail)));
  let self := set_mines (list_to_set picked) self in
  let self := _cache_adjacent_counts self in
  let self := set_state PLAYING self in
  now ← time_time;
  mret (set_start_time now self).

(** One turn of the body of [while to_reveal:], once [current] has been
    popped: the new worklist and the new engine. *)
Definition flood_step (current : Position) (to_reveal : gset Position)
    (self : MinesweeperGame) : gset Position * MinesweeperGame :=
  let to_reveal := to_reveal ∖ {[current]} in
  if decide (current ∈ revealed self) then (to_reveal, self)
  else
    let self := set_revealed ({[current]} ∪ revealed self) self in
    let self :=
      set_cell_states (<[current := REVEALED]> (cell_states self)) self in
    if decide (cached_count self current = 0%nat)
    then (to_reveal ∪ (neighbors current (rows self) (cols self)
                         ∖ revealed self ∖ flags self), self)
    else (to_reveal, self).

(** The [while to_reveal:] loop, bounded by [fuel] turns. *)
Fixpoint flood_fill (fuel : nat) (to_reveal : gset Position)
    (self : MinesweeperGame) : M MinesweeperGame :=
  if decide (to_reveal = ∅) then mret self
  else match fuel with
       | O => out_of_fuel
       | S fuel' =>
           current ← set_pop to_reveal;
           let '(to_reveal, self) := flood_step current to_reveal self in
           flood_fill fuel' to_reveal self
       end.

(** A number of turns that the loop never exceeds. *)
Definition flood_bound (to_reveal : gset Position) (self : MinesweeperGame)
  : nat :=
  (9 * size ((all_positions (rows self) (cols self) ∪ to_reveal)
               ∖ revealed self)
   + size to_reveal)%nat.

(** The guard of the early [return False] of [reveal_cell]. *)
Definition blocked (self : MinesweeperGame) (pos : Position) : Prop :=
  (state self ≠ PLAYING ∧ state self ≠ READY)
  ∨ pos ∈ revealed self ∨ pos ∈ flags self.

#[global] Instance blocked_dec self pos : Decision (blocked self pos).
Proof. unfold blocked. apply _. Defined.

(** [len(self.revealed) + len(self.mines) == self.rows * self.cols]. *)
Definition win_condition (self : MinesweeperGame) : Prop :=
  Z.of_nat (size (revealed self)) + Z.of_nat (size (mines self))
  = rows self * cols self.

#[global] Instance win_condition_dec self : Decision (win_condition self).
Proof. unfold win_condition. apply _. Defined.

(** [reveal_cell]. *)
Definition reveal_cell (pos : Position) (self : MinesweeperGame)
  : M (bool * MinesweeperGame) :=
  self ← (if decide (state self = READY) then initialize_mines pos self
          else mret self);
  if decide (blocked self pos) then mret (false, self)
  else if decide (pos ∈ mines self) then
    let self := set_state LOST self in
    now ← time_time;
    mret (false, set_elapsed_time (now - start_time self) self)
  else
    self ← flood_fill (flood_bound {[pos]} self) {[pos]} self;
    if decide (win_condition self) then
      let self := set_state WON self in
      now ← time_time;
      let self := set_elapsed_time (now - start_time self) self in
      mret (true, set_flags (mines self) self)
    else mret (true, self).

(** [toggle_flag]. *)
Definition toggle_flag (pos : Position) (self : MinesweeperGame)
  : MinesweeperGame :=
  if decide (pos ∈ revealed self ∨ state self ≠ PLAYING) then self
  else
    let self := set_flags (sym_diff (flags self) {[pos]}) self in
    set_cell_states
      (<[pos := if decide (pos ∈ flags self) then FLAGGED else HIDDEN]>
         (cell_states self)) self.

(** [all(self.reveal_cell(n) for n in ns)]: stops at the first [False]. *)
Fixpoint reveal_all (ns : list Position) (self : MinesweeperGame)
  : M (bool * MinesweeperGame) :=
  match ns with
  | [] => mret (true, self)
  | n :: ns' =>
      reveal_cell n self ≫= λ r : bool * MinesweeperGame,
        if r.1 then reveal_all ns' r.2 else mret (false, r.2)
  end.

(** [auto_reveal_neighbors]. *)
Definition auto_reveal_neighbors (pos : Position) (self : MinesweeperGame)
  : M (bool * MinesweeperGame) :=
  if decide (pos ∉ revealed self ∨ state self ≠ PLAYING)
  then mret (false, self)
  else
    let nbrs := neighbors pos (rows self) (cols self) in
    let flagged_neighbors := nbrs ∩ flags self in
    let hidden_neighbors := nbrs ∖ revealed self ∖ flags self in
    if decide (size flagged_neighbors = cached_count self pos)
    then ns ← set_iter hidden_neighbors; reveal_all ns self
    else mret (false, self).

(** ** Sessions: sequences of calls on one engine *)

Inductive op :=
| Reveal (pos : Position)
| ToggleFlag (pos : Position)
| AutoReveal (pos : Position)
| Reset.

Definition run_op (o : op) (self : MinesweeperGame) : M MinesweeperGame :=
  match o with
  | Reveal pos => r ← reveal_cell pos self; mret r.2
  | ToggleFlag pos => mret (toggle_flag pos self)
  | AutoReveal pos => r ← auto_reveal_neighbors pos self; mret r.2
  | Reset => mret (reset self)
  end.

(** The position a call is given satisfies [P]. *)
Definition op_arg (P : Position → Prop) (o : op) : Prop :=
  match o with
  | Reveal pos | ToggleFlag pos | AutoReveal pos => P pos
  | Reset => True
  end.

(** The engines a session started on [g0] can reach by calls whose
    position arguments satisfy [P], in any world. *)
Inductive reachable (P : Position → Prop) (g0 : MinesweeperGame)
  : MinesweeperGame → Prop :=
| reachable_start : reachable P g0 g0
| reachable_call g o w g' w' :
    reachable P g0 g → op_arg P o → run_op o g w = Done (g', w') →
    reachable P g0 g'.

Definition any_position (_ : Position) : Prop := True.

(** ** What a flood fill started at [pos] on [g] uncovers *)

Inductive flood_reach (g : MinesweeperGame) (pos : Position)
  : Position → Prop :=
| flood_reach_start : flood_reach g pos pos
| flood_reach_step c n :
    flood_reach g pos c →
    cached_count g c = 0%nat →
    n ∈ neighbors c (rows g) (cols g) →
    n ∉ revealed g → n ∉ flags g →
    flood_reach g pos n.

(** The (worklist, engine) pairs the loop of [reveal_cell pos] on [g] can
    be in at the top of a turn, whatever element [pop] yields. *)
Inductive flood_configs (g : MinesweeperGame) (pos : Position)
  : gset Position * MinesweeperGame → Prop :=
| flood_configs_start : flood_configs g pos ({[pos]}, g)
| flood_configs_turn W gi current :
    flood_configs g pos (W, gi) → current ∈ W →
    flood_configs g pos (flood_step current W gi).

(** What [initialize_mines first_click] makes of [g]: the engine [g']. *)
Definition mines_placed (g : MinesweeperGame) (first_click : Position)
    (g' : MinesweeperGame) : Prop :=
  rows g' = rows g ∧ cols g' = cols g ∧ total_mines g' = total_mines g
  ∧ state g' = PLAYING ∧ elapsed_time g' = elapsed_time g
  ∧ cell_states g' = cell_states g ∧ revealed g' = revealed g
  ∧ flags g' = flags g
  ∧ mines g' ⊆ available g first_click
  ∧ Z.of_nat (size (mines g'))
    = Z.min (total_mines g) (Z.of_nat (size (available g first_click)))
  ∧ adjacent_cache g' = adjacent_counts (rows g) (cols g) (mines g').

(** The two assignments of a turn that reveals [current]. *)
Definition reveal_one (current : Position) (self : MinesweeperGame)
  : MinesweeperGame :=
  set_cell_states (<[current := REVEALED]> (cell_states self))
    (set_revealed ({[current]} ∪ revealed self) self).

(** The neighbours a turn on [current] adds to the worklist. *)
Definition enqueued (current : Position) (self : MinesweeperGame)
  : gset Position :=
  if decide (cached_count self current = 0%nat)
  then neighbors current (rows self) (cols self)
         ∖ ({[current]} ∪ revealed self) ∖ flags self
  else ∅.

(** The attributes the flood fill leaves alone. *)
Definition same_frame (g g' : MinesweeperGame) : Prop :=
  rows g' = rows g ∧ cols g' = cols g ∧ total_mines g' = total_mines g
  ∧ state g' = state g ∧ start_time g' = start_time g
  ∧ elapsed_time g' = elapsed_time g ∧ mines g' = mines g
  ∧ flags g' = flags g ∧ adjacent_cache g' = adjacent_cache g.

(** The loop invariant of the flood fill that [reveal_cell pos] runs on
    [g0]: [W] is the worklist and [g] the engine at the top of a turn. *)
Definition flood_inv (g0 : MinesweeperGame) (pos : Position)
    (W : gset Position) (g : MinesweeperGame) : Prop :=
  same_frame g0 g
  ∧ W ## revealed g
  ∧ revealed g0 ⊆ revealed g
  ∧ (∀ c, c ∈ revealed g → c ∈ revealed g0 ∨ flood_reach g0 pos c)
  ∧ (∀ c, c ∈ W → flood_reach g0 pos c)
  ∧ pos ∈ revealed g ∪ W
  ∧ (∀ c n, c ∈ revealed g → c ∉ revealed g0 →
       cached_count g0 c = 0%nat →
       n ∈ neighbors c (rows g0) (cols g0) →
       n ∉ revealed g0 → n ∉ flags g0 → n ∈ revealed g ∪ W)
  ∧ (∀ p, p ∉ revealed g → cell_states g !! p = cell_states g0 !! p)
  ∧ (∀ p, p ∈ revealed g → p ∉ revealed g0 →
       cell_states g !! p = Some REVEALED).

(** The assignments of [reveal_cell] when a mine is hit, and when the
    game is won, [now] being the reading of the clock. *)
Definition lose (now : Z) (self : MinesweeperGame) : MinesweeperGame :=
  set_elapsed_time (now - start_time self) (set_state LOST self).

Definition win (now : Z) (self : MinesweeperGame) : MinesweeperGame :=
  set_flags (mines self)
    (set_elapsed_time (now - start_time self) (set_state WON self)).

(** The game is over. *)
Definition ended (self : MinesweeperGame) : Prop :=
  state self = WON ∨ state self = LOST.

(** The board and the mine count never change. *)
Definition same_config (g g' : MinesweeperGame) : Prop :=
  rows g' = rows g ∧ cols g' = cols g ∧ total_mines g' = total_mines g.

(** What holds of the engine throughout a session, whatever positions
    the calls are given. *)
Definition session_inv (g : MinesweeperGame) : Prop :=
  mines g ⊆ all_positions (rows g) (cols g)
  ∧ (state g = READY →
       mines g = ∅ ∧ revealed g = ∅ ∧ flags g = ∅ ∧ cell_states g = ∅)
  ∧ (state g ≠ READY →
       0 ≤ total_mines g
       ∧ adjacent_cache g = adjacent_counts (rows g) (cols g) (mines g)
       ∧ ∃ first_click,
           mines g ⊆ available g first_click
           ∧ Z.of_nat (size (mines g))
             = Z.min (total_mines g)
                 (Z.of_nat (size (available g first_click))))
  ∧ (state g = PLAYING →
       flags g ## revealed g
       ∧ ∀ p, p ∉ revealed g →
           cell_state g p = if decide (p ∈ flags g) then FLAGGED else HIDDEN)
  ∧ (state g = WON → win_condition g).

(** What holds in addition when every call is given a position of the
    board. *)
Definition board_inv (g : MinesweeperGame) : Prop :=
  revealed g ⊆ all_positions (rows g) (cols g)
  ∧ flags g ⊆ all_positions (rows g) (cols g)
  ∧ revealed g ## mines g
  ∧ flags g ## revealed g.

(** A session: the calls of [ops], one after the other. *)
Fixpoint run_ops (ops : list op) (self : MinesweeperGame)
  : M MinesweeperGame :=
  match ops with
  | [] => mret self
  | o :: ops' => self ← run_op o self; run_ops ops' self
  end.

(** The engine a run ends with ([d] when it does not end). *)
Definition result_game (d : MinesweeperGame)
    (o : outcome (MinesweeperGame * World)) : MinesweeperGame :=
  match o with
  | Done (g, _) => g
  | _ => d
  end.

(** What a call returns and the engine it leaves ([False] and [d] when it
    does not return). *)
Definition call_result (d : MinesweeperGame)
    (o : outcome (bool * MinesweeperGame * World)) : bool * MinesweeperGame :=
  match o with
  | Done (b, g, _) => (b, g)
  | _ => (false, d)
  end.

(** The run returned. *)
Definition is_done {A} (o : outcome A) : bool :=
  match o with
  | Done _ => true
  | _ => false
  end.

(** The region the specification speaks of, in its words: the cells of
    zero adjacency connected to [pos] ([zero_region]), and with them the
    cells that border them. *)
Inductive zero_region (g : MinesweeperGame) (pos : Position)
  : Position → Prop :=
| zero_region_start :
    cached_count g pos = 0%nat → zero_region g pos pos
| zero_region_step c n :
    zero_region g pos c →
    n ∈ neighbors c (rows g) (cols g) →
    cached_count g n = 0%nat →
    zero_region g pos n.

Definition zero_region_with_border (g : MinesweeperGame) (pos c : Position)
  : Prop :=
  zero_region g pos c
  ∨ ∃ z, zero_region g pos z ∧ c ∈ neighbors z (rows g) (cols g).

(** ** Sessions used as examples *)

(** A 2 x 8 board with one mine, which the draw puts at (0, 5): a first
    click at (0, 0), then a click at (1, 6), then a flag on the mine. *)
Definition chord_demo : MinesweeperGame :=
  result_game (new_game 2 8 1)
    (run_ops [Reveal (mkPosition 0 0); Reveal (mkPosition 1 6);
              ToggleFlag (mkPosition 0 5)]
       (new_game 2 8 1) (mkWorld [1%nat] [100; 130])).

(** A 1 x 6 board with one mine, which the draw puts at (0, 3): a first
    click at (0, 0), then a flag on (0, 4). *)
Definition flag_demo : MinesweeperGame :=
  result_game (new_game 1 6 1)
    (run_ops [Reveal (mkPosition 0 0); ToggleFlag (mkPosition 0 4)]
       (new_game 1 6 1) (mkWorld [1%nat] [100])).

(** The chord on (1, 6) in [chord_demo], in a world where the hidden
    neighbours are yielded in the order (0, 7), (0, 6), (1, 7), (1, 5). *)
Definition chord_demo_call : outcome (bool * MinesweeperGame * World) :=
  auto_reveal_neighbors (mkPosition 1 6) chord_demo (mkWorld [] [200]).

(** The reveal of (0, 5) in [flag_demo]. *)
Definition flag_demo_call : outcome (bool * MinesweeperGame * World) :=
  reveal_cell (mkPosition 0 5) flag_demo (mkWorld [] [200]).

(** A 1 x 5 board with one mine, which the draw puts at (0, 2): a first
    click at (0, 0), a flag on (0, 3), then a reveal at (-1, 1), which is
    off the board. *)
Definition off_board_demo : MinesweeperGame :=
  result_game (new_game 1 5 1)
    (run_ops [Reveal (mkPosition 0 0); ToggleFlag (mkPosition 0 3);
              Reveal (mkPosition (-1) 1)]
       (new_game 1 5 1) (mkWorld [2%nat] [100; 160])).

(** ** Proof steps used throughout *)

(** Reduce the attribute reads of an engine built by assignments. *)
Ltac fields :=
  cbn [rows cols total_mines state start_time elapsed_time mines cell_states
       revealed flags adjacent_cache set_state set_start_time
       set_elapsed_time set_mines set_cell_states set_revealed set_flags
       set_adjacent_cache _cache_adjacent_counts reveal_one new_game reset
       row col fst snd] in *.

(** Settle a decidable fact about a concrete session by evaluation. *)
Ltac decide_by_vm := apply (bool_decide_unpack _); vm_compute; exact I.

(** A 1 x 6 board with one mine, which the draw puts at (0, 3): a first
    click at (0, 0), a click at (0, 4), a flag on the mine. *)
Definition chord_ready_demo : MinesweeperGame :=
  result_game (new_game 1 6 1)
    (run_ops [Reveal (mkPosition 0 0); Reveal (mkPosition 0 4);
              ToggleFlag (mkPosition 0 3)]
       (new_game 1 6 1) (mkWorld [1%nat] [100])).

(** The same session followed by the chord on (0, 4), which wins. *)
Definition won_demo : MinesweeperGame :=
  result_game (new_game 1 6 1)
    (run_ops [Reveal (mkPosition 0 0); Reveal (mkPosition 0 4);
              ToggleFlag (mkPosition 0 3); AutoReveal (mkPosition 0 4)]
       (new_game 1 6 1) (mkWorld [1%nat] [100; 175])).

(** The same board: a first click at (0, 0), then a click on the mine. *)
Definition lost_demo : MinesweeperGame :=
  result_game (new_game 1 6 1)
    (run_ops [Reveal (mkPosition 0 0); Reveal (mkPosition 0 3)]
       (new_game 1 6 1) (mkWorld [1%nat] [100; 140])).

(** A Beginner game one cell short of the win: the first click at (4, 4)
    opens 66 cells, four more clicks open one cell each, and (1, 0) is the
    last cell that is no mine. *)
Definition beginner_demo : MinesweeperGame :=
  result_game (new_game 9 9 10)
    (run_ops [Reveal (mkPosition 4 4); Reveal (mkPosition 0 1);
              Reveal (mkPosition 5 0); Reveal (mkPosition 8 0);
              Reveal (mkPosition 2 0)]
       (new_game 9 9 10)
       (mkWorld [3; 1; 4; 1; 5; 9; 2; 6; 5; 3]%nat [100])).

(** The call that wins it. *)
Definition beginner_win_call : bool * MinesweeperGame :=
  call_result (new_game 9 9 10)
    (reveal_cell (mkPosition 1 0) beginner_demo (mkWorld [] [160])).

(** ** The difficulty presets *)

(** [MinesweeperGame.DIFFICULTY_PRESETS]. *)
Definition DIFFICULTY_PRESETS : gmap string (Z * Z * Z) :=
  list_to_map
    [("Beginner"%string, (9, 9, 10));
     ("Intermediate"%string, (16, 16, 40));
     ("Expert"%string, (16, 30, 99))].

(** The 2 x 8 board of [chord_demo] after the first click alone. *)
Definition first_click_demo : MinesweeperGame :=
  result_game (new_game 2 8 1)
    (run_ops [Reveal (mkPosition 0 0)]
       (new_game 2 8 1) (mkWorld [1%nat] [100])).

(** ** The application: [MinesweeperGUI]

    The state of the application is its engine [self.game] together with
    what its widgets show: the options of the label of each cell in
    [self.cells], the numbers in the two labels of the header, the text of
    the button, and whether [self.timer_job] holds an identifier.  The
    calls that only lay the window out ([pack], [grid], [bind], the styles,
    the menu, the geometry) and [messagebox.showinfo] leave that state
    alone.  [MinesweeperGame.__init__] is [new_game] above, so the method
    [new_game] of the application is [gui_new_game] here. *)

(** [COLORS], the entries that the handlers read. *)
Definition COLORS_cell_hidden : string := "#585b7a".
Definition COLORS_cell_revealed : string := "#a8a9c4".
Definition COLORS_cell_hover : string := "#6c6f8f".
Definition COLORS_mine : string := "#d90429".
Definition COLORS_flag : string := "#06ffa5".
Definition COLORS_text : string := "#edf2f4".
Definition COLORS_numbers : list string :=
  [""; "#4895ef"; "#4cc9f0"; "#4361ee"; "#3f37c9";
   "#7209b7"; "#b5179e"; "#f72585"; "#560bad"]%string.

(** [d.get(key, default)] on a dictionary given by its items. *)
Fixpoint dict_get {K V} `{EqDecision K} (d : list (K * V)) (key : K)
    (default : V) : V :=
  match d with
  | [] => default
  | (k, v) :: d' => if decide (k = key) then v else dict_get d' key default
  end.

(** The options of the label of a cell that the application sets. *)
Record CellConfig := mkCellConfig {
  cfg_text : string;
  cfg_fg : string;
  cfg_bg : string;
  cfg_relief : string
}.

(** The exceptions of the engine, and [IndexError]. *)
Inductive gui_exn := Exn (e : exn) | IndexError.

Inductive gui_outcome (A : Type) : Type :=
| Handled (a : A)
| Failed (e : gui_exn)
| Unfinished.
Arguments Handled {A} a.
Arguments Failed {A} e.
Arguments Unfinished {A}.

Definition G (A : Type) : Type := World → gui_outcome (A * World).

#[global] Instance G_ret : MRet G := λ A a w, Handled (a, w).
#[global] Instance G_bind : MBind G := λ A B f m w,
  match m w with
  | Handled (a, w') => f a w'
  | Failed e => Failed e
  | Unfinished => Unfinished
  end.

Definition gui_raise {A} (e : gui_exn) : G A := λ _, Failed e.

(** A call into the engine. *)
Definition engine {A} (m : M A) : G A := λ w,
  match m w with
  | Done r => Handled r
  | Raise e => Failed (Exn e)
  | OutOfFuel => Unfinished
  end.

Record MinesweeperGUI := mkGUI {
  game : MinesweeperGame;
  cells : gmap Position CellConfig;
  timer_job : bool;       (* [self.timer_job] is not [None] *)
  mine_label : Z;         (* the number in the text of [self.mine_label] *)
  timer_label : Z;        (* the number in the text of [self.timer_label] *)
  new_game_btn : string   (* the text of [self.new_game_btn] *)
}.

(** Assignments to the attributes of the application and to the options
    of its widgets. *)
Definition set_game (v : MinesweeperGame) (self : MinesweeperGUI) :=
  mkGUI v (cells self) (timer_job self) (mine_label self) (timer_label self)
    (new_game_btn self).
Definition set_cells (v : gmap Position CellConfig) (self : MinesweeperGUI) :=
  mkGUI (game self) v (timer_job self) (mine_label self) (timer_label self)
    (new_game_btn self).
Definition set_timer_job (v : bool) (self : MinesweeperGUI) :=
  mkGUI (game self) (cells self) v (mine_label self) (timer_label self)
    (new_game_btn self).
Definition set_mine_label (v : Z) (self : MinesweeperGUI) :=
  mkGUI (game self) (cells self) (timer_job self) v (timer_label self)
    (new_game_btn self).
Definition set_timer_label (v : Z) (self : MinesweeperGUI) :=
  mkGUI (game self) (cells self) (timer_job self) (mine_label self) v
    (new_game_btn self).
Definition set_new_game_btn (v : string) (self : MinesweeperGUI) :=
  mkGUI (game self) (cells self) (timer_job self) (mine_label self)
    (timer_label self) v.

(** [cell.config(text='💣', bg=COLORS['mine'], relief='sunken')],
    [cell.config(text='❌', bg=COLORS['mine'])] and [cell.config(bg=color)]:
    the options not named keep their values. *)
Definition show_mine (c : CellConfig) : CellConfig :=
  mkCellConfig "💣" (cfg_fg c) COLORS_mine "sunken".
Definition show_wrong_flag (c : CellConfig) : CellConfig :=
  mkCellConfig "❌" (cfg_fg c) COLORS_mine (cfg_relief c).
Definition show_bg (color : string) (c : CellConfig) : CellConfig :=
  mkCellConfig (cfg_text c) (cfg_fg c) color (cfg_relief c).

(** [self.cells[pos].config(...)], the options changed given by [f]:
    [KeyError] when [pos] is no key of [self.cells]. *)
Definition config_cell (f : CellConfig → CellConfig) (pos : Position)
    (self : MinesweeperGUI) : G MinesweeperGUI :=
  match cells self !! pos with
  | None => gui_raise (Exn KeyError)
  | Some _ => mret (set_cells (alter f pos (cells self)) self)
  end.

(** [list(map(f, xs))] for an [f] that acts on the application. *)
Fixpoint for_each {A} (f : A → MinesweeperGUI → G MinesweeperGUI)
    (xs : list A) (self : MinesweeperGUI) : G MinesweeperGUI :=
  match xs with
  | [] => mret self
  | x :: xs' => self ← f x self; for_each f xs' self
  end.

(** The label that [_create_cell] makes. *)
Definition _create_cell (pos : Position) : CellConfig :=
  mkCellConfig "" COLORS_text COLORS_cell_hidden "raised".

(** The options that [_update_cell] (the second definition of the class,
    which is the one in force) computes for the cell at [pos].
    [COLORS['numbers'][count]] is evaluated, whatever the key, as soon as
    [count] is not 0. *)
Definition cell_options (game : MinesweeperGame) (pos : Position)
  : gui_exn + CellConfig :=
  let count := cached_count game pos in
  match (if decide (count = 0%nat) then Some COLORS_text
         else COLORS_numbers !! count) with
  | None => inl IndexError
  | Some number_fg =>
      let display_map :=
        [((true, false, false),
          ("🚩"%string, COLORS_flag, COLORS_cell_hidden));
         ((false, true, false),
          (if decide (count = 0%nat) then ""%string else pretty count,
           number_fg, COLORS_cell_revealed));
         ((false, true, true), ("💣"%string, COLORS_mine, COLORS_mine));
         ((false, false, false),
          (""%string, COLORS_text, COLORS_cell_hidden))] in
      let key :=
        (bool_decide (pos ∈ flags game),
         bool_decide (pos ∈ revealed game),
         bool_decide (pos ∈ mines game ∧ state game = LOST)) in
      let '(text, fg, bg) :=
        dict_get display_map key
          (""%string, COLORS_text, COLORS_cell_hidden) in
      inr (mkCellConfig text fg bg
             (if decide (pos ∈ revealed game) then "sunken"%string
              else "raised"%string))
  end.

(** [_update_cell]: [cell = self.cells[pos]] comes first. *)
Definition _update_cell (pos : Position) (self : MinesweeperGUI)
  : G MinesweeperGUI :=
  match cells self !! pos with
  | None => gui_raise (Exn KeyError)
  | Some _ =>
      match cell_options (game self) pos with
      | inl e => gui_raise e
      | inr cfg => config_cell (λ _, cfg) pos self
      end
  end.

(** The number that [_update_mine_counter] shows. *)
Definition remaining_mines (game : MinesweeperGame) : Z :=
  Z.max 0 (total_mines game - Z.of_nat (size (flags game))).

Definition _update_mine_counter (self : MinesweeperGUI) : MinesweeperGUI :=
  set_mine_label (remaining_mines (game self)) self.

(** [_update_timer]: the clock is read only while the game is on and
    [start_time] is not 0. *)
Definition _update_timer (self : MinesweeperGUI) : G MinesweeperGUI :=
  elapsed ← (if decide (state (game self) = WON ∨ state (game self) = LOST)
             then mret (elapsed_time (game self))
             else if decide (start_time (game self) ≠ 0)
             then now ← engine time_time;
                  mret (now - start_time (game self))
             else mret 0);
  mret (set_timer_label (Z.min elapsed 999) self).

(** The [tick] of [_start_timer], which the event loop calls again every
    second for as long as it reschedules itself. *)
Definition tick (self : MinesweeperGUI) : G MinesweeperGUI :=
  if decide (state (game self) = PLAYING) then
    self ← _update_timer self; mret (set_timer_job true self)
  else mret self.

Definition _start_timer (self : MinesweeperGUI) : G MinesweeperGUI :=
  tick self.

Definition celebrate_colors : list string :=
  ["#4cc9f0"; "#4895ef"; "#4361ee"; "#7209b7"; "#b5179e"]%string.

(** The [flash] of [_celebrate], which the event loop calls again with
    [index + 1] as long as [index < 5]. *)
Definition flash (index : nat) (self : MinesweeperGUI) : G MinesweeperGUI :=
  if decide (index < 5)%nat then
    for_each
      (λ p self,
         match celebrate_colors !! index with
         | Some color =>
             config_cell (show_bg color) p self
         | None => gui_raise IndexError
         end)
      (elements (flags (game self))) self
  else for_each _update_cell (elements (flags (game self))) self.

Definition _celebrate (self : MinesweeperGUI) : G MinesweeperGUI :=
  flash 0 self.

(** [_game_won]. *)
Definition _game_won (self : MinesweeperGUI) : G MinesweeperGUI :=
  _celebrate (set_new_game_btn "😎" self).

(** [_game_over]: the state of the engine is set to [LOST], every mine is
    shown, then every flag that is on no mine is crossed. *)
Definition _game_over (self : MinesweeperGUI) : G MinesweeperGUI :=
  let self := set_game (set_state LOST (game self)) self in
  let self := set_new_game_btn "😵" self in
  self ← for_each (config_cell show_mine)
            (elements (mines (game self))) self;
  for_each (config_cell show_wrong_flag)
    (elements (flags (game self) ∖ mines (game self))) self.

(** [_update_board]. *)
Definition _update_board (self : MinesweeperGUI) : G MinesweeperGUI :=
  self ← for_each _update_cell (elements (dom (cells self))) self;
  if decide (state (game self) = WON) then _game_won self else mret self.

(** [MinesweeperGUI.new_game]: a falsy [difficulty] ([None] or the empty
    string) resets the engine, a name that is no preset raises
    [KeyError]; the cells are made anew. *)
Definition gui_new_game (difficulty : option string)
    (self : MinesweeperGUI) : G MinesweeperGUI :=
  game ← match difficulty with
          | Some name =>
              if decide (name = ""%string) then mret (reset (game self))
              else match DIFFICULTY_PRESETS !! name with
                   | Some (rows, cols, mines) =>
                       mret (new_game rows cols mines)
                   | None => gui_raise (Exn KeyError)
                   end
          | None => mret (reset (game self))
          end;
  let self := set_game game self in
  let self :=
    set_cells
      (list_to_map
         ((λ p, (p, _create_cell p))
            <$> all_positions_list (rows game) (cols game))) self in
  let self := _update_mine_counter self in
  self ← _update_timer self;
  let self := set_new_game_btn "😊" self in
  mret (set_timer_job false self).

(** [MinesweeperGUI.__init__]. *)
Definition gui_init : G MinesweeperGUI :=
  gui_new_game (Some "Beginner"%string)
    (mkGUI (new_game 9 9 10) ∅ false 10 0 "😊").

(** [_on_left_click]. *)
Definition _on_left_click (pos : Position) (self : MinesweeperGUI)
  : G MinesweeperGUI :=
  if decide (state (game self) = PLAYING ∨ state (game self) = READY) then
    engine (reveal_cell pos (game self)) ≫= λ r : bool * MinesweeperGame,
      let self := set_game r.2 self in
      if r.1 then
        self ← _update_board self;
        if decide (state (game self) = PLAYING ∧ timer_job self = false)
        then _start_timer self
        else mret self
      else _game_over self
  else mret self.

(** [_on_right_click]. *)
Definition _on_right_click (pos : Position) (self : MinesweeperGUI)
  : G MinesweeperGUI :=
  let self := set_game (toggle_flag pos (game self)) self in
  self ← _update_cell pos self;
  mret (_update_mine_counter self).

(** [_on_double_click]. *)
Definition _on_double_click (pos : Position) (self : MinesweeperGUI)
  : G MinesweeperGUI :=
  engine (auto_reveal_neighbors pos (game self))
    ≫= λ r : bool * MinesweeperGame,
      let self := set_game r.2 self in
      if r.1 then _update_board self
      else if decide (state (game self) = LOST) then _game_over self
      else mret self.

(** [_on_hover_enter] and [_on_hover_leave]. *)
Definition hover (color : string) (pos : Position) (self : MinesweeperGUI)
  : G MinesweeperGUI :=
  if decide ((pos ∉ revealed (game self)) ∧ (pos ∉ flags (game self))) then
    config_cell (show_bg color) pos self
  else mret self.

Definition _on_hover_enter : Position → MinesweeperGUI → G MinesweeperGUI :=
  hover COLORS_cell_hover.
Definition _on_hover_leave : Position → MinesweeperGUI → G MinesweeperGUI :=
  hover COLORS_cell_hidden.

(** What the event loop delivers: the events bound to a cell, a new game
    from the button ([None]) or from an entry of the menu, and the
    callbacks that [tick] and [flash] leave scheduled. *)
Inductive gui_event :=
| LeftClick (pos : Position)
| RightClick (pos : Position)
| DoubleClick (pos : Position)
| HoverEnter (pos : Position)
| HoverLeave (pos : Position)
| NewGame (difficulty : option string)
| Tick
| Flash (index : nat).

Definition gui_step (e : gui_event) (self : MinesweeperGUI)
  : G MinesweeperGUI :=
  match e with
  | LeftClick pos => _on_left_click pos self
  | RightClick pos => _on_right_click pos self
  | DoubleClick pos => _on_double_click pos self
  | HoverEnter pos => _on_hover_enter pos self
  | HoverLeave pos => _on_hover_leave pos self
  | NewGame difficulty => gui_new_game difficulty self
  | Tick => tick self
  | Flash index => flash index self
  end.

(** The events the widgets can deliver: [_create_cell] binds the clicks
    to the cells of [self.cells], [_build_menu] makes one entry for each
    preset, and the button calls [new_game()].  A scheduled callback may
    run at any point. *)
Definition offered (self : MinesweeperGUI) (e : gui_event) : Prop :=
  match e with
  | LeftClick pos | RightClick pos | DoubleClick pos
  | HoverEnter pos | HoverLeave pos => is_Some (cells self !! pos)
  | NewGame (Some name) => is_Some (DIFFICULTY_PRESETS !! name)
  | NewGame None | Tick | Flash _ => True
  end.

#[global] Instance offered_dec self e : Decision (offered self e).
Proof. destruct e as [| | | | |[]| |]; cbn [offered]; apply _. Defined.

(** The states of a run of the application. *)
Inductive gui_reachable : MinesweeperGUI → Prop :=
| gui_start w self w' :
    gui_init w = Handled (self, w') → gui_reachable self
| gui_event_handled self e w self' w' :
    gui_reachable self → offered self e →
    gui_step e self w = Handled (self', w') → gui_reachable self'.

Fixpoint gui_run (es : list gui_event) (self : MinesweeperGUI)
  : G MinesweeperGUI :=
  match es with
  | [] => mret self
  | e :: es' => self ← gui_step e self; gui_run es' self
  end.

(** The application after [__init__] and the events [es], in world [w]
    (the empty application when an event is not handled). *)
Definition gui_after (es : list gui_event) (w : World) : MinesweeperGUI :=
  match (self ← gui_init; gui_run es self) w with
  | Handled (self, _) => self
  | _ => mkGUI (new_game 0 0 0) ∅ false 0 0 ""
  end.

(** Every event of the run [es] from [self] in world [w] is one the
    widgets offer at that moment, and is handled. *)
Fixpoint gui_run_offered (es : list gui_event) (self : MinesweeperGUI)
    (w : World) : bool :=
  match es with
  | [] => true
  | e :: es' =>
      bool_decide (offered self e)
      && match gui_step e self w with
         | Handled (self', w') => gui_run_offered es' self' w'
         | _ => false
         end
  end.

Definition gui_after_offered (es : list gui_event) (w : World) : bool :=
  match gui_init w with
  | Handled (self, w') => gui_run_offered es self w'
  | _ => false
  end.

(** What holds of the engine throughout a run of the application. *)
Definition app_inv (g : MinesweeperGame) : Prop :=
  (∃ name,
     DIFFICULTY_PRESETS !! name = Some (rows g, cols g, total_mines g))
  ∧ session_inv g ∧ board_inv g
  ∧ (state g = READY → adjacent_cache g = ∅).

(** What holds of the application throughout a run. *)
Definition gui_inv (self : MinesweeperGUI) : Prop :=
  app_inv (game self)
  ∧ dom (cells self) = all_positions (rows (game self)) (cols (game self))
  ∧ timer_label self ≤ 999
  ∧ 0 ≤ mine_label self
  ∧ (state (game self) ≠ WON →
       mine_label self = remaining_mines (game self)).

(** The options of the cell at [pos] once [_update_cell] has run. *)
Definition shown (game : MinesweeperGame) (pos : Position) : CellConfig :=
  match cell_options game pos with
  | inr cfg => cfg
  | inl _ => _create_cell pos
  end.

(** The application redrawn: the engine, the cells there are and the mine
    counter are the same. *)
Definition redraw (self self' : MinesweeperGUI) : Prop :=
  game self' = game self ∧ dom (cells self') = dom (cells self)
  ∧ mine_label self' = mine_label self
  ∧ (timer_label self ≤ 999 → timer_label self' ≤ 999).

(** The cells after a loop that configures the cells [xs], each by [h]. *)
Definition alter_all (h : Position → CellConfig → CellConfig)
    (xs : list Position) (m : gmap Position CellConfig)
  : gmap Position CellConfig :=
  foldl (λ m x, alter (h x) x m) m xs.

(** Reduce the attribute reads of an application built by assignments. *)
Ltac gui_fields :=
  cbn [game cells timer_job mine_label timer_label new_game_btn set_game
       set_cells set_timer_job set_mine_label set_timer_label
       set_new_game_btn _update_mine_counter cfg_text cfg_fg cfg_bg
       cfg_relief fst snd] in *.

(** Runs of the application used as examples.  The Beginner board as
    [__init__] leaves it. *)
Definition start_demo : MinesweeperGUI := gui_after [] (mkWorld [] []).

(** A first click at (0, 0) on the Beginner board. *)
Definition click_demo_world : World := mkWorld (replicate 10 0%nat) [100; 101].

Definition click_demo : MinesweeperGUI :=
  gui_after [LeftClick (mkPosition 0 0)] click_demo_world.

(** An Intermediate game, a first click, a flag, and a left click on the
    flagged cell. *)
Definition gui_demo_events : list gui_event :=
  [NewGame (Some "Intermediate"%string); LeftClick (mkPosition 0 0);
   RightClick (mkPosition 15 15); LeftClick (mkPosition 15 15)].

Definition gui_demo : MinesweeperGUI :=
  gui_after gui_demo_events (mkWorld (replicate 40 0%nat) [100; 101; 130]).

(** * Properties *)

(** ** Positions, neighbours and the board *)


Lemma Position_eq p q : row p = row q → col p = col q → p = q.
Proof. destruct p, q; simpl; congruence. Qed.

Lemma elem_of_deltas d : d ∈ deltas ↔ -1 ≤ d ∧ d ≤ 1.
Proof. unfold deltas. set_unfold. lia. Qed.

Lemma elem_of_neighbors p s R C :
  p ∈ neighbors s R C ↔
  in_bounds R C p ∧ p ≠ s ∧ (-1 ≤ row p - row s ∧ row p - row s ≤ 1)
  ∧ (-1 ≤ col p - col s ∧ col p - col s ≤ 1).
Proof.
  unfold neighbors, in_bounds. rewrite elem_of_list_to_set.
  split.
  - intros H. apply list_elem_of_bind in H as (dr & H & Hdr).
    apply list_elem_of_bind in H as (dc & H & Hdc).
    case_bool_decide as Hg; [|by apply elem_of_nil in H].
    apply list_elem_of_singleton in H. subst p. simpl.
    apply elem_of_deltas in Hdr, Hdc.
    split_and!; try lia.
    intros E. apply (f_equal row) in E as E1. apply (f_equal col) in E as E2.
    simpl in *. lia.
  - intros (Hb & Hne & Hr & Hc).
    apply list_elem_of_bind. exists (row p - row s). split.
    + apply list_elem_of_bind. exists (col p - col s). split.
      * rewrite bool_decide_eq_true_2.
        -- apply list_elem_of_singleton, Position_eq; simpl; lia.
        -- split_and!; try lia.
           destruct (decide (row p - row s = 0)) as [E1|]; [|by left].
           right. intros E2. apply Hne, Position_eq; lia.
      * apply elem_of_deltas; lia.
    + apply elem_of_deltas; lia.
Qed.

Lemma elem_of_all_positions p R C : p ∈ all_positions R C ↔ in_bounds R C p.
Proof.
  unfold all_positions, all_positions_list, in_bounds.
  rewrite elem_of_list_to_set. split.
  - intros H. apply list_elem_of_bind in H as (r & H & Hr).
    apply list_elem_of_bind in H as (c & H & Hc).
    apply list_elem_of_singleton in H. subst p. simpl.
    apply elem_of_seqZ in Hr, Hc. lia.
  - intros [Hr Hc]. apply list_elem_of_bind. exists (row p). split.
    + apply list_elem_of_bind. exists (col p). split.
      * apply list_elem_of_singleton, Position_eq; done.
      * apply elem_of_seqZ; lia.
    + apply elem_of_seqZ; lia.
Qed.

Lemma NoDup_all_positions_list R C : NoDup (all_positions_list R C).
Proof.
  unfold all_positions_list. apply NoDup_bind.
  - intros r1 r2 p _ _ H1 H2.
    apply list_elem_of_bind in H1 as (c1 & H1 & _).
    apply list_elem_of_bind in H2 as (c2 & H2 & _).
    apply list_elem_of_singleton in H1, H2. congruence.
  - intros r _. apply NoDup_bind.
    + intros c1 c2 p _ _ H1 H2.
      apply list_elem_of_singleton in H1, H2. congruence.
    + intros. apply NoDup_singleton.
    + apply NoDup_seqZ.
  - apply NoDup_seqZ.
Qed.

Lemma length_bind_const {A B} (f : A → list B) (l : list A) n :
  (∀ x, length (f x) = n) → length (l ≫= f) = (length l * n)%nat.
Proof.
  intros Hf. induction l as [|x l IH]; csimpl; [done|].
  rewrite length_app, Hf, IH. lia.
Qed.

Lemma size_all_positions R C :
  size (all_positions R C) = (Z.to_nat R * Z.to_nat C)%nat.
Proof.
  unfold all_positions. rewrite size_list_to_set by apply NoDup_all_positions_list.
  unfold all_positions_list.
  rewrite (length_bind_const _ _ (Z.to_nat C)), length_seqZ; [done|].
  intros r. rewrite (length_bind_const _ _ 1%nat), length_seqZ; [lia|done].
Qed.

(** ** The environment monad *)
Lemma bind_Done {A B} (m : M A) (f : A → M B) w r :
  (m ≫= f) w = Done r ↔ ∃ a w', m w = Done (a, w') ∧ f a w' = Done r.
Proof.
  unfold mbind, M_bind. split.
  - destruct (m w) as [[a w']| |]; [eauto|done|done].
  - intros (a & w' & -> & ?). done.
Qed.

Lemma ret_Done {A} (a : A) w r : (mret a : M A) w = Done r ↔ r = (a, w).
Proof. unfold mret, M_ret. split; [by intros [= <-]|by intros ->]. Qed.

Lemma randbelow_Done n w :
  ∃ w', randbelow n w = Done ((hd 0 (entropy w) `mod` n)%nat, w').
Proof. eexists. reflexivity. Qed.

Lemma time_time_Done w :
  time_time w = Done (hd 0 (clock w), mkWorld (entropy w) (tl (clock w))).
Proof. reflexivity. Qed.

Lemma choose_distinct_spec {A} (pool : list A) k w :
  ∃ l w', choose_distinct pool k w = Done (l, w')
    ∧ clock w' = clock w
    ∧ l ⊆ pool
    ∧ (NoDup pool → NoDup l)
    ∧ ((k ≤ length pool)%nat → length l = k).
Proof.
  revert pool w. induction k as [|k IH]; intros pool w; simpl.
  - exists [], w. split_and!; [done|done|set_solver|constructor|done].
  - unfold mbind at 1, M_bind. simpl.
    set (j := (hd 0%nat (entropy w) `mod` length pool)%nat).
    set (w1 := {| entropy := tl (entropy w); clock := clock w |}).
    destruct (pool !! j) as [x|] eqn:Hj.
    + destruct (IH (delete j pool) w1)
        as (l & w' & Hl & Hck & Hsub & Hnd & Hlen).
      exists (x :: l), w'. split_and!.
      * unfold mbind, M_bind. by rewrite Hl.
      * done.
      * intros y [->|Hy]%elem_of_cons.
        -- by eapply list_elem_of_lookup_2.
        -- eapply list_elem_of_delete_inv, Hsub, Hy.
      * intros Hp. pose proof (delete_Permutation _ _ _ Hj) as Hperm.
        rewrite Hperm in Hp. apply NoDup_cons in Hp as [Hx Hp].
        apply NoDup_cons. split; [|by apply Hnd].
        intros Hxl. apply Hx, Hsub, Hxl.
      * intros Hk. simpl. f_equal. apply Hlen.
        rewrite length_delete by eauto. lia.
    + exists [], w1. split_and!; [done|done|set_solver|constructor|].
      intros Hk. apply lookup_ge_None in Hj.
      assert (j < length pool)%nat; [|lia].
      apply Nat.mod_upper_bound. lia.
Qed.



Lemma set_pop_elem_of s w x w' :
  set_pop s w = Done (x, w') → x ∈ s ∧ clock w' = clock w.
Proof.
  unfold set_pop. intros H. apply bind_Done in H as (j & w1 & Hr & H).
  destruct (elements s !! j) as [y|] eqn:Hj; [|done].
  apply ret_Done in H as [= -> ->]. injection Hr as _ <-.
  split; [|done].
  apply elem_of_elements. by eapply list_elem_of_lookup_2.
Qed.

Lemma set_pop_Done s w : s ≠ ∅ → ∃ x w', set_pop s w = Done (x, w').
Proof.
  intros Hs. unfold set_pop.
  destruct (randbelow_Done (size s) w) as [w1 Hr].
  set (j := (hd 0%nat (entropy w) `mod` size s)%nat) in *.
  assert (j < size s)%nat as Hlt.
  { apply Nat.mod_upper_bound. rewrite size_non_empty_iff.
    by intros ?%leibniz_equiv. }
  destruct (lookup_lt_is_Some_2 (elements s) j Hlt) as [x Hx].
  exists x, w1. apply bind_Done. exists j, w1. split; [done|].
  by rewrite Hx.
Qed.

Lemma length_bind_le {A B} (f : A → list B) (l : list A) n :
  (∀ x, (length (f x) ≤ n)%nat) → (length (l ≫= f) ≤ length l * n)%nat.
Proof.
  intros Hf. induction l as [|x l IH]; csimpl; [done|].
  rewrite length_app. specialize (Hf x). lia.
Qed.

Lemma size_list_to_set_le (l : list Position) :
  (size (list_to_set (C:=gset Position) l) ≤ length l)%nat.
Proof.
  induction l as [|x l IH].
  - rewrite list_to_set_nil, size_empty. done.
  - rewrite list_to_set_cons, size_union_alt, size_singleton. simpl.
    assert (size (list_to_set (C:=gset Position) l ∖ {[x]})
            ≤ size (list_to_set (C:=gset Position) l))%nat.
    { apply subseteq_size. intros y Hy. by apply elem_of_difference in Hy as [? _]. }
    lia.
Qed.

Lemma size_neighbors_le s R C : (size (neighbors s R C) ≤ 9)%nat.
Proof.
  unfold neighbors. etrans; [apply size_list_to_set_le|].
  etrans; [apply (length_bind_le _ _ 3)|done].
  intros dr. etrans; [apply (length_bind_le _ _ 1)|done].
  intros dc. case_bool_decide; simpl; lia.
Qed.

Lemma neighbors_in_bounds s R C : neighbors s R C ⊆ all_positions R C.
Proof.
  intros p Hp. apply elem_of_all_positions.
  by apply elem_of_neighbors in Hp as [? _].
Qed.

Lemma not_elem_of_neighbors_self s R C : s ∉ neighbors s R C.
Proof. intros H. apply elem_of_neighbors in H as (_ & Hne & _). done. Qed.

(** ** Mine placement *)

Lemma random_sample_spec {A} (population : list A) (k : Z) w :
  0 ≤ k → NoDup population →
  ∃ l w', random_sample population (Z.min k (Z.of_nat (length population))) w
          = Done (l, w')
    ∧ clock w' = clock w ∧ l ⊆ population ∧ NoDup l
    ∧ Z.of_nat (length l) = Z.min k (Z.of_nat (length population)).
Proof.
  intros Hk Hnd. unfold random_sample.
  rewrite decide_True by lia.
  destruct (choose_distinct_spec population
              (Z.to_nat (Z.min k (Z.of_nat (length population)))) w)
    as (l & w' & Hl & Hck & Hsub & Hnd' & Hlen).
  exists l, w'. split_and!; [done|done|done|by apply Hnd'|].
  rewrite Hlen by lia. lia.
Qed.

Lemma random_sample_negative {A} (population : list A) (k : Z) w :
  k < 0 → random_sample population k w = Raise ValueError.
Proof. intros Hk. unfold random_sample. by rewrite decide_False by lia. Qed.

Lemma initialize_mines_Done first_click g w :
  0 ≤ total_mines g →
  ∃ g' w', initialize_mines first_click g w = Done (g', w')
    ∧ mines_placed g first_click g'
    ∧ start_time g' = hd 0 (clock w)
    ∧ clock w' = tl (clock w).
Proof.
  intros Hm. unfold initialize_mines.
  destruct (random_sample_spec (elements (available g first_click))
              (total_mines g) w Hm (NoDup_elements _))
    as (l & w1 & Hl & Hck & Hsub & Hnd & Hlen).
  fold (size (available g first_click)) in Hl, Hlen.
  eexists _, _. split.
  { apply bind_Done. eexists _, _. split; [exact Hl|].
    apply bind_Done. eexists _, _. split; [apply time_time_Done|].
    reflexivity. }
  simpl. rewrite Hck. split; [|done].
  unfold mines_placed; simpl. split_and!; try done.
  - intros p Hp. apply elem_of_list_to_set in Hp.
    apply elem_of_elements. by apply Hsub.
  - by rewrite size_list_to_set.
Qed.

Lemma initialize_mines_inv first_click g w g' w' :
  initialize_mines first_click g w = Done (g', w') →
  0 ≤ total_mines g
  ∧ mines_placed g first_click g'
  ∧ start_time g' = hd 0 (clock w)
  ∧ clock w' = tl (clock w).
Proof.
  intros H. destruct (decide (0 ≤ total_mines g)) as [Hm|Hm].
  - destruct (initialize_mines_Done first_click g w Hm)
      as (g2 & w2 & H2 & Hpost).
    rewrite H2 in H. injection H as -> ->. done.
  - unfold initialize_mines in H. apply bind_Done in H as (l & w1 & H & _).
    rewrite random_sample_negative in H by lia. done.
Qed.

Lemma size_available_in_bounds g first_click :
  in_bounds (rows g) (cols g) first_click →
  Z.of_nat (size (available g first_click))
  = rows g * cols g - Z.of_nat (size (safe_zone g first_click)).
Proof.
  intros Hin. unfold available.
  assert (safe_zone g first_click ⊆ all_positions (rows g) (cols g)) as Hsub.
  { unfold safe_zone. apply union_subseteq. split.
    - apply singleton_subseteq_l. by apply elem_of_all_positions.
    - apply neighbors_in_bounds. }
  rewrite size_difference by done.
  pose proof (subseteq_size _ _ Hsub) as Hle.
  rewrite size_all_positions in *.
  destruct Hin as [? ?]. lia.
Qed.

(** Every choice of [length l] distinct elements of the pool is the
    outcome of the sampling in some world: the model leaves out no outcome
    of [random.sample]. *)
Lemma choose_distinct_complete {A} (pool l : list A) ck :
  NoDup l → l ⊆ pool →
  ∃ e w', choose_distinct pool (length l) (mkWorld e ck) = Done (l, w').
Proof.
  revert pool. induction l as [|x l IH]; intros pool Hnd Hsub.
  - exists [], (mkWorld [] ck). reflexivity.
  - apply NoDup_cons in Hnd as [Hx Hnd].
    assert (x ∈ pool) as Hin by (apply Hsub; left).
    apply list_elem_of_lookup_1 in Hin as [j Hj].
    pose proof (lookup_lt_Some _ _ _ Hj) as Hlt.
    destruct (IH (delete j pool) Hnd) as (e & w' & Hrun).
    { intros y Hy. assert (y ∈ pool) as Hyp by (apply Hsub; by right).
      rewrite (delete_Permutation pool j x Hj) in Hyp.
      apply elem_of_cons in Hyp as [->|?]; done. }
    exists (j :: e), w'. cbn [length choose_distinct].
    apply bind_Done. exists j, (mkWorld e ck). split.
    + unfold randbelow. cbn [entropy clock hd tl].
      by rewrite Nat.mod_small.
    + rewrite Hj. apply bind_Done. exists l, w'. by split.
Qed.

(** Every set of the right size within the available cells is the mine
    set in some world. *)
Lemma initialize_mines_any_placement first_click g (S : gset Position) ck :
  0 ≤ total_mines g →
  S ⊆ available g first_click →
  Z.of_nat (size S)
  = Z.min (total_mines g) (Z.of_nat (size (available g first_click))) →
  ∃ e g' w',
    initialize_mines first_click g (mkWorld e ck) = Done (g', w')
    ∧ mines g' = S.
Proof.
  intros Hm Hsub Hsize.
  destruct (choose_distinct_complete (elements (available g first_click))
              (elements S) ck (NoDup_elements S)) as (e & w1 & Hrun).
  { intros x Hx. apply elem_of_elements, Hsub. by apply elem_of_elements. }
  exists e. eexists _, _. split.
  - unfold initialize_mines. apply bind_Done. exists (elements S), w1. split.
    + unfold random_sample. rewrite decide_True.
      * rewrite <- Hsize. rewrite Nat2Z.id. exact Hrun.
      * assert (length (elements (available g first_click))
                = size (available g first_click)) as -> by done.
        lia.
    + apply bind_Done. eexists _, _. split; [apply time_time_Done|].
      reflexivity.
  - cbn [mines set_start_time set_state _cache_adjacent_counts
         set_adjacent_cache set_mines].
    apply list_to_set_elements_L.
Qed.

(** ** The flood fill *)

Lemma flood_fill_unfold fuel W g :
  flood_fill fuel W g =
  if decide (W = ∅) then mret g
  else match fuel with
       | O => out_of_fuel
       | S fuel' =>
           current ← set_pop W;
           let '(W', g') := flood_step current W g in
           flood_fill fuel' W' g'
       end.
Proof. by destruct fuel. Qed.

(** Whatever one turn preserves holds when the loop is left. *)
Lemma flood_fill_invariant (I : gset Position → MinesweeperGame → Prop) :
  (∀ W g current, I W g → current ∈ W →
     I (flood_step current W g).1 (flood_step current W g).2) →
  ∀ fuel W g w g' w',
    I W g → flood_fill fuel W g w = Done (g', w') → I ∅ g'.
Proof.
  intros Hstep fuel. induction fuel as [|fuel IH]; intros W g w g' w' HI Hrun;
    rewrite flood_fill_unfold in Hrun;
    destruct (decide (W = ∅)) as [->|Hne];
    try (apply ret_Done in Hrun as [= <- <-]; done); [done|].
  apply bind_Done in Hrun as (current & w1 & Hpop & Hrun).
  apply set_pop_elem_of in Hpop as [Hcur _].
  specialize (Hstep W g current HI Hcur).
  destruct (flood_step current W g) as [W1 g1]. eauto.
Qed.

Lemma flood_fill_clock fuel W g w g' w' :
  flood_fill fuel W g w = Done (g', w') → clock w' = clock w.
Proof.
  revert W g w. induction fuel as [|fuel IH]; intros W g w Hrun;
    rewrite flood_fill_unfold in Hrun;
    destruct (decide (W = ∅)) as [->|Hne];
    try (apply ret_Done in Hrun as [= <- <-]; done); [done|].
  apply bind_Done in Hrun as (current & w1 & Hpop & Hrun).
  apply set_pop_elem_of in Hpop as [_ Hck].
  destruct (flood_step current W g) as [W1 g1].
  rewrite <- Hck. eauto.
Qed.

Lemma size_remove (W : gset Position) x :
  x ∈ W → (size (W ∖ {[x]}) + 1 = size W)%nat.
Proof.
  intros Hx. rewrite <- (size_singleton (C:=gset Position) x).
  rewrite <- size_union.
  - f_equal. apply set_eq. intros y.
    rewrite elem_of_union, elem_of_difference, elem_of_singleton.
    destruct (decide (y = x)); naive_solver.
  - intros y. rewrite elem_of_difference. tauto.
Qed.

Lemma size_union_le (W N : gset Position) :
  (size (W ∪ N) ≤ size W + size N)%nat.
Proof.
  rewrite size_union_alt.
  assert (size (N ∖ W) ≤ size N)%nat; [|lia].
  apply subseteq_size. intros y. rewrite elem_of_difference. tauto.
Qed.

Lemma size_shrink (U W W' N R : gset Position) x :
  x ∈ W → x ∉ R → N ⊆ U → W' ⊆ W ∖ {[x]} ∪ N →
  (size ((U ∪ W') ∖ ({[x]} ∪ R)) + 1 ≤ size ((U ∪ W) ∖ R))%nat.
Proof.
  intros Hx HR HN HW'.
  rewrite <- (size_remove ((U ∪ W) ∖ R) x).
  2:{ rewrite elem_of_difference, elem_of_union. tauto. }
  apply Nat.add_le_mono_r, subseteq_size.
  intros y. rewrite !elem_of_difference, !elem_of_union, elem_of_singleton.
  intros [[Hy|Hy] Hn]; (split; [split|]; [| tauto | tauto]).
  - by left.
  - apply HW' in Hy. rewrite elem_of_union, elem_of_difference in Hy.
    destruct Hy as [[? _]|?]; [by right|left; by apply HN].
Qed.

Lemma flood_step_seen current W g :
  current ∈ revealed g → flood_step current W g = (W ∖ {[current]}, g).
Proof. intros Hr. unfold flood_step. by rewrite decide_True. Qed.

Lemma flood_step_fresh current W g :
  current ∉ revealed g →
  flood_step current W g
  = (W ∖ {[current]} ∪ enqueued current g, reveal_one current g).
Proof.
  intros Hr. unfold flood_step, enqueued. rewrite decide_False by done.
  change (cached_count (set_cell_states _ _) current)
    with (cached_count g current).
  destruct (decide (cached_count g current = 0%nat)).
  - reflexivity.
  - by rewrite union_empty_r_L.
Qed.

Lemma enqueued_neighbors current g :
  enqueued current g ⊆ neighbors current (rows g) (cols g).
Proof.
  unfold enqueued. destruct (decide _); [|apply empty_subseteq].
  intros y. rewrite !elem_of_difference. tauto.
Qed.

Lemma flood_step_bound W g current :
  current ∈ W →
  (flood_bound (flood_step current W g).1 (flood_step current W g).2
   < flood_bound W g)%nat.
Proof.
  intros Hcur. pose proof (size_remove W current Hcur) as HW.
  destruct (decide (current ∈ revealed g)) as [Hr|Hr].
  - rewrite flood_step_seen by done. unfold flood_bound. fields.
    assert (size ((all_positions (rows g) (cols g) ∪ W ∖ {[current]})
                    ∖ revealed g)
            ≤ size ((all_positions (rows g) (cols g) ∪ W) ∖ revealed g))%nat.
    { apply subseteq_size. intros y.
      rewrite !elem_of_difference, !elem_of_union, elem_of_difference. tauto. }
    lia.
  - rewrite flood_step_fresh by done. unfold flood_bound. fields.
    pose proof (enqueued_neighbors current g) as HNn.
    assert (enqueued current g ⊆ all_positions (rows g) (cols g)) as HNU.
    { etrans; [exact HNn|apply neighbors_in_bounds]. }
    assert (size (enqueued current g) ≤ 9)%nat as HN.
    { etrans; [|apply (size_neighbors_le current (rows g) (cols g))].
      by apply subseteq_size. }
    pose proof (size_shrink _ W (W ∖ {[current]} ∪ enqueued current g) _
                  (revealed g) current Hcur Hr HNU (reflexivity _)).
    pose proof (size_union_le (W ∖ {[current]}) (enqueued current g)).
    lia.
Qed.

(** The loop always ends: [flood_bound] turns are enough, for every
    worklist, engine and order of [pop]. *)
Lemma flood_fill_terminates fuel W g w :
  (flood_bound W g ≤ fuel)%nat →
  ∃ g' w', flood_fill fuel W g w = Done (g', w').
Proof.
  revert W g w. induction fuel as [|fuel IH]; intros W g w Hfuel;
    rewrite flood_fill_unfold;
    (destruct (decide (W = ∅)) as [->|Hne]; [eexists _, _; reflexivity|]).
  - exfalso. unfold flood_bound in Hfuel.
    assert (size W ≠ 0%nat); [|lia].
    rewrite size_non_empty_iff. by intros ?%leibniz_equiv.
  - destruct (set_pop_Done W w Hne) as (current & w1 & Hpop).
    pose proof (set_pop_elem_of _ _ _ _ Hpop) as [Hcur _].
    pose proof (flood_step_bound W g current Hcur) as Hlt.
    destruct (flood_step current W g) as [W1 g1] eqn:Hstep;
      cbn [fst snd] in Hlt.
    destruct (IH W1 g1 w1) as (g' & w' & Hrun); [lia|].
    exists g', w'. apply bind_Done. exists current, w1.
    split; [done|]. by rewrite Hstep.
Qed.

Lemma elem_of_enqueued n current g :
  n ∈ enqueued current g ↔
  cached_count g current = 0%nat
  ∧ n ∈ neighbors current (rows g) (cols g)
  ∧ (n ∉ revealed g) ∧ (n ∉ flags g).
Proof.
  unfold enqueued. destruct (decide (cached_count g current = 0%nat)).
  - rewrite !elem_of_difference, elem_of_union, elem_of_singleton.
    pose proof (not_elem_of_neighbors_self current (rows g) (cols g)).
    split; [tauto|]. intros (_ & Hn & ? & ?). split_and!; try done.
    intros [->|?]; done.
  - rewrite elem_of_empty. tauto.
Qed.

Lemma same_frame_refl g : same_frame g g.
Proof. by repeat split. Qed.

Lemma same_frame_cached_count g g' c :
  same_frame g g' → cached_count g' c = cached_count g c.
Proof. intros (_&_&_&_&_&_&_&_&Hc). unfold cached_count. by rewrite Hc. Qed.

Lemma flood_reach_fresh g pos c :
  pos ∉ revealed g → flood_reach g pos c → c ∉ revealed g.
Proof. intros Hpos Hc. by destruct Hc. Qed.

Lemma flood_reach_unflagged g pos c :
  pos ∉ flags g → flood_reach g pos c → c ∉ flags g.
Proof. intros Hpos Hc. by destruct Hc. Qed.

Lemma flood_inv_start g0 pos : pos ∉ revealed g0 → flood_inv g0 pos {[pos]} g0.
Proof.
  intros Hpos. unfold flood_inv. split_and!.
  - apply same_frame_refl.
  - intros x ->%elem_of_singleton. done.
  - done.
  - auto.
  - intros c ->%elem_of_singleton. constructor.
  - apply elem_of_union_r. by apply elem_of_singleton.
  - intros c n Hc Hn. done.
  - done.
  - intros p Hp Hn. done.
Qed.

Lemma flood_inv_step g0 pos W g current :
  pos ∉ revealed g0 →
  flood_inv g0 pos W g → current ∈ W →
  flood_inv g0 pos (flood_step current W g).1 (flood_step current W g).2.
Proof.
  intros Hpos (Hfr & Hdisj & Hmono & Hsound & HW & Hposin & Hclosed
               & Hcells & Hrev) Hcur.
  assert (current ∉ revealed g) as Hfresh.
  { intros Hin. by apply (Hdisj current). }
  rewrite flood_step_fresh by done. cbn [fst snd].
  pose proof Hfr as (Hrows & Hcols & _ & _ & _ & _ & _ & Hflags & _).
  assert (∀ n, n ∈ enqueued current g ↔
               cached_count g0 current = 0%nat
               ∧ n ∈ neighbors current (rows g0) (cols g0)
               ∧ (n ∉ revealed g) ∧ (n ∉ flags g0)) as Henq.
  { intros n. rewrite elem_of_enqueued.
    by rewrite (same_frame_cached_count g0 g), Hrows, Hcols, Hflags. }
  assert (∀ x, x ∈ revealed (reveal_one current g)
               ↔ x = current ∨ x ∈ revealed g) as Hrev'.
  { intros x. unfold reveal_one. fields.
    by rewrite elem_of_union, elem_of_singleton. }
  unfold flood_inv. split_and!.
  - destruct Hfr as (?&?&?&?&?&?&?&?&?). unfold reveal_one, same_frame.
    fields. done.
  - intros x Hx Hx'. apply Hrev' in Hx'.
    apply elem_of_union in Hx as [Hx|Hx].
    + apply elem_of_difference in Hx as [Hx Hne].
      rewrite elem_of_singleton in Hne.
      destruct Hx' as [->|Hx']; [done|]. by apply (Hdisj x).
    + apply Henq in Hx as (_ & Hnb & Hnr & _).
      destruct Hx' as [->|Hx']; [|done].
      by apply not_elem_of_neighbors_self in Hnb.
  - intros x Hx. apply Hrev'. right. by apply Hmono.
  - intros c Hc. apply Hrev' in Hc as [->|Hc]; [right; by apply HW|auto].
  - intros c Hc. apply elem_of_union in Hc as [Hc|Hc].
    + apply elem_of_difference in Hc as [Hc _]. by apply HW.
    + apply Henq in Hc as (Hz & Hnb & Hnr & Hnf).
      apply (flood_reach_step g0 pos current c); auto.
  - apply elem_of_union in Hposin as [Hp|Hp].
    + apply elem_of_union_l, Hrev'. by right.
    + destruct (decide (pos = current)) as [->|Hne].
      * apply elem_of_union_l, Hrev'. by left.
      * apply elem_of_union_r, elem_of_union_l, elem_of_difference.
        by rewrite elem_of_singleton.
  - intros c n Hc Hc0 Hz Hnb Hn0 Hnf.
    destruct (decide (n ∈ revealed g)) as [Hnr|Hnr].
    { apply elem_of_union_l, Hrev'. by right. }
    destruct (decide (n = current)) as [->|Hne].
    { apply elem_of_union_l, Hrev'. by left. }
    apply elem_of_union_r. apply Hrev' in Hc as [->|Hc].
    + apply elem_of_union_r, Henq. done.
    + specialize (Hclosed c n Hc Hc0 Hz Hnb Hn0 Hnf).
      apply elem_of_union in Hclosed as [?|?]; [done|].
      apply elem_of_union_l, elem_of_difference.
      by rewrite elem_of_singleton.
  - intros p Hp. unfold reveal_one. fields.
    assert (p ≠ current ∧ p ∉ revealed g) as [Hne Hpr].
    { split; intros ?; apply Hp, Hrev'; auto. }
    rewrite lookup_insert_ne by done. by apply Hcells.
  - intros p Hp Hp0. unfold reveal_one. fields.
    destruct (decide (p = current)) as [->|Hne].
    + by rewrite lookup_insert_eq.
    + rewrite lookup_insert_ne by done. apply Hrev; [|done].
      apply Hrev' in Hp as [?|?]; done.
Qed.

(** What the loop leaves behind when it is run from [{pos}] on [g0]. *)
Lemma flood_fill_result g0 pos fuel w g' w' :
  pos ∉ revealed g0 →
  flood_fill fuel {[pos]} g0 w = Done (g', w') →
  same_frame g0 g'
  ∧ (∀ c, c ∈ revealed g' ↔ c ∈ revealed g0 ∨ flood_reach g0 pos c)
  ∧ (∀ p, p ∉ revealed g' → cell_states g' !! p = cell_states g0 !! p)
  ∧ (∀ p, p ∈ revealed g' → p ∉ revealed g0 →
       cell_states g' !! p = Some REVEALED).
Proof.
  intros Hpos Hrun.
  pose proof (flood_fill_invariant (flood_inv g0 pos)
                (λ W g cur, flood_inv_step g0 pos W g cur Hpos)
                fuel {[pos]} g0 w g' w' (flood_inv_start g0 pos Hpos) Hrun)
    as (Hfr & _ & Hmono & Hsound & _ & Hposin & Hclosed & Hcells & Hrev).
  split_and!; try done.
  intros c. split; [apply Hsound|].
  intros [Hc|Hc]; [by apply Hmono|].
  assert (c ∈ revealed g' ∧ c ∉ revealed g0) as [? _]; [|done].
  induction Hc as [|c n Hc [IH1 IH2] Hz Hnb Hn0 Hnf].
  - split; [|done]. apply elem_of_union in Hposin as [?|?]; [done|].
    by apply elem_of_empty in H.
  - split; [|done].
    specialize (Hclosed c n IH1 IH2 Hz Hnb Hn0 Hnf).
    apply elem_of_union in Hclosed as [?|?]; [done|].
    by apply elem_of_empty in H.
Qed.

(** At the top of every turn the worklist holds no revealed cell: the
    cell that [pop] yields is never one that was revealed before. *)
Lemma flood_configs_inv g0 pos W g :
  pos ∉ revealed g0 → flood_configs g0 pos (W, g) → flood_inv g0 pos W g.
Proof.
  intros Hpos Hc. remember (W, g) as cfg eqn:E. revert W g E.
  induction Hc as [|W1 g1 current Hc IH Hcur]; intros W g E.
  - injection E as <- <-. by apply flood_inv_start.
  - specialize (IH W1 g1 eq_refl).
    pose proof (flood_inv_step g0 pos W1 g1 current Hpos IH Hcur) as Hs.
    rewrite E in Hs. exact Hs.
Qed.

(** ** [reveal_cell], case by case *)

Lemma reveal_cell_inv pos g w b g' w' :
  reveal_cell pos g w = Done (b, g', w') →
  ∃ g1 w1,
    ((state g = READY ∧ initialize_mines pos g w = Done (g1, w1))
     ∨ (state g ≠ READY ∧ g1 = g ∧ w1 = w))
    ∧ ((blocked g1 pos ∧ b = false ∧ g' = g1 ∧ w' = w1)
       ∨ (¬ blocked g1 pos ∧ pos ∈ mines g1 ∧ b = false
          ∧ g' = lose (hd 0 (clock w1)) g1 ∧ clock w' = tl (clock w1))
       ∨ (¬ blocked g1 pos ∧ (pos ∉ mines g1) ∧ b = true
          ∧ ∃ g2 w2,
              flood_fill (flood_bound {[pos]} g1) {[pos]} g1 w1
              = Done (g2, w2)
              ∧ ((win_condition g2 ∧ g' = win (hd 0 (clock w2)) g2
                  ∧ clock w' = tl (clock w2))
                 ∨ (¬ win_condition g2 ∧ g' = g2 ∧ w' = w2)))).
Proof.
  unfold reveal_cell. intros H.
  apply bind_Done in H as (g1 & w1 & Hinit & H).
  exists g1, w1. split.
  { destruct (decide (state g = READY)) as [Hs|Hs]; [by left|].
    apply ret_Done in Hinit as [= <- <-]. by right. }
  destruct (decide (blocked g1 pos)) as [Hb|Hb].
  { apply ret_Done in H as [= -> -> ->]. by left. }
  right. destruct (decide (pos ∈ mines g1)) as [Hm|Hm].
  { left. apply bind_Done in H as (t & w2 & Ht & H).
    rewrite time_time_Done in Ht. injection Ht as <- <-.
    apply ret_Done in H as [= -> -> ->]. done. }
  right. apply bind_Done in H as (g2 & w2 & Hfill & H).
  split_and!; try done.
  - destruct (decide (win_condition g2));
      [apply bind_Done in H as (t & w3 & _ & H)|];
      by apply ret_Done in H as [= -> _ _].
  - exists g2, w2. split; [done|].
    destruct (decide (win_condition g2)) as [Hw|Hw].
    + left. apply bind_Done in H as (t & w3 & Ht & H).
      rewrite time_time_Done in Ht. injection Ht as <- <-.
      apply ret_Done in H as [= _ -> ->]. done.
    + right. apply ret_Done in H as [= _ -> ->]. done.
Qed.

(** [reveal_cell] returns, in every world, unless the mine count is
    negative on a first reveal. *)
Lemma reveal_cell_Done pos g w :
  (state g = READY → 0 ≤ total_mines g) →
  ∃ b g' w', reveal_cell pos g w = Done (b, g', w').
Proof.
  intros Hm. unfold reveal_cell.
  assert (∃ g1 w1, (if decide (state g = READY)
                    then initialize_mines pos g else mret g) w
                   = Done (g1, w1)) as (g1 & w1 & Hinit).
  { destruct (decide (state g = READY)) as [Hs|Hs].
    - destruct (initialize_mines_Done pos g w (Hm Hs)) as (g1 & w1 & ? & _).
      eauto.
    - by eexists _, _. }
  destruct (decide (blocked g1 pos)) as [Hb|Hb] eqn:Eb.
  { exists false, g1, w1. apply bind_Done. exists g1, w1.
    split; [done|]. by rewrite Eb. }
  destruct (decide (pos ∈ mines g1)) as [Hmine|Hmine] eqn:Em.
  { eexists false, _, _. apply bind_Done. exists g1, w1.
    split; [done|]. rewrite Eb, Em. reflexivity. }
  destruct (flood_fill_terminates (flood_bound {[pos]} g1) {[pos]} g1 w1)
    as (g2 & w2 & Hfill); [done|].
  destruct (decide (win_condition g2)) as [Hw|Hw] eqn:Ew.
  - eexists true, _, _. apply bind_Done. exists g1, w1.
    split; [done|]. rewrite Eb, Em. apply bind_Done. exists g2, w2.
    split; [done|]. rewrite Ew. reflexivity.
  - exists true, g2, w2. apply bind_Done. exists g1, w1.
    split; [done|]. rewrite Eb, Em. apply bind_Done. exists g2, w2.
    split; [done|]. by rewrite Ew.
Qed.

(** ** Invariants of a session *)

Lemma same_config_refl g : same_config g g.
Proof. by repeat split. Qed.

Lemma same_config_trans g1 g2 g3 :
  same_config g1 g2 → same_config g2 g3 → same_config g1 g3.
Proof. intros (?&?&?) (?&?&?). repeat split; congruence. Qed.

Lemma available_config g g' first_click :
  same_config g g' → available g' first_click = available g first_click.
Proof.
  intros (Hr & Hc & _). unfold available, safe_zone. by rewrite Hr, Hc.
Qed.

Lemma available_in_bounds g first_click :
  available g first_click ⊆ all_positions (rows g) (cols g).
Proof. unfold available. intros x. rewrite elem_of_difference. tauto. Qed.

Lemma session_inv_new_game r c m : session_inv (new_game r c m).
Proof.
  unfold session_inv. fields. by split_and!.
Qed.

Lemma session_inv_reset g : session_inv (reset g).
Proof.
  unfold session_inv. fields. by split_and!.
Qed.

Lemma session_inv_init pos g w g1 w1 :
  session_inv g → state g = READY →
  initialize_mines pos g w = Done (g1, w1) →
  session_inv g1 ∧ same_config g g1 ∧ state g1 = PLAYING
  ∧ revealed g1 = ∅ ∧ flags g1 = ∅.
Proof.
  intros (_ & Hready & _) Hs Hinit.
  destruct (Hready Hs) as (_ & Hrev & Hfl & Hcs).
  apply initialize_mines_inv in Hinit
    as (Hm & (Hr & Hc & Ht & Hst & _ & Hcs' & Hrev' & Hfl' & Hsub & Hsz & Hca)
          & _ & _).
  assert (same_config g g1) as Hcfg by done.
  split_and!; try congruence.
  unfold session_inv. rewrite Hst, Hr, Hc, Ht, Hfl', Hrev', Hfl, Hrev.
  split_and!; try done.
  - etrans; [exact Hsub|apply available_in_bounds].
  - intros _. split_and!; [done|done|]. exists pos.
    by rewrite (available_config g g1).
  - intros _. split; [done|]. intros p _. unfold cell_state.
    rewrite Hcs', Hcs, lookup_empty. simpl.
    by rewrite decide_False by apply not_elem_of_empty.
Qed.

Lemma session_inv_lose t g :
  session_inv g → state g ≠ READY → session_inv (lose t g).
Proof.
  intros (Hm & _ & Hplaced & _) Hs. unfold session_inv, lose, available,
    safe_zone. fields. split_and!; try done. intros _. by apply Hplaced.
Qed.

Lemma session_inv_win t g :
  session_inv g → state g ≠ READY → win_condition g →
  session_inv (win t g).
Proof.
  intros (Hm & _ & Hplaced & _) Hs Hw. unfold session_inv, win, available,
    safe_zone, win_condition. fields. split_and!; try done.
  intros _. by apply Hplaced.
Qed.

Lemma session_inv_flood pos g fuel w g2 w2 :
  session_inv g → state g = PLAYING →
  pos ∉ revealed g → pos ∉ flags g →
  flood_fill fuel {[pos]} g w = Done (g2, w2) →
  session_inv g2 ∧ same_config g g2 ∧ state g2 = PLAYING.
Proof.
  intros (Hm & _ & Hplaced & Hplay & _) Hs Hpr Hpf Hfill.
  destruct (flood_fill_result g pos fuel w g2 w2 Hpr Hfill)
    as ((Hr & Hc & Ht & Hst & _ & _ & Hmi & Hfl & Hca) & Hrev & Hcells & _).
  assert (same_config g g2) as Hcfg by done.
  split_and!; try congruence.
  unfold session_inv. rewrite Hr, Hc, Ht, Hst, Hmi, Hfl, Hca.
  split_and!; try done; try congruence.
  - intros _. destruct Hplaced as (? & ? & fc & ? & ?); [congruence|].
    split_and!; [done|done|]. exists fc.
    by rewrite (available_config g g2).
  - intros _. destruct (Hplay Hs) as [Hdisj Hcell]. split.
    + intros x Hx Hx'. apply Hrev in Hx' as [Hx'|Hx'].
      * by apply (Hdisj x).
      * by apply (flood_reach_unflagged g pos x).
    + intros p Hp. unfold cell_state. rewrite Hcells by done.
      apply Hcell. intros Hin. apply Hp, Hrev. by left.
Qed.

Lemma not_blocked g pos :
  ¬ blocked g pos → state g ≠ READY →
  state g = PLAYING ∧ (pos ∉ revealed g) ∧ (pos ∉ flags g).
Proof.
  intros Hnb Hs. split_and!.
  - destruct (decide (state g = PLAYING)); [done|].
    exfalso. apply Hnb. by left.
  - intros ?. apply Hnb. right. by left.
  - intros ?. apply Hnb. right. by right.
Qed.

Lemma session_inv_reveal pos g w b g' w' :
  session_inv g → reveal_cell pos g w = Done (b, g', w') →
  session_inv g' ∧ same_config g g'.
Proof.
  intros Hinv Hrun.
  apply reveal_cell_inv in Hrun as (g1 & w1 & Hstage1 & Hstage2).
  assert (session_inv g1 ∧ same_config g g1 ∧ state g1 ≠ READY)
    as (Hinv1 & Hcfg1 & Hs1).
  { destruct Hstage1 as [[Hs Hinit]|(Hs & -> & ->)].
    - destruct (session_inv_init pos g w g1 w1 Hinv Hs Hinit)
        as (? & ? & Hst & _). split_and!; try done. by rewrite Hst.
    - split_and!; done || apply same_config_refl. }
  destruct Hstage2 as [(_ & _ & -> & _)|[(_ & _ & _ & -> & _)|
    (Hnb & _ & _ & g2 & w2 & Hfill & Hend)]].
  - done.
  - split; [by apply session_inv_lose|].
    eapply same_config_trans; [done|]. by repeat split.
  - destruct (not_blocked g1 pos Hnb Hs1) as (Hs & Hpr & Hpf).
    destruct (session_inv_flood pos g1 _ w1 g2 w2 Hinv1 Hs Hpr Hpf Hfill)
      as (Hinv2 & Hcfg2 & Hs2).
    destruct Hend as [(Hw & -> & _)|(_ & -> & _)].
    + split; [apply session_inv_win; [done|by rewrite Hs2|done]|].
      eapply same_config_trans; [done|].
      eapply same_config_trans; [done|]. by repeat split.
    + split; [done|]. by eapply same_config_trans.
Qed.

Lemma session_inv_toggle pos g :
  session_inv g → session_inv (toggle_flag pos g).
Proof.
  intros Hinv. unfold toggle_flag.
  destruct (decide (pos ∈ revealed g ∨ state g ≠ PLAYING)) as [|Hg];
    [done|].
  assert ((pos ∉ revealed g) ∧ state g = PLAYING) as [Hpr Hs].
  { split; [tauto|]. destruct (decide (state g = PLAYING)); tauto. }
  destruct Hinv as (Hm & _ & Hplaced & Hplay & _).
  destruct (Hplay Hs) as [Hdisj Hcell].
  unfold session_inv, available, safe_zone. fields. rewrite Hs.
  split_and!; try done.
  - intros _. apply Hplaced. by rewrite Hs.
  - intros _. split.
    + intros x Hx Hx'. unfold sym_diff in Hx.
      rewrite elem_of_union, !elem_of_difference, elem_of_singleton in Hx.
      destruct Hx as [[Hx _]|[-> _]]; [by apply (Hdisj x)|done].
    + intros p Hp. unfold cell_state. fields.
      destruct (decide (p = pos)) as [->|Hne].
      * by rewrite lookup_insert_eq.
      * rewrite lookup_insert_ne by done. fold (cell_state g p).
        rewrite (Hcell p Hp). apply decide_ext. unfold sym_diff.
        rewrite elem_of_union, !elem_of_difference, elem_of_singleton.
        tauto.
Qed.

Lemma reveal_all_preserves (P : Position → Prop)
    (I : MinesweeperGame → Prop) :
  (∀ p g w b g' w',
     P p → I g → reveal_cell p g w = Done (b, g', w') → I g') →
  ∀ ns g w b g' w',
    Forall P ns → I g → reveal_all ns g w = Done (b, g', w') → I g'.
Proof.
  intros Hreveal ns. induction ns as [|n ns IH]; intros g w b g' w' HP HI H.
  - apply ret_Done in H as [= _ -> _]. done.
  - apply Forall_cons in HP as [Hn HP]. cbn [reveal_all] in H.
    apply bind_Done in H as ([b1 g1] & w1 & Hrun & H). cbn [fst snd] in H.
    pose proof (Hreveal n g w b1 g1 w1 Hn HI Hrun) as HI1.
    destruct b1.
    + by apply (IH g1 w1 b g' w').
    + apply ret_Done in H as [= _ -> _]. done.
Qed.

Lemma set_iter_spec s w :
  ∃ ns w', set_iter s w = Done (ns, w')
    ∧ clock w' = clock w ∧ NoDup ns ∧ ∀ x, x ∈ ns ↔ x ∈ s.
Proof.
  unfold set_iter.
  destruct (choose_distinct_spec (elements s) (size s) w)
    as (ns & w' & Hrun & Hck & Hsub & Hnd & Hlen).
  exists ns, w'. specialize (Hnd (NoDup_elements s)).
  specialize (Hlen (Nat.le_refl _)).
  split_and!; try done.
  intros x. rewrite <- elem_of_elements. split; [apply Hsub|].
  assert (ns ≡ₚ elements s) as ->; [|done].
  apply submseteq_length_Permutation.
  - by apply NoDup_submseteq.
  - unfold size, set_size in Hlen. simpl in Hlen. lia.
Qed.

Lemma auto_reveal_preserves (P : Position → Prop)
    (I : MinesweeperGame → Prop) pos g w b g' w' :
  (∀ p g w b g' w',
     P p → I g → reveal_cell p g w = Done (b, g', w') → I g') →
  (∀ n, n ∈ neighbors pos (rows g) (cols g) → P n) →
  I g → auto_reveal_neighbors pos g w = Done (b, g', w') → I g'.
Proof.
  intros Hreveal Hnb HI H. unfold auto_reveal_neighbors in H.
  destruct (decide (pos ∉ revealed g ∨ state g ≠ PLAYING)).
  { apply ret_Done in H as [= _ -> _]. done. }
  destruct (decide _) in H.
  2:{ apply ret_Done in H as [= _ -> _]. done. }
  apply bind_Done in H as (ns & w1 & Hiter & H).
  destruct (set_iter_spec
              (neighbors pos (rows g) (cols g) ∖ revealed g ∖ flags g) w)
    as (ns' & w1' & Hiter' & _ & _ & Hns).
  rewrite Hiter' in Hiter. injection Hiter as -> ->.
  eapply (reveal_all_preserves P I Hreveal); [|done|done].
  apply Forall_forall. intros x Hx. apply Hnb.
  apply Hns in Hx. rewrite !elem_of_difference in Hx. tauto.
Qed.

(** An invariant of the four calls is an invariant of every session. *)
Lemma reachable_invariant (P : Position → Prop)
    (I : MinesweeperGame → Prop) g0 :
  I g0 →
  (∀ g, I g → I (reset g)) →
  (∀ p g, P p → I g → I (toggle_flag p g)) →
  (∀ p g w b g' w',
     P p → I g → reveal_cell p g w = Done (b, g', w') → I g') →
  (∀ p n g, I g → P p → n ∈ neighbors p (rows g) (cols g) → P n) →
  ∀ g, reachable P g0 g → I g.
Proof.
  intros H0 Hreset Htoggle Hreveal Hnb g Hreach.
  induction Hreach as [|g o w g' w' _ IH Harg Hrun]; [done|].
  destruct o as [pos|pos|pos|]; cbn [run_op op_arg] in *.
  - apply bind_Done in Hrun as ([b g1] & w1 & Hrun & H).
    apply ret_Done in H as [= -> _]. eauto.
  - apply ret_Done in Hrun as [= -> _]. eauto.
  - apply bind_Done in Hrun as ([b g1] & w1 & Hrun & H).
    apply ret_Done in H as [= -> _].
    eapply (auto_reveal_preserves P I); eauto.
  - apply ret_Done in Hrun as [= -> _]. eauto.
Qed.

Lemma reachable_mono (P Q : Position → Prop) g0 g :
  (∀ p, P p → Q p) → reachable P g0 g → reachable Q g0 g.
Proof.
  intros HPQ Hreach.
  induction Hreach as [|g o w g' w' _ IH Harg Hrun]; [constructor|].
  apply (reachable_call Q g0 g o w g' w'); [done| |done].
  destruct o; cbn [op_arg] in *; auto.
Qed.

Lemma reachable_session_inv P r c m g :
  reachable P (new_game r c m) g →
  same_config (new_game r c m) g ∧ session_inv g.
Proof.
  intros Hreach.
  apply (reachable_mono P any_position) in Hreach; [|done].
  revert g Hreach.
  apply (reachable_invariant any_position
           (λ g, same_config (new_game r c m) g ∧ session_inv g)).
  - split; [apply same_config_refl|apply session_inv_new_game].
  - intros g' [Hc Hi]. split; [|apply session_inv_reset].
    eapply same_config_trans; [done|]. by repeat split.
  - intros p g' _ [Hc Hi]. split; [|by apply session_inv_toggle].
    eapply same_config_trans; [done|]. unfold toggle_flag.
    destruct (decide _); by repeat split.
  - intros p g1 w b g2 w2 _ [Hc Hi] Hrun.
    destruct (session_inv_reveal p g1 w b g2 w2 Hi Hrun). split; [|done].
    by eapply same_config_trans.
  - done.
Qed.

(** ** Sessions whose calls are given positions of the board *)

Lemma adjacent_counts_lookup R C m p :
  in_bounds R C p →
  adjacent_counts R C m !! p = Some (size (neighbors p R C ∩ m)).
Proof.
  intros Hp. unfold adjacent_counts. apply elem_of_list_to_map_1.
  - rewrite <- list_fmap_compose.
    rewrite (list_fmap_ext _ id (all_positions_list R C)) by done.
    rewrite list_fmap_id. apply NoDup_all_positions_list.
  - apply list_elem_of_fmap. exists p. split; [done|].
    apply elem_of_all_positions in Hp. unfold all_positions in Hp.
    by apply elem_of_list_to_set in Hp.
Qed.

Lemma cached_zero_no_mine g c n :
  adjacent_cache g = adjacent_counts (rows g) (cols g) (mines g) →
  in_bounds (rows g) (cols g) c →
  cached_count g c = 0%nat →
  n ∈ neighbors c (rows g) (cols g) → n ∉ mines g.
Proof.
  intros Hca Hc Hz Hn Hmine. unfold cached_count in Hz.
  rewrite Hca, adjacent_counts_lookup in Hz by done. cbn [default] in Hz.
  apply size_empty_iff in Hz. apply (not_elem_of_empty (C:=gset Position) n).
  apply Hz. by apply elem_of_intersection.
Qed.

Lemma flood_reach_safe g pos c :
  adjacent_cache g = adjacent_counts (rows g) (cols g) (mines g) →
  in_bounds (rows g) (cols g) pos → pos ∉ mines g →
  flood_reach g pos c →
  in_bounds (rows g) (cols g) c ∧ c ∉ mines g.
Proof.
  intros Hca Hpos Hpm Hc.
  induction Hc as [|c n Hc [IH1 IH2] Hz Hnb _ _]; [done|]. split.
  - apply elem_of_all_positions. by apply (neighbors_in_bounds c).
  - by apply (cached_zero_no_mine g c n).
Qed.

Lemma board_inv_reveal pos g w b g' w' :
  session_inv g → board_inv g → in_bounds (rows g) (cols g) pos →
  reveal_cell pos g w = Done (b, g', w') → board_inv g'.
Proof.
  intros Hinv Hbd Hpos Hrun.
  apply reveal_cell_inv in Hrun as (g1 & w1 & Hstage1 & Hstage2).
  assert (session_inv g1 ∧ board_inv g1 ∧ same_config g g1
          ∧ state g1 ≠ READY) as (Hinv1 & Hbd1 & (Hr1 & Hc1 & _) & Hs1).
  { destruct Hstage1 as [[Hs Hinit]|(Hs & -> & ->)].
    - destruct (session_inv_init pos g w g1 w1 Hinv Hs Hinit)
        as (? & ? & Hst & Hrev & Hfl).
      split_and!; try done; [|by rewrite Hst].
      unfold board_inv. rewrite Hrev, Hfl.
      split_and!; done || apply empty_subseteq.
    - split_and!; done || apply same_config_refl. }
  rewrite <- Hr1, <- Hc1 in Hpos.
  destruct Hstage2 as [(_ & _ & -> & _)|[(_ & _ & _ & -> & _)|
    (Hnb & Hpm & _ & g2 & w2 & Hfill & Hend)]]; [done|done|].
  destruct (not_blocked g1 pos Hnb Hs1) as (Hs & Hpr & Hpf).
  destruct (session_inv_flood pos g1 _ w1 g2 w2 Hinv1 Hs Hpr Hpf Hfill)
    as (Hinv2 & _ & Hs2).
  destruct (flood_fill_result g1 pos _ w1 g2 w2 Hpr Hfill)
    as ((Hr & Hc & _ & _ & _ & _ & Hmi & Hfl & _) & Hrev & _).
  destruct Hinv1 as (_ & _ & Hplaced & _).
  destruct (Hplaced Hs1) as (_ & Hca & _).
  destruct Hbd1 as (Hrin & Hfin & Hrm & Hfr).
  assert (revealed g2 ⊆ all_positions (rows g2) (cols g2)
          ∧ revealed g2 ## mines g2) as [Hrin2 Hrm2].
  { rewrite Hr, Hc, Hmi. split.
    - intros x Hx. apply Hrev in Hx as [Hx|Hx]; [by apply Hrin|].
      apply elem_of_all_positions.
      by apply (flood_reach_safe g1 pos x).
    - intros x Hx Hx'. apply Hrev in Hx as [Hx|Hx]; [by apply (Hrm x)|].
      by apply (flood_reach_safe g1 pos x) in Hx as [_ Hx]. }
  destruct Hend as [(_ & -> & _)|(_ & -> & _)].
  - unfold board_inv, win. fields.
    split_and!; try done;
      first [by destruct Hinv2 as [? _] | by apply disjoint_sym].
  - unfold board_inv.
    split_and!; try done;
      first [ by rewrite Hr, Hc, Hfl
            | destruct Hinv2 as (_ & _ & _ & Hplay & _);
              by destruct (Hplay Hs2) ].
Qed.

Lemma board_inv_toggle pos g :
  board_inv g → in_bounds (rows g) (cols g) pos →
  board_inv (toggle_flag pos g).
Proof.
  intros (Hrin & Hfin & Hrm & Hfr) Hpos. unfold toggle_flag.
  destruct (decide (pos ∈ revealed g ∨ state g ≠ PLAYING)) as [|Hg];
    [done|].
  unfold board_inv, sym_diff. fields. split_and!; try done.
  - intros x. rewrite elem_of_union, !elem_of_difference, elem_of_singleton.
    intros [[Hx _]|[-> _]]; [by apply Hfin|by apply elem_of_all_positions].
  - intros x. rewrite elem_of_union, !elem_of_difference, elem_of_singleton.
    intros [[Hx _]|[-> _]] Hx'; [by apply (Hfr x)|tauto].
Qed.

Lemma reachable_board_inv r c m g :
  reachable (in_bounds r c) (new_game r c m) g →
  same_config (new_game r c m) g ∧ session_inv g ∧ board_inv g.
Proof.
  apply (reachable_invariant (in_bounds r c)
           (λ g, same_config (new_game r c m) g ∧ session_inv g
                 ∧ board_inv g)).
  - split_and!; [apply same_config_refl|apply session_inv_new_game|].
    unfold board_inv. fields. by split_and!.
  - intros g' (Hc & Hi & Hb). split_and!; [|apply session_inv_reset|].
    + eapply same_config_trans; [done|]. by repeat split.
    + unfold board_inv. fields. by split_and!.
  - intros p g' Hp (Hc & Hi & Hb).
    pose proof Hc as (Hr' & Hc' & _). fields.
    split_and!; [|by apply session_inv_toggle|].
    + eapply same_config_trans; [done|]. unfold toggle_flag.
      destruct (decide _); by repeat split.
    + apply board_inv_toggle; [done|]. by rewrite Hr', Hc'.
  - intros p g1 w b g2 w2 Hp (Hc & Hi & Hb) Hrun.
    pose proof Hc as (Hr' & Hc' & _). fields.
    destruct (session_inv_reveal p g1 w b g2 w2 Hi Hrun).
    split_and!; [by eapply same_config_trans|done|].
    apply (board_inv_reveal p g1 w b g2 w2); [done|done| |done].
    by rewrite Hr', Hc'.
  - intros p n g' ((Hr' & Hc' & _) & _) _ Hn. fields.
    rewrite Hr', Hc' in Hn.
    apply elem_of_all_positions. by apply (neighbors_in_bounds p).
Qed.

Lemma reachable_run_ops (P : Position → Prop) ops g0 g w g' w' :
  reachable P g0 g → Forall (op_arg P) ops →
  run_ops ops g w = Done (g', w') → reachable P g0 g'.
Proof.
  revert g w. induction ops as [|o ops IH]; intros g w Hreach HP Hrun.
  - apply ret_Done in Hrun as [= -> _]. done.
  - apply Forall_cons in HP as [Ho HP]. cbn [run_ops] in Hrun.
    apply bind_Done in Hrun as (g1 & w1 & Hstep & Hrun).
    apply (IH g1 w1); [|done|done].
    by apply (reachable_call P g0 g o w g1 w1).
Qed.

Lemma reset_fresh g :
  reset g = new_game (rows g) (cols g) (total_mines g).
Proof. reflexivity. Qed.

Lemma new_game_fresh r c m :
  new_game r c m
  = new_game (rows (new_game r c m)) (cols (new_game r c m))
      (total_mines (new_game r c m)).
Proof. reflexivity. Qed.

(** [reveal_cell] on an engine of a session, case by case: the early
    return, the mine, the flood fill. *)
Lemma reveal_cell_cases pos g w :
  session_inv g → (state g = READY → 0 ≤ total_mines g) →
  ∃ b g' w',
    reveal_cell pos g w = Done (b, g', w')
    ∧ (((ended g ∨ pos ∈ revealed g ∨ pos ∈ flags g)
        ∧ b = false ∧ g' = g ∧ w' = w)
       ∨ (state g = PLAYING ∧ (pos ∉ revealed g) ∧ (pos ∉ flags g)
          ∧ pos ∈ mines g ∧ b = false
          ∧ g' = lose (hd 0 (clock w)) g ∧ clock w' = tl (clock w))
       ∨ (¬ ended g ∧ (pos ∉ revealed g) ∧ (pos ∉ flags g)
          ∧ (pos ∉ mines g) ∧ b = true
          ∧ ∃ g1 w1 g2 w2,
              ((state g = READY ∧ initialize_mines pos g w = Done (g1, w1))
               ∨ (state g ≠ READY ∧ g1 = g ∧ w1 = w))
              ∧ session_inv g1 ∧ same_config g g1 ∧ state g1 = PLAYING
              ∧ (pos ∉ revealed g1) ∧ (pos ∉ flags g1) ∧ (pos ∉ mines g1)
              ∧ flood_fill (flood_bound {[pos]} g1) {[pos]} g1 w1
                = Done (g2, w2)
              ∧ ((win_condition g2 ∧ g' = win (hd 0 (clock w2)) g2
                  ∧ clock w' = tl (clock w2))
                 ∨ (¬ win_condition g2 ∧ g' = g2 ∧ w' = w2)))).
Proof.
  intros Hinv Hm.
  destruct (reveal_cell_Done pos g w Hm) as (b & g' & w' & Hrun).
  exists b, g', w'. split; [done|].
  apply reveal_cell_inv in Hrun as (g1 & w1 & Hstage1 & Hstage2).
  destruct Hstage1 as [[Hs Hinit]|(Hs & -> & ->)].
  - (* first reveal of the session *)
    destruct (session_inv_init pos g w g1 w1 Hinv Hs Hinit)
      as (Hinv1 & Hcfg & Hs1 & Hrev1 & Hfl1).
    destruct Hinv as (_ & Hready & _).
    destruct (Hready Hs) as (Hmi & Hrev & Hfl & _).
    assert (pos ∉ mines g1) as Hsafe.
    { apply initialize_mines_inv in Hinit
        as (_ & (_&_&_&_&_&_&_&_& Hsub &_) & _).
      intros Hmine. apply Hsub in Hmine. unfold available in Hmine.
      apply elem_of_difference in Hmine as [_ Hmine]. apply Hmine.
      unfold safe_zone. apply elem_of_union_l. by apply elem_of_singleton. }
    assert (¬ blocked g1 pos) as Hnb1.
    { unfold blocked. rewrite Hs1, Hrev1, Hfl1.
      intros [[? _]|[?%elem_of_empty|?%elem_of_empty]]; done. }
    destruct Hstage2 as [(Hb & _)|[(_ & Hmine & _)|
      (_ & _ & -> & g2 & w2 & Hfill & Hend)]]; [done|done|].
    right; right. rewrite Hmi, Hrev, Hfl. unfold ended. rewrite Hs.
    split_and!; try done; try apply not_elem_of_empty.
    { intros [?|?]; done. }
    exists g1, w1, g2, w2. rewrite Hrev1, Hfl1.
    split_and!; try done; try apply not_elem_of_empty. by left.
  - (* later reveals *)
    assert (blocked g pos ↔ ended g ∨ pos ∈ revealed g ∨ pos ∈ flags g)
      as Hblocked.
    { unfold blocked, ended. split.
      - intros [[H1 H2]|H]; [left|by right].
        destruct (state g); [done|done|by left|by right].
      - intros [[E|E]|H]; [left; by rewrite E..|by right]. }
    destruct Hstage2 as [(Hb & -> & -> & ->)|[(Hnb & Hmine & -> & -> & Hck)|
      (Hnb & Hmine & -> & g2 & w2 & Hfill & Hend)]].
    + left. by rewrite <- Hblocked.
    + right; left. destruct (not_blocked g pos Hnb Hs) as (? & ? & ?).
      by split_and!.
    + right; right. destruct (not_blocked g pos Hnb Hs) as (Hp & ? & ?).
      split_and!; try done.
      { unfold ended. rewrite Hp. intros [?|?]; done. }
      exists g, w, g2, w2.
      split_and!; try done; first [by right|apply same_config_refl].
Qed.

(** * The claims *)

(** C1. Safe first click: whatever the board, the mine count (not
    negative), the position of the first click and the draws of the random
    source, [initialize_mines first_click] returns, and afterwards neither
    [first_click] nor any of its neighbours is in the mine set. *)
Theorem safe_first_click g first_click w :
  0 ≤ total_mines g →
  ∃ g' w',
    initialize_mines first_click g w = Done (g', w')
    ∧ (first_click ∉ mines g')
    ∧ ∀ n, n ∈ neighbors first_click (rows g) (cols g) → n ∉ mines g'.
Proof.
  intros Hm.
  destruct (initialize_mines_Done first_click g w Hm)
    as (g' & w' & Hrun & Hplaced & _).
  destruct Hplaced as (_&_&_&_&_&_&_&_& Hsub &_).
  exists g', w'. split; [done|].
  assert (∀ x, x ∈ safe_zone g first_click → x ∉ mines g') as Hsafe.
  { intros x Hx Hmine. apply Hsub in Hmine. unfold available in Hmine.
    apply elem_of_difference in Hmine as [_ Hmine]. done. }
  split.
  - apply Hsafe. unfold safe_zone. apply elem_of_union_l.
    by apply elem_of_singleton.
  - intros n Hn. apply Hsafe. unfold safe_zone. by apply elem_of_union_r.
Qed.

Lemma safe_first_click_witness :
  0 ≤ total_mines (new_game 9 9 10)
  ∧ ∃ g' w',
      initialize_mines (mkPosition 4 4) (new_game 9 9 10)
        (mkWorld [3; 1; 4; 1; 5; 9; 2; 6; 5; 3]%nat [100])
      = Done (g', w')
      ∧ (mkPosition 4 4 ∉ mines g')
      ∧ ∀ n, n ∈ neighbors (mkPosition 4 4) (rows (new_game 9 9 10))
                   (cols (new_game 9 9 10)) → n ∉ mines g'.
Proof.
  split; [fields; lia|]. apply safe_first_click. fields. lia.
Defined.

(** C6. Mine count: for every board, every mine count (not negative) and
    every first click on the board, the number of mines that
    [initialize_mines] places is
    [min(total_mines, rows * cols - len(safe_zone))], the safe zone being
    the clicked cell with its neighbours on the board. *)
Theorem mine_count_placed g first_click w :
  0 ≤ total_mines g →
  in_bounds (rows g) (cols g) first_click →
  ∃ g' w',
    initialize_mines first_click g w = Done (g', w')
    ∧ Z.of_nat (size (mines g'))
      = Z.min (total_mines g)
          (rows g * cols g - Z.of_nat (size (safe_zone g first_click))).
Proof.
  intros Hm Hin.
  destruct (initialize_mines_Done first_click g w Hm)
    as (g' & w' & Hrun & Hplaced & _).
  destruct Hplaced as (_&_&_&_&_&_&_&_&_& Hsize &_).
  exists g', w'. split; [done|].
  by rewrite <- size_available_in_bounds.
Qed.

Lemma mine_count_placed_witness :
  0 ≤ total_mines (new_game 16 30 99)
  ∧ in_bounds (rows (new_game 16 30 99)) (cols (new_game 16 30 99))
      (mkPosition 0 0)
  ∧ ∃ g' w',
      initialize_mines (mkPosition 0 0) (new_game 16 30 99)
        (mkWorld [7; 7; 7]%nat [5])
      = Done (g', w')
      ∧ Z.of_nat (size (mines g'))
        = Z.min (total_mines (new_game 16 30 99))
            (rows (new_game 16 30 99) * cols (new_game 16 30 99)
             - Z.of_nat (size (safe_zone (new_game 16 30 99)
                                 (mkPosition 0 0)))).
Proof.
  assert (in_bounds (rows (new_game 16 30 99)) (cols (new_game 16 30 99))
            (mkPosition 0 0)) as Hin.
  { unfold in_bounds. fields. lia. }
  split_and!; [fields; lia|done|].
  apply mine_count_placed; [fields; lia|done].
Defined.

(** C10. First reveal always succeeds: on a fresh engine, or one that
    was just reset (both are [new_game] of their board and mine count, see
    [new_game_fresh] and [reset_fresh]), with a mine count that is not
    negative, the first [reveal_cell p] returns [True] in every world and
    leaves the state [PLAYING] or [WON], never [LOST].  This holds for
    every position [p], those of the board in particular. *)
Theorem first_reveal_succeeds g p w :
  g = new_game (rows g) (cols g) (total_mines g) →
  0 ≤ total_mines g →
  ∃ g' w',
    reveal_cell p g w = Done (true, g', w')
    ∧ (state g' = PLAYING ∨ state g' = WON).
Proof.
  intros Hfresh Hm.
  assert (session_inv g) as Hinv.
  { rewrite Hfresh. apply session_inv_new_game. }
  assert (state g = READY) as Hs by (by rewrite Hfresh).
  destruct (reveal_cell_cases p g w Hinv (λ _, Hm))
    as (b & g' & w' & Hrun & Hcases).
  destruct Hcases as [([[E|E]|[Hr|Hf]] & _)|[(E & _)|
    (_ & _ & _ & _ & -> & g1 & w1 & g2 & w2 & _ & Hinv1 & _ & Hs1
       & Hpr & Hpf & _ & Hfill & Hend)]]; try congruence.
  - rewrite Hfresh in Hr. by apply elem_of_empty in Hr.
  - rewrite Hfresh in Hf. by apply elem_of_empty in Hf.
  - exists g', w'. split; [done|].
    destruct (session_inv_flood p g1 _ w1 g2 w2 Hinv1 Hs1 Hpr Hpf Hfill)
      as (_ & _ & Hs2).
    destruct Hend as [(_ & -> & _)|(_ & -> & _)]; [by right|by left].
Qed.

Lemma first_reveal_succeeds_witness :
  new_game 9 9 10
  = new_game (rows (new_game 9 9 10)) (cols (new_game 9 9 10))
      (total_mines (new_game 9 9 10))
  ∧ 0 ≤ total_mines (new_game 9 9 10)
  ∧ ∃ g' w',
      reveal_cell (mkPosition 4 4) (new_game 9 9 10)
        (mkWorld [2; 7; 1; 8; 2; 8]%nat [10; 20])
      = Done (true, g', w')
      ∧ (state g' = PLAYING ∨ state g' = WON).
Proof.
  split_and!; [reflexivity|fields; lia|].
  apply first_reveal_succeeds; [reflexivity|fields; lia].
Defined.

(** C4. In every engine of a session (started on a fresh engine whose mine
    count is not negative; any positions), [reveal_cell pos] returns, and
    it returns [False] exactly when (a) the game has ended, or [pos] is
    already revealed, or [pos] is flagged, or (b) [pos] is an unrevealed,
    unflagged mine.  In case (a) the engine (and the world) is left
    unchanged; in case (b) the state becomes [LOST] and the elapsed time is
    frozen at the reading of the clock minus the start time, nothing else
    changing.  When it returns [True], [pos] has been revealed by the
    call. *)
Theorem reveal_cell_false_iff r c m g pos w :
  0 ≤ m →
  reachable any_position (new_game r c m) g →
  ∃ b g' w',
    reveal_cell pos g w = Done (b, g', w')
    ∧ (b = false ↔
         (ended g ∨ pos ∈ revealed g ∨ pos ∈ flags g)
         ∨ (¬ ended g ∧ (pos ∉ revealed g) ∧ (pos ∉ flags g)
            ∧ pos ∈ mines g))
    ∧ (ended g ∨ pos ∈ revealed g ∨ pos ∈ flags g → g' = g ∧ w' = w)
    ∧ (¬ (ended g ∨ pos ∈ revealed g ∨ pos ∈ flags g) → pos ∈ mines g →
         state g' = LOST
         ∧ elapsed_time g' = hd 0 (clock w) - start_time g
         ∧ g' = lose (hd 0 (clock w)) g)
    ∧ (b = true → pos ∈ revealed g' ∧ pos ∉ revealed g).
Proof.
  intros Hm Hreach.
  destruct (reachable_session_inv _ r c m g Hreach) as [(_&_&Ht) Hinv].
  fields.
  destruct (reveal_cell_cases pos g w Hinv) as (b & g' & w' & Hrun & Hcases).
  { intros _. by rewrite Ht. }
  exists b, g', w'. split; [done|].
  destruct Hcases as [(Ha & -> & -> & ->)|[(Hs & Hpr & Hpf & Hmine & -> & -> & _)|
    (Hne & Hpr & Hpf & Hmine & -> & g1 & w1 & g2 & w2 & Hst1 & _ & _ & _
       & Hpr1 & _ & _ & Hfill & Hend)]].
  - split_and!; try done. by split; [left|].
  - assert (¬ ended g) as Hne.
    { unfold ended. rewrite Hs. intros [?|?]; done. }
    assert (¬ (ended g ∨ pos ∈ revealed g ∨ pos ∈ flags g)) as Hna by tauto.
    split_and!; try done.
    + split; [right|]; done.
  - assert (¬ (ended g ∨ pos ∈ revealed g ∨ pos ∈ flags g)) as Hna by tauto.
    split_and!; try done.
    + split; [done|]. intros [?|(_&_&_&?)]; done.
    + intros _. split; [|done].
      destruct (flood_fill_result g1 pos _ w1 g2 w2 Hpr1 Hfill)
        as (_ & Hrev & _).
      assert (pos ∈ revealed g2) as Hin.
      { apply Hrev. right. constructor. }
      by destruct Hend as [(_ & -> & _)|(_ & -> & _)].
Qed.

Lemma reachable_result_game (P : Position → Prop) ops g0 w :
  Forall (op_arg P) ops →
  is_done (run_ops ops g0 w) = true →
  reachable P g0 (result_game g0 (run_ops ops g0 w)).
Proof.
  intros HP Hdone.
  destruct (run_ops ops g0 w) as [[g' w']| |] eqn:Hrun; try discriminate.
  cbn [result_game].
  apply (reachable_run_ops P ops g0 g0 w g' w'); [constructor|done|done].
Qed.

Lemma Done_game_eq (b b' : bool) (g g' : MinesweeperGame) (w w' : World) :
  Done (b, g, w) = Done (b', g', w') → g = g'.
Proof. congruence. Qed.

Lemma call_result_Done d o :
  is_done o = true →
  ∃ w', o = Done ((call_result d o).1, (call_result d o).2, w').
Proof. destruct o as [[[b g] w]| |]; try discriminate. by exists w. Qed.

Lemma chord_demo_reachable :
  reachable (in_bounds 2 8) (new_game 2 8 1) chord_demo.
Proof.
  apply reachable_result_game.
  - repeat (apply Forall_cons; split;
              [unfold op_arg, in_bounds; cbn [row col]; lia|]).
    constructor.
  - vm_compute. reflexivity.
Qed.

Lemma flag_demo_reachable :
  reachable (in_bounds 1 6) (new_game 1 6 1) flag_demo.
Proof.
  apply reachable_result_game.
  - repeat (apply Forall_cons; split;
              [unfold op_arg, in_bounds; cbn [row col]; lia|]).
    constructor.
  - vm_compute. reflexivity.
Qed.

Lemma off_board_demo_reachable :
  reachable any_position (new_game 1 5 1) off_board_demo.
Proof.
  apply reachable_result_game.
  - repeat (apply Forall_cons; split; [exact I|]). constructor.
  - vm_compute. reflexivity.
Qed.

Lemma reveal_cell_false_iff_witness :
  0 ≤ 1
  ∧ reachable any_position (new_game 2 8 1) chord_demo
  ∧ ∃ b g' w',
      reveal_cell (mkPosition 0 5) chord_demo (mkWorld [] [200])
      = Done (b, g', w')
      ∧ (b = false ↔
           (ended chord_demo ∨ mkPosition 0 5 ∈ revealed chord_demo
            ∨ mkPosition 0 5 ∈ flags chord_demo)
           ∨ (¬ ended chord_demo ∧ (mkPosition 0 5 ∉ revealed chord_demo)
              ∧ (mkPosition 0 5 ∉ flags chord_demo)
              ∧ mkPosition 0 5 ∈ mines chord_demo))
      ∧ (ended chord_demo ∨ mkPosition 0 5 ∈ revealed chord_demo
         ∨ mkPosition 0 5 ∈ flags chord_demo →
         g' = chord_demo ∧ w' = mkWorld [] [200])
      ∧ (¬ (ended chord_demo ∨ mkPosition 0 5 ∈ revealed chord_demo
            ∨ mkPosition 0 5 ∈ flags chord_demo) →
         mkPosition 0 5 ∈ mines chord_demo →
         state g' = LOST
         ∧ elapsed_time g'
           = hd 0 (clock (mkWorld [] [200])) - start_time chord_demo
         ∧ g' = lose (hd 0 (clock (mkWorld [] [200]))) chord_demo)
      ∧ (b = true →
         mkPosition 0 5 ∈ revealed g'
         ∧ mkPosition 0 5 ∉ revealed chord_demo).
Proof.
  assert (reachable any_position (new_game 2 8 1) chord_demo) as Hreach.
  { apply (reachable_mono (in_bounds 2 8)); [done|].
    apply chord_demo_reachable. }
  split_and!; [lia|done|].
  apply (reveal_cell_false_iff 2 8 1); [lia|done].
Defined.

Lemma sym_diff_twice (F : gset Position) p :
  sym_diff (sym_diff F {[p]}) {[p]} = F.
Proof.
  apply set_eq. intros x. unfold sym_diff.
  rewrite !elem_of_union, !elem_of_difference, !elem_of_union,
    !elem_of_difference, !elem_of_singleton.
  destruct (decide (x = p)); destruct (decide (x ∈ F)); tauto.
Qed.

Lemma elem_of_sym_diff_singleton (F : gset Position) p :
  p ∈ sym_diff F {[p]} ↔ p ∉ F.
Proof.
  unfold sym_diff.
  rewrite elem_of_union, !elem_of_difference, elem_of_singleton. tauto.
Qed.

(** C7. [toggle_flag] is a no-op when [p] is revealed or the state is not
    [PLAYING]; otherwise one call flips the membership of [p] in the flag
    set, and, in every engine of a session, two calls leave the flag set
    and the cell state of [p] (and of every other cell) as they were
    before the first, the other attributes being untouched. *)
Theorem toggle_flag_twice r c m g p :
  reachable any_position (new_game r c m) g →
  (p ∈ revealed g ∨ state g ≠ PLAYING → toggle_flag p g = g)
  ∧ (state g = PLAYING → p ∉ revealed g →
       (p ∈ flags (toggle_flag p g) ↔ p ∉ flags g)
       ∧ flags (toggle_flag p (toggle_flag p g)) = flags g
       ∧ cell_state (toggle_flag p (toggle_flag p g)) p = cell_state g p
       ∧ (∀ q, cell_state (toggle_flag p (toggle_flag p g)) q
               = cell_state g q)
       ∧ revealed (toggle_flag p (toggle_flag p g)) = revealed g
       ∧ state (toggle_flag p (toggle_flag p g)) = state g
       ∧ mines (toggle_flag p (toggle_flag p g)) = mines g).
Proof.
  intros Hreach. split.
  { intros Hg. unfold toggle_flag. by rewrite decide_True. }
  intros Hs Hpr.
  destruct (reachable_session_inv _ r c m g Hreach)
    as [_ (_ & _ & _ & Hplay & _)].
  destruct (Hplay Hs) as [_ Hcell].
  assert (¬ (p ∈ revealed g ∨ state g ≠ PLAYING)) as Hg by tauto.
  assert (toggle_flag p g
          = set_cell_states
              (<[p := if decide (p ∈ sym_diff (flags g) {[p]})
                      then FLAGGED else HIDDEN]> (cell_states g))
              (set_flags (sym_diff (flags g) {[p]}) g)) as E1.
  { unfold toggle_flag. by rewrite decide_False. }
  assert (∀ q, cell_state (toggle_flag p (toggle_flag p g)) q
               = cell_state g q) as Hcells.
  { intros q. rewrite E1. unfold toggle_flag at 1. fields.
    rewrite decide_False by done. unfold cell_state. fields.
    destruct (decide (q = p)) as [->|Hne].
    - rewrite lookup_insert_eq, sym_diff_twice. cbn [default].
      fold (cell_state g p). by rewrite (Hcell p Hpr).
    - by rewrite !lookup_insert_ne. }
  split_and!; try done.
  - rewrite E1. fields. apply elem_of_sym_diff_singleton.
  - rewrite E1. unfold toggle_flag. fields.
    rewrite decide_False by done. fields. apply sym_diff_twice.
  - rewrite E1. unfold toggle_flag. fields.
    by rewrite decide_False by done.
  - rewrite E1. unfold toggle_flag. fields.
    by rewrite decide_False by done.
  - rewrite E1. unfold toggle_flag. fields.
    by rewrite decide_False by done.
Qed.

Lemma toggle_flag_twice_witness :
  reachable any_position (new_game 2 8 1) chord_demo
  ∧ mkPosition 1 6 ∈ revealed chord_demo
  ∧ toggle_flag (mkPosition 1 6) chord_demo = chord_demo
  ∧ state chord_demo = PLAYING
  ∧ (mkPosition 1 7 ∉ revealed chord_demo)
  ∧ (mkPosition 1 7 ∈ flags (toggle_flag (mkPosition 1 7) chord_demo)
     ↔ mkPosition 1 7 ∉ flags chord_demo)
  ∧ flags (toggle_flag (mkPosition 1 7)
             (toggle_flag (mkPosition 1 7) chord_demo))
    = flags chord_demo
  ∧ cell_state (toggle_flag (mkPosition 1 7)
                  (toggle_flag (mkPosition 1 7) chord_demo))
      (mkPosition 1 7)
    = cell_state chord_demo (mkPosition 1 7).
Proof.
  assert (reachable any_position (new_game 2 8 1) chord_demo) as Hreach.
  { apply (reachable_mono (in_bounds 2 8)); [done|].
    apply chord_demo_reachable. }
  assert (mkPosition 1 6 ∈ revealed chord_demo) as Hrev by decide_by_vm.
  assert (state chord_demo = PLAYING) as Hs by decide_by_vm.
  assert (mkPosition 1 7 ∉ revealed chord_demo) as Hhid by decide_by_vm.
  destruct (toggle_flag_twice 2 8 1 chord_demo (mkPosition 1 6) Hreach)
    as [Hnoop _].
  destruct (toggle_flag_twice 2 8 1 chord_demo (mkPosition 1 7) Hreach)
    as [_ Htwice].
  destruct (Htwice Hs Hhid) as (Hflip & Hflags & Hcell & _).
  split_and!; [exact Hreach|exact Hrev| |exact Hs|exact Hhid|exact Hflip
              |exact Hflags|exact Hcell].
  apply Hnoop. left. exact Hrev.
Defined.

(** C8, as stated, fails: calls may be given positions off the board, and
    a reveal off the board uncovers a mine next to it, which the win then
    flags.  On a 1 x 5 board with its mine at (0, 2): reveal (0, 0), flag
    (0, 3), reveal (-1, 1); the game is won with (0, 2) both flagged and
    revealed. *)
Lemma flags_revealed_overlap_off_board :
  ¬ (∀ r c m g,
       reachable any_position (new_game r c m) g → flags g ## revealed g).
Proof.
  intros H.
  specialize (H 1 5 1 off_board_demo off_board_demo_reachable).
  apply (H (mkPosition 0 2)); decide_by_vm.
Qed.

(** C8, amended. In every engine that a session reaches from a fresh
    engine by calls of [reveal_cell], [toggle_flag],
    [auto_reveal_neighbors] and [reset] whose position arguments are on
    the board, no position is both flagged and revealed. *)
Theorem flags_revealed_disjoint r c m g :
  reachable (in_bounds r c) (new_game r c m) g → flags g ## revealed g.
Proof.
  intros Hreach.
  by destruct (reachable_board_inv r c m g Hreach) as (_ & _ & _ & _ & _ & ?).
Qed.

Lemma flags_revealed_disjoint_witness :
  reachable (in_bounds 2 8) (new_game 2 8 1) chord_demo
  ∧ flags chord_demo ## revealed chord_demo.
Proof.
  split; [apply chord_demo_reachable|].
  apply (flags_revealed_disjoint 2 8 1), chord_demo_reachable.
Defined.

(** C9, as stated, fails: nothing stops a call from being given a
    position off the board, and [reveal_cell] then puts it in the revealed
    set ([toggle_flag], in the flag set). *)
Lemma off_board_position_revealed :
  ¬ (∀ r c m g p,
       reachable any_position (new_game r c m) g →
       p ∈ revealed g ∨ p ∈ flags g → in_bounds r c p).
Proof.
  intros H.
  specialize (H 1 5 1 off_board_demo (mkPosition (-1) 1)
                off_board_demo_reachable).
  assert (mkPosition (-1) 1 ∈ revealed off_board_demo) as Hin
    by decide_by_vm.
  specialize (H (or_introl Hin)). unfold in_bounds in H. cbn [row col] in H.
  lia.
Qed.

(** C9, amended. [Position.neighbors] returns only positions of the board;
    the mine set holds only positions of the board, whatever positions the
    calls are given; and when every call is given a position of the board,
    the revealed set and the flag set hold only positions of the board. *)
Theorem positions_stay_on_board r c m :
  (∀ p n R C, n ∈ neighbors p R C → in_bounds R C n)
  ∧ (∀ g p, reachable any_position (new_game r c m) g →
            p ∈ mines g → in_bounds r c p)
  ∧ (∀ g p, reachable (in_bounds r c) (new_game r c m) g →
            p ∈ revealed g ∨ p ∈ flags g → in_bounds r c p).
Proof.
  split_and!.
  - intros p n R C Hn. by apply elem_of_neighbors in Hn as [? _].
  - intros g p Hreach Hp.
    destruct (reachable_session_inv _ r c m g Hreach)
      as [(Hr & Hc & _) (Hm & _)]. fields.
    apply elem_of_all_positions. rewrite <- Hr, <- Hc. by apply Hm.
  - intros g p Hreach Hp.
    destruct (reachable_board_inv r c m g Hreach)
      as ((Hr & Hc & _) & _ & Hrin & Hfin & _). fields.
    apply elem_of_all_positions. rewrite <- Hr, <- Hc.
    destruct Hp as [Hp|Hp]; [by apply Hrin|by apply Hfin].
Qed.

Lemma positions_stay_on_board_witness :
  mkPosition 0 7 ∈ neighbors (mkPosition 1 6) 2 8
  ∧ in_bounds 2 8 (mkPosition 0 7)
  ∧ reachable (in_bounds 2 8) (new_game 2 8 1) chord_demo
  ∧ mkPosition 0 5 ∈ mines chord_demo
  ∧ in_bounds 2 8 (mkPosition 0 5)
  ∧ mkPosition 1 6 ∈ revealed chord_demo
  ∧ in_bounds 2 8 (mkPosition 1 6).
Proof.
  destruct (positions_stay_on_board 2 8 1) as (H1 & H2 & H3).
  assert (mkPosition 0 7 ∈ neighbors (mkPosition 1 6) 2 8) as Hn
    by decide_by_vm.
  assert (mkPosition 0 5 ∈ mines chord_demo) as Hm by decide_by_vm.
  assert (mkPosition 1 6 ∈ revealed chord_demo) as Hr by decide_by_vm.
  split_and!; [exact Hn| |apply chord_demo_reachable|exact Hm| |exact Hr|].
  - by apply (H1 (mkPosition 1 6)).
  - apply (H2 chord_demo); [|exact Hm].
    apply (reachable_mono (in_bounds 2 8)); [done|].
    apply chord_demo_reachable.
  - apply (H3 chord_demo); [apply chord_demo_reachable|]. left. exact Hr.
Defined.

Lemma size_safe_zone_le g first_click :
  (size (safe_zone g first_click) ≤ 10)%nat.
Proof.
  unfold safe_zone. etrans; [apply size_union_le|].
  rewrite size_singleton.
  pose proof (size_neighbors_le first_click (rows g) (cols g)). lia.
Qed.

Lemma size_available_ge g first_click :
  (size (all_positions (rows g) (cols g))
   ≤ size (available g first_click) + 10)%nat.
Proof.
  pose proof (size_safe_zone_le g first_click) as Hsafe.
  assert (size (all_positions (rows g) (cols g))
          ≤ size (available g first_click ∪ safe_zone g first_click))%nat
    as Hle.
  { apply subseteq_size. intros x Hx. unfold available.
    rewrite elem_of_union, elem_of_difference.
    destruct (decide (x ∈ safe_zone g first_click)); tauto. }
  pose proof (size_union_le (available g first_click)
                (safe_zone g first_click)). lia.
Qed.

Lemma mines_count_beginner g :
  session_inv g → state g ≠ READY →
  rows g = 9 → cols g = 9 → total_mines g = 10 →
  size (mines g) = 10%nat.
Proof.
  intros (_ & _ & Hplaced & _) Hs Hr Hc Ht.
  destruct (Hplaced Hs) as (_ & _ & fc & _ & Hsize).
  pose proof (size_available_ge g fc) as Hge.
  rewrite size_all_positions, Hr, Hc in Hge. lia.
Qed.

Lemma beginner_demo_reachable :
  reachable any_position (new_game 9 9 10) beginner_demo.
Proof.
  apply reachable_result_game.
  - repeat (apply Forall_cons; split; [exact I|]). constructor.
  - vm_compute. reflexivity.
Qed.

(** C2. Win condition.  In every engine of a session (fresh engine with a
    mine count that is not negative), a call of [reveal_cell] returns.  Its
    flood fill runs (the call returns [True]) exactly when the game has not
    ended and [pos] is hidden, carries no flag and is no mine; the fill
    then reveals [pos] and what it reaches from [pos], and the mines stay
    where they are.  The call takes the game to [WON] exactly when its
    flood fill ran and afterwards
    [len(revealed) + len(mines) == rows * cols]; when the fill ran and the
    count is not reached, the state is [PLAYING] and neither the flags nor
    the elapsed time change.  On the transition to [WON] the elapsed time
    is frozen at the reading of the clock minus the start time, and the
    flag set becomes the mine set.  On a 9 x 9 board with 10 mines the
    call wins exactly when its fill ran and leaves 71 cells revealed. *)
Theorem win_exactly_when_count_reached r c m g pos w :
  0 ≤ m →
  reachable any_position (new_game r c m) g →
  ∃ b g' w',
    reveal_cell pos g w = Done (b, g', w')
    ∧ (b = true ↔
         ¬ ended g ∧ (pos ∉ revealed g) ∧ (pos ∉ flags g) ∧ (pos ∉ mines g))
    ∧ (b = true →
         ∃ g1,
           ((state g = READY ∧ mines_placed g pos g1)
            ∨ (state g ≠ READY ∧ g1 = g))
           ∧ mines g' = mines g1
           ∧ ∀ x, x ∈ revealed g' ↔ x ∈ revealed g ∨ flood_reach g1 pos x)
    ∧ ((state g ≠ WON ∧ state g' = WON) ↔
         (b = true
          ∧ Z.of_nat (size (revealed g')) + Z.of_nat (size (mines g'))
            = r * c))
    ∧ (b = true →
       Z.of_nat (size (revealed g')) + Z.of_nat (size (mines g')) ≠ r * c →
         state g' = PLAYING ∧ flags g' = flags g
         ∧ elapsed_time g' = elapsed_time g)
    ∧ (state g ≠ WON → state g' = WON →
         elapsed_time g'
         = hd 0 (if decide (state g = READY) then tl (clock w) else clock w)
           - start_time g'
         ∧ clock w'
           = tl (if decide (state g = READY) then tl (clock w) else clock w)
         ∧ flags g' = mines g')
    ∧ (r = 9 → c = 9 → m = 10 → state g' = WON →
         size (revealed g') = 71%nat)
    ∧ (r = 9 → c = 9 → m = 10 →
         ((state g ≠ WON ∧ state g' = WON) ↔
            (b = true ∧ size (revealed g') = 71%nat))).
Proof.
  intros Hm Hreach.
  destruct (reachable_session_inv _ r c m g Hreach) as [(Hr & Hc & Ht) Hinv].
  fields.
  destruct (reveal_cell_cases pos g w Hinv) as (b & g' & w' & Hrun & Hcases).
  { intros _. by rewrite Ht. }
  exists b, g', w'. split; [done|].
  assert (reachable any_position (new_game r c m) g') as Hreach'.
  { apply (reachable_call _ _ g (Reveal pos) w g' w'); [done|exact I|].
    cbn [run_op]. apply bind_Done. exists (b, g'), w'. by split. }
  destruct (reachable_session_inv _ r c m g' Hreach')
    as [(Hr' & Hc' & Ht') Hinv']. fields.
  assert (r = 9 → c = 9 → m = 10 → state g' ≠ READY →
          size (mines g') = 10%nat) as Hten.
  { intros -> -> -> Hs. by apply mines_count_beginner. }
  assert (r = 9 → c = 9 → m = 10 → state g' = WON →
          size (revealed g') = 71%nat) as Hbeginner.
  { intros -> -> -> Hw.
    assert (size (mines g') = 10%nat) as Hmines.
    { apply Hten; try done. by rewrite Hw. }
    destruct Hinv' as (_ & _ & _ & _ & Hwon).
    specialize (Hwon Hw). unfold win_condition in Hwon.
    rewrite Hr', Hc' in Hwon. lia. }
  assert ((state g ≠ WON ∧ state g' = WON) ↔
            (b = true
             ∧ Z.of_nat (size (revealed g')) + Z.of_nat (size (mines g'))
               = r * c)) as Hiff.
  { destruct Hcases as [(Ha & -> & -> & ->)|[(Hs & _ & _ & _ & -> & -> & _)|
      (Hne & _ & _ & _ & -> & g1 & w1 & g2 & w2 & _ & Hinv1 & _ & Hs1
         & Hpr & Hpf & _ & Hfill & Hend)]].
    - split; [intros [? ?]; done|intros [? _]; done].
    - split; [intros [_ ?]; done|intros [? _]; done].
    - destruct (session_inv_flood pos g1 _ w1 g2 w2 Hinv1 Hs1 Hpr Hpf Hfill)
        as (_ & _ & Hs2).
      assert (state g ≠ WON) as Hnw.
      { intros E. apply Hne. by left. }
      destruct Hend as [(Hw & -> & _)|(Hw & -> & _)].
      + unfold win_condition in Hw. unfold win in *. fields.
        rewrite <- Hr', <- Hc'. by split.
      + unfold win_condition in Hw. rewrite <- Hr', <- Hc'.
        split; [intros [_ E]; congruence|intros [_ E]; done]. }
  split_and!; [| |done| | |done|].
  - destruct Hcases as [(Ha & -> & _)|[(Hs & _ & _ & Hmine & -> & _)|
      (Hne & Hpr & Hpf & Hmine & -> & _)]].
    + split; [done|]. intros (? & ? & ? & _). tauto.
    + split; [done|]. intros (_ & _ & _ & ?). done.
    + done.
  - intros ->.
    destruct Hcases as [(_ & ? & _)|[(_ & _ & _ & _ & ? & _)|
      (_ & _ & _ & _ & _ & g1 & w1 & g2 & w2 & Hst1 & _ & _ & _
         & Hpr1 & _ & _ & Hfill & Hend)]]; [done|done|].
    exists g1.
    destruct (flood_fill_result g1 pos _ w1 g2 w2 Hpr1 Hfill)
      as ((_&_&_&_&_&_& Hmi &_) & Hrev & _).
    assert (revealed g' = revealed g2 ∧ mines g' = mines g2) as [Hr2 Hm2].
    { destruct Hend as [(_ & -> & _)|(_ & -> & _)]; [|done].
      unfold win. by fields. }
    assert (((state g = READY ∧ mines_placed g pos g1)
             ∨ (state g ≠ READY ∧ g1 = g))
            ∧ revealed g1 = revealed g) as [Hg1 Hrg].
    { destruct Hst1 as [[Hs Hinit]|(Hs & -> & _)]; [|by split; [right|]].
      apply initialize_mines_inv in Hinit as (_ & Hplaced & _).
      split; [by left|]. by destruct Hplaced as (_&_&_&_&_&_& ? &_). }
    split_and!; [done|by rewrite Hm2|].
    intros x. by rewrite Hr2, <- Hrg.
  - intros -> Hcount.
    destruct Hcases as [(_ & ? & _)|[(_ & _ & _ & _ & ? & _)|
      (_ & _ & _ & _ & _ & g1 & w1 & g2 & w2 & Hst1 & _ & _ & Hs1
         & Hpr1 & _ & _ & Hfill & Hend)]]; [done|done|].
    destruct (flood_fill_result g1 pos _ w1 g2 w2 Hpr1 Hfill)
      as ((_&_&_& Hst2 &_& Hel2 &_& Hfl2 &_) & _).
    destruct Hend as [(Hw & -> & _)|(_ & -> & _)].
    { exfalso. apply Hcount. unfold win_condition in Hw. unfold win in *.
      fields. by rewrite <- Hr', <- Hc'. }
    rewrite Hst2, Hfl2, Hel2.
    destruct Hst1 as [[Hs Hinit]|(Hs & -> & _)]; [|done].
    apply initialize_mines_inv in Hinit as (_ & Hplaced & _).
    by destruct Hplaced as (_&_&_&_& ? &_&_& ? &_).
  - intros Hnw Hw.
    destruct Hcases as [(Ha & -> & -> & ->)|[(Hs & _ & _ & _ & -> & -> & _)|
      (Hne & _ & _ & _ & -> & g1 & w1 & g2 & w2 & Hst1 & Hinv1 & _ & Hs1
         & Hpr & Hpf & _ & Hfill & Hend)]]; [done|done|].
    destruct (session_inv_flood pos g1 _ w1 g2 w2 Hinv1 Hs1 Hpr Hpf Hfill)
      as (_ & _ & Hs2).
    destruct Hend as [(_ & -> & Hck)|(_ & -> & _)]; [|congruence].
    pose proof (flood_fill_clock _ _ _ _ _ _ Hfill) as Hck2.
    assert (clock w1 = if decide (state g = READY) then tl (clock w)
                       else clock w) as Hck1.
    { destruct Hst1 as [[Hs Hinit]|(Hs & -> & ->)].
      - rewrite decide_True by done.
        by apply initialize_mines_inv in Hinit as (_ & _ & _ & ?).
      - by rewrite decide_False. }
    rewrite <- Hck1, <- Hck2. unfold win. fields. done.
  - intros Er Ec Em. rewrite Hiff. split.
    + intros [Hb Hcount]. split; [done|]. apply Hbeginner; try done.
      by apply Hiff.
    + intros [Hb H71]. split; [done|].
      assert (state g' ≠ READY) as Hs'.
      { destruct Hcases as [(_ & ? & _)|[(_ & _ & _ & _ & ? & _)|
          (_ & _ & _ & _ & _ & g1 & w1 & g2 & w2 & _ & _ & _ & Hs1
             & Hpr1 & _ & _ & Hfill & Hend)]]; [congruence|congruence|].
        destruct (flood_fill_result g1 pos _ w1 g2 w2 Hpr1 Hfill)
          as ((_&_&_& Hst2 &_) & _).
        destruct Hend as [(_ & -> & _)|(_ & -> & _)]; [done|].
        by rewrite Hst2, Hs1. }
      rewrite (Hten Er Ec Em Hs'), H71, Er, Ec. lia.
Qed.

Lemma win_exactly_when_count_reached_witness :
  0 ≤ 10
  ∧ reachable any_position (new_game 9 9 10) beginner_demo
  ∧ state beginner_demo = PLAYING
  ∧ size (revealed beginner_demo) = 70%nat
  ∧ flags beginner_demo = ∅
  ∧ ∃ b g' w',
      reveal_cell (mkPosition 1 0) beginner_demo (mkWorld [] [160])
      = Done (b, g', w')
      ∧ b = true
      ∧ state g' = WON
      ∧ size (revealed g') = 71%nat
      ∧ Z.of_nat (size (revealed g')) + Z.of_nat (size (mines g')) = 9 * 9
      ∧ elapsed_time g' = 160 - start_time g'
      ∧ start_time g' = 100
      ∧ flags g' = mines g'
      ∧ size (flags g') = 10%nat.
Proof.
  assert (0 ≤ 10) as Hm by lia.
  assert (state beginner_demo = PLAYING) as Hs by decide_by_vm.
  assert (size (revealed beginner_demo) = 70%nat) as H70 by decide_by_vm.
  assert (flags beginner_demo = ∅) as Hfl by decide_by_vm.
  assert (¬ ended beginner_demo
          ∧ (mkPosition 1 0 ∉ revealed beginner_demo)
          ∧ (mkPosition 1 0 ∉ flags beginner_demo)
          ∧ (mkPosition 1 0 ∉ mines beginner_demo)) as Hopen by decide_by_vm.
  assert (state beginner_win_call.2 = WON
          ∧ start_time beginner_win_call.2 = 100
          ∧ size (flags beginner_win_call.2) = 10%nat) as Hcall
    by decide_by_vm.
  split_and!; [exact Hm|apply beginner_demo_reachable|exact Hs|exact H70
              |exact Hfl|].
  destruct (win_exactly_when_count_reached 9 9 10 beginner_demo
              (mkPosition 1 0) (mkWorld [] [160]) Hm beginner_demo_reachable)
    as (b & g' & w' & Hrun & Hb & _ & Hiff & _ & Hfrozen & H71 & _).
  assert (beginner_win_call = (b, g')) as Heq.
  { unfold beginner_win_call. by rewrite Hrun. }
  rewrite Heq in Hcall. cbn [snd] in Hcall.
  destruct Hcall as (Hw & Hst & Hfl10).
  assert (state beginner_demo ≠ WON) as Hnw by (by rewrite Hs).
  destruct (Hfrozen Hnw Hw) as (Hel & _ & Hfm).
  rewrite decide_False in Hel by (by rewrite Hs).
  exists b, g', w'.
  split_and!; [exact Hrun|apply Hb; exact Hopen|exact Hw| | |exact Hel
              |exact Hst|exact Hfm|exact Hfl10].
  - apply H71; [reflexivity..|exact Hw].
  - destruct (proj1 Hiff (conj Hnw Hw)) as [_ Hcount]. exact Hcount.
Defined.

(** C3, as stated, fails where a flag stands in the way.  On a 1 x 6 board
    with its mine at (0, 3), after a first click at (0, 0) and a flag on
    (0, 4), revealing the zero-adjacency cell (0, 5) leaves its neighbour
    (0, 4), which borders the zero region, hidden. *)
Lemma flood_fill_leaves_flagged_border :
  ¬ (∀ g pos w,
       state g = PLAYING → cached_count g pos = 0%nat → pos ∉ mines g →
       ∃ b g' w',
         reveal_cell pos g w = Done (b, g', w')
         ∧ ∀ c, zero_region_with_border g pos c → c ∈ revealed g').
Proof.
  intros H.
  destruct (H flag_demo (mkPosition 0 5) (mkWorld [] [200]))
    as (b & g' & w' & Hrun & Hall); [decide_by_vm..|].
  destruct (call_result_Done flag_demo flag_demo_call) as [w'' Hrun'];
    [vm_compute; reflexivity|].
  unfold flag_demo_call at 1 in Hrun'.
  rewrite Hrun' in Hrun. apply Done_game_eq in Hrun. subst g'.
  assert (mkPosition 0 4 ∉ revealed (call_result flag_demo flag_demo_call).2)
    as Hnot by decide_by_vm.
  apply Hnot, Hall. right. exists (mkPosition 0 5). split.
  - constructor. decide_by_vm.
  - decide_by_vm.
Qed.

(** C3, amended.  For every engine in state [PLAYING] and every position
    [pos] that is neither revealed, flagged nor a mine (the cells of zero
    adjacency among them), [reveal_cell pos] returns [True] in every world
    and reveals exactly [pos] and the cells reached from it by steps from
    a newly revealed cell of zero adjacency to a neighbour that is neither
    flagged nor revealed before the call: a flagged cell stays hidden, and
    so does what lies behind it.  At the top of every turn of the loop the
    worklist holds no revealed cell, so no cell is processed twice; and
    the loop ends for every worklist, engine and order of [pop]. *)
Theorem flood_fill_reveals_region g pos w :
  state g = PLAYING → pos ∉ revealed g → pos ∉ flags g → pos ∉ mines g →
  ∃ g' w',
    reveal_cell pos g w = Done (true, g', w')
    ∧ (∀ c, c ∈ revealed g' ↔ c ∈ revealed g ∨ flood_reach g pos c)
    ∧ (∀ W gi current,
         flood_configs g pos (W, gi) → current ∈ W →
         current ∉ revealed gi)
    ∧ (∀ fuel W gi wi,
         (flood_bound W gi ≤ fuel)%nat →
         ∃ go wo, flood_fill fuel W gi wi = Done (go, wo)).
Proof.
  intros Hs Hpr Hpf Hpm.
  destruct (reveal_cell_Done pos g w) as (b & g' & w' & Hrun).
  { intros E. congruence. }
  pose proof Hrun as Hinv.
  apply reveal_cell_inv in Hinv as (g1 & w1 & Hstage1 & Hstage2).
  destruct Hstage1 as [[E _]|(_ & -> & ->)]; [congruence|].
  assert (¬ blocked g pos) as Hnb.
  { unfold blocked. rewrite Hs. intros [[? _]|[?|?]]; done. }
  destruct Hstage2 as [(? & _)|[(_ & ? & _)|
    (_ & _ & -> & g2 & w2 & Hfill & Hend)]]; [done|done|].
  exists g', w'. split_and!; [done| | |].
  - destruct (flood_fill_result g pos _ w g2 w2 Hpr Hfill) as (_ & Hrev & _).
    by destruct Hend as [(_ & -> & _)|(_ & -> & _)].
  - intros W gi current Hcfg Hcur Hin.
    apply flood_configs_inv in Hcfg as (_ & Hdisj & _); [|done].
    by apply (Hdisj current).
  - intros fuel W gi wi. apply flood_fill_terminates.
Qed.

Lemma flood_fill_reveals_region_witness :
  state flag_demo = PLAYING
  ∧ (mkPosition 0 5 ∉ revealed flag_demo)
  ∧ (mkPosition 0 5 ∉ flags flag_demo)
  ∧ (mkPosition 0 5 ∉ mines flag_demo)
  ∧ ∃ g' w',
      reveal_cell (mkPosition 0 5) flag_demo (mkWorld [] [200])
      = Done (true, g', w')
      ∧ (∀ c, c ∈ revealed g' ↔
              c ∈ revealed flag_demo
              ∨ flood_reach flag_demo (mkPosition 0 5) c)
      ∧ (∀ W gi current,
           flood_configs flag_demo (mkPosition 0 5) (W, gi) → current ∈ W →
           current ∉ revealed gi)
      ∧ (∀ fuel W gi wi,
           (flood_bound W gi ≤ fuel)%nat →
           ∃ go wo, flood_fill fuel W gi wi = Done (go, wo)).
Proof.
  assert (state flag_demo = PLAYING) as H1 by decide_by_vm.
  assert (mkPosition 0 5 ∉ revealed flag_demo) as H2 by decide_by_vm.
  assert (mkPosition 0 5 ∉ flags flag_demo) as H3 by decide_by_vm.
  assert (mkPosition 0 5 ∉ mines flag_demo) as H4 by decide_by_vm.
  split_and!; [exact H1|exact H2|exact H3|exact H4|].
  by apply flood_fill_reveals_region.
Defined.

Lemma auto_reveal_guard pos g w :
  pos ∉ revealed g ∨ state g ≠ PLAYING
  ∨ size (neighbors pos (rows g) (cols g) ∩ flags g) ≠ cached_count g pos →
  auto_reveal_neighbors pos g w = Done (false, g, w).
Proof.
  intros Hg. unfold auto_reveal_neighbors.
  destruct (decide (pos ∉ revealed g ∨ state g ≠ PLAYING)); [done|].
  rewrite decide_False; [done|]. tauto.
Qed.

(** C5, on the code: the chord stops at the first neighbour whose
    [reveal_cell] returns [False], and that is also what [reveal_cell]
    returns for a neighbour that the flood fill of an earlier neighbour has
    revealed in the meantime.  On the 2 x 8 board of [chord_demo] the only
    mine, (0, 5), is flagged, (1, 6) is revealed and its count, 1, equals
    its number of flagged neighbours.  The chord on (1, 6), with its four
    hidden neighbours yielded in the order (0, 7), (0, 6), (1, 7), (1, 5),
    returns [False]; no mine was hit (the state is still [PLAYING]) and
    the hidden, unflagged, mine-free neighbour (1, 5) is left unrevealed. *)
Theorem chord_stops_on_revealed_neighbour :
  reachable (in_bounds 2 8) (new_game 2 8 1) chord_demo
  ∧ state chord_demo = PLAYING
  ∧ mkPosition 1 6 ∈ revealed chord_demo
  ∧ flags chord_demo = mines chord_demo
  ∧ size (neighbors (mkPosition 1 6) (rows chord_demo) (cols chord_demo)
            ∩ flags chord_demo)
    = cached_count chord_demo (mkPosition 1 6)
  ∧ set_iter (neighbors (mkPosition 1 6) (rows chord_demo) (cols chord_demo)
                ∖ revealed chord_demo ∖ flags chord_demo)
      (mkWorld [] [200])
    = Done ([mkPosition 0 7; mkPosition 0 6; mkPosition 1 7; mkPosition 1 5],
            mkWorld [] [200])
  ∧ (∃ w',
       auto_reveal_neighbors (mkPosition 1 6) chord_demo (mkWorld [] [200])
       = Done (false, (call_result chord_demo chord_demo_call).2, w'))
  ∧ state (call_result chord_demo chord_demo_call).2 = PLAYING
  ∧ (mkPosition 1 5 ∉ revealed (call_result chord_demo chord_demo_call).2)
  ∧ (mkPosition 1 5 ∉ flags (call_result chord_demo chord_demo_call).2)
  ∧ (mkPosition 1 5 ∉ mines (call_result chord_demo chord_demo_call).2).
Proof.
  split_and!.
  - apply chord_demo_reachable.
  - decide_by_vm.
  - decide_by_vm.
  - decide_by_vm.
  - decide_by_vm.
  - vm_compute. reflexivity.
  - destruct (call_result_Done chord_demo chord_demo_call) as [w' Hrun];
      [vm_compute; reflexivity|].
    assert ((call_result chord_demo chord_demo_call).1 = false) as Hb
      by (vm_compute; reflexivity).
    rewrite Hb in Hrun. by exists w'.
  - decide_by_vm.
  - decide_by_vm.
  - decide_by_vm.
  - decide_by_vm.
Qed.

(** * Further properties of the engine *)

(** ** What a call leaves alone *)

Lemma reveal_cell_frame pos g w b g' w' :
  reveal_cell pos g w = Done (b, g', w') →
  same_config g g'
  ∧ revealed g ⊆ revealed g'
  ∧ (state g ≠ READY →
       mines g' = mines g ∧ adjacent_cache g' = adjacent_cache g
       ∧ start_time g' = start_time g ∧ state g' ≠ READY)
  ∧ (ended g → g' = g ∧ w' = w ∧ b = false).
Proof.
  intros Hrun.
  apply reveal_cell_inv in Hrun as (g1 & w1 & Hstage1 & Hstage2).
  assert (same_config g g1 ∧ revealed g1 = revealed g
          ∧ state g1 ≠ READY
          ∧ (state g ≠ READY → g1 = g ∧ w1 = w)) as (Hc1 & Hr1 & Hs1 & Hsame).
  { destruct Hstage1 as [[Hs Hinit]|(Hs & -> & ->)].
    - apply initialize_mines_inv in Hinit
        as (_ & (?&?&?& Hst &_&_& ? &_) & _).
      split_and!; try done. by rewrite Hst.
    - split_and!; done || apply same_config_refl. }
  assert (same_config g1 g' ∧ revealed g1 ⊆ revealed g'
          ∧ mines g' = mines g1 ∧ adjacent_cache g' = adjacent_cache g1
          ∧ start_time g' = start_time g1 ∧ state g' ≠ READY
          ∧ (ended g1 → g' = g1 ∧ w' = w1 ∧ b = false))
    as (Hc2 & Hr2 & Hm2 & Ha2 & Ht2 & Hs2 & He2).
  { destruct Hstage2 as [(_ & -> & -> & ->)|[(Hnb & _ & -> & -> & _)|
      (Hnb & _ & -> & g2 & w2 & Hfill & Hend)]].
    - split_and!; done || apply same_config_refl.
    - unfold lose. fields. split_and!; try done.
      intros He. exfalso. apply Hnb. left.
      destruct He as [E|E]; rewrite E; done.
    - destruct (not_blocked g1 pos Hnb Hs1) as (Hs & Hpr & _).
      destruct (flood_fill_result g1 pos _ w1 g2 w2 Hpr Hfill)
        as ((?&?&?& Hst2 & ? &_& ? &_& ?) & Hrev & _).
      assert (revealed g1 ⊆ revealed g2) as Hmono.
      { intros x Hx. apply Hrev. by left. }
      assert (ended g1 → False) as Hne.
      { intros [E|E]; congruence. }
      destruct Hend as [(_ & -> & _)|(_ & -> & _)].
      + unfold win. fields.
        split_and!; try done; try congruence; intros He; by destruct Hne.
      + split_and!; try done; try congruence; intros He; by destruct Hne. }
  split_and!.
  - by eapply same_config_trans.
  - by rewrite <- Hr1.
  - intros Hs. destruct (Hsame Hs) as [-> ->]. done.
  - intros He. assert (state g ≠ READY) as Hs.
    { destruct He as [E|E]; rewrite E; done. }
    destruct (Hsame Hs) as [-> ->]. by apply He2.
Qed.

Lemma toggle_flag_frame pos g :
  same_config g (toggle_flag pos g)
  ∧ revealed (toggle_flag pos g) = revealed g
  ∧ mines (toggle_flag pos g) = mines g
  ∧ adjacent_cache (toggle_flag pos g) = adjacent_cache g
  ∧ start_time (toggle_flag pos g) = start_time g
  ∧ state (toggle_flag pos g) = state g.
Proof.
  unfold toggle_flag. destruct (decide _); fields;
    split_and!; done || apply same_config_refl.
Qed.

(** What is fixed once the mines are placed, as a relation between the
    engine before and after. *)
Lemma run_op_frame o g w g' w' :
  o ≠ Reset → state g ≠ READY →
  run_op o g w = Done (g', w') →
  same_config g g'
  ∧ revealed g ⊆ revealed g'
  ∧ mines g' = mines g ∧ adjacent_cache g' = adjacent_cache g
  ∧ start_time g' = start_time g ∧ state g' ≠ READY.
Proof.
  intros Ho Hs Hrun.
  set (I := λ x : MinesweeperGame,
         same_config g x ∧ revealed g ⊆ revealed x
         ∧ mines x = mines g ∧ adjacent_cache x = adjacent_cache g
         ∧ start_time x = start_time g ∧ state x ≠ READY).
  assert (I g) as HI.
  { unfold I. split_and!; done || apply same_config_refl. }
  assert (∀ p x w1 b x' w1',
            any_position p → I x →
            reveal_cell p x w1 = Done (b, x', w1') → I x') as Hreveal.
  { intros p x w1 b x' w1' _ (Hc & Hr & Hm & Ha & Ht & Hsx) Hx.
    apply reveal_cell_frame in Hx as (Hc' & Hr' & Hfix & _).
    destruct (Hfix Hsx) as (? & ? & ? & ?). unfold I.
    split_and!; try congruence.
    - by eapply same_config_trans.
    - by etrans. }
  destruct o as [pos|pos|pos|]; cbn [run_op] in Hrun; [| | |done].
  - apply bind_Done in Hrun as ([b g1] & w1 & Hrun & H).
    apply ret_Done in H as [= -> _]. by apply (Hreveal pos g w b g1 w1).
  - apply ret_Done in Hrun as [= -> _].
    destruct (toggle_flag_frame pos g) as (?&Hr&?&?&?&Hst).
    split_and!; try done; [by rewrite Hr|by rewrite Hst].
  - apply bind_Done in Hrun as ([b g1] & w1 & Hrun & H).
    apply ret_Done in H as [= -> _].
    by apply (auto_reveal_preserves any_position I pos g w b g1 w1).
Qed.

Lemma reveal_all_Done ns g w :
  state g ≠ READY → ∃ b g' w', reveal_all ns g w = Done (b, g', w').
Proof.
  revert g w. induction ns as [|n ns IH]; intros g w Hs.
  - by eexists _, _, _.
  - destruct (reveal_cell_Done n g w) as (b1 & g1 & w1 & Hrun); [done|].
    pose proof (reveal_cell_frame n g w b1 g1 w1 Hrun) as (_ & _ & Hfix & _).
    destruct (Hfix Hs) as (_ & _ & _ & Hs1).
    destruct b1.
    + destruct (IH g1 w1 Hs1) as (b & g' & w' & Hrest).
      exists b, g', w'. cbn [reveal_all]. apply bind_Done.
      exists (true, g1), w1. by split.
    + exists false, g1, w1. cbn [reveal_all]. apply bind_Done.
      exists (false, g1), w1. by split.
Qed.

Lemma auto_reveal_neighbors_Done pos g w :
  ∃ b g' w', auto_reveal_neighbors pos g w = Done (b, g', w').
Proof.
  unfold auto_reveal_neighbors.
  destruct (decide (pos ∉ revealed g ∨ state g ≠ PLAYING)) as [|Hg].
  { by eexists _, _, _. }
  destruct (decide _); [|by eexists _, _, _].
  destruct (set_iter_spec
              (neighbors pos (rows g) (cols g) ∖ revealed g ∖ flags g) w)
    as (ns & w1 & Hiter & _).
  destruct (reveal_all_Done ns g w1) as (b & g' & w' & Hrun).
  { intros E. apply Hg. right. by rewrite E. }
  exists b, g', w'. apply bind_Done. exists ns, w1. by split.
Qed.

(** Every call returns, in every world, unless the mine count is negative
    on a first reveal. *)
Lemma run_op_Done o g w :
  (state g = READY → 0 ≤ total_mines g) →
  ∃ g' w', run_op o g w = Done (g', w').
Proof.
  intros Hm. destruct o as [pos|pos|pos|]; cbn [run_op].
  - destruct (reveal_cell_Done pos g w Hm) as (b & g' & w' & Hrun).
    exists g', w'. apply bind_Done. exists (b, g'), w'. by split.
  - by eexists _, _.
  - destruct (auto_reveal_neighbors_Done pos g w) as (b & g' & w' & Hrun).
    exists g', w'. apply bind_Done. exists (b, g'), w'. by split.
  - by eexists _, _.
Qed.

(** X1. Once the mines are placed (the state is not [READY]), a call of
    [reveal_cell], [toggle_flag] or [auto_reveal_neighbors] returns in
    every world and changes neither the board, the mine count, the mine
    set, the adjacency cache nor the start time; it never takes the state
    back to [READY]; and every revealed cell stays revealed. *)
Theorem mines_fixed_once_placed o g w :
  o ≠ Reset → state g ≠ READY →
  ∃ g' w',
    run_op o g w = Done (g', w')
    ∧ rows g' = rows g ∧ cols g' = cols g
    ∧ total_mines g' = total_mines g
    ∧ mines g' = mines g
    ∧ adjacent_cache g' = adjacent_cache g
    ∧ start_time g' = start_time g
    ∧ state g' ≠ READY
    ∧ revealed g ⊆ revealed g'.
Proof.
  intros Ho Hs.
  destruct (run_op_Done o g w) as (g' & w' & Hrun); [done|].
  exists g', w'. split; [done|].
  destruct (run_op_frame o g w g' w' Ho Hs Hrun)
    as ((?&?&?) & ? & ? & ? & ? & ?).
  by split_and!.
Qed.

Lemma mines_fixed_once_placed_witness :
  AutoReveal (mkPosition 1 6) ≠ Reset
  ∧ state chord_demo ≠ READY
  ∧ ∃ g' w',
      run_op (AutoReveal (mkPosition 1 6)) chord_demo (mkWorld [] [200])
      = Done (g', w')
      ∧ rows g' = rows chord_demo ∧ cols g' = cols chord_demo
      ∧ total_mines g' = total_mines chord_demo
      ∧ mines g' = mines chord_demo
      ∧ adjacent_cache g' = adjacent_cache chord_demo
      ∧ start_time g' = start_time chord_demo
      ∧ state g' ≠ READY
      ∧ revealed chord_demo ⊆ revealed g'.
Proof.
  assert (state chord_demo ≠ READY) as Hs by decide_by_vm.
  split_and!; [discriminate|exact Hs|].
  apply mines_fixed_once_placed; [discriminate|exact Hs].
Defined.

(** X2. [WON] and [LOST] are final: once the game has ended,
    [reveal_cell] and [auto_reveal_neighbors] return [False] and
    [toggle_flag] returns, each leaving the engine (and the world)
    exactly as it was, for every position. *)
Theorem ended_game_is_frozen pos g w :
  ended g →
  reveal_cell pos g w = Done (false, g, w)
  ∧ toggle_flag pos g = g
  ∧ auto_reveal_neighbors pos g w = Done (false, g, w).
Proof.
  intros He.
  assert (state g ≠ READY ∧ state g ≠ PLAYING) as [Hr Hp].
  { destruct He as [E|E]; rewrite E; done. }
  split_and!.
  - destruct (reveal_cell_Done pos g w) as (b & g' & w' & Hrun); [done|].
    pose proof (reveal_cell_frame pos g w b g' w' Hrun) as (_ & _ & _ & Hend).
    destruct (Hend He) as (-> & -> & ->). exact Hrun.
  - unfold toggle_flag. rewrite decide_True; [done|]. by right.
  - unfold auto_reveal_neighbors. rewrite decide_True; [done|]. by right.
Qed.

Lemma ended_game_is_frozen_witness :
  ended lost_demo
  ∧ reveal_cell (mkPosition 0 5) lost_demo (mkWorld [] [300])
    = Done (false, lost_demo, mkWorld [] [300])
  ∧ toggle_flag (mkPosition 0 5) lost_demo = lost_demo
  ∧ auto_reveal_neighbors (mkPosition 0 2) lost_demo (mkWorld [] [300])
    = Done (false, lost_demo, mkWorld [] [300]).
Proof.
  assert (ended lost_demo) as He by (right; decide_by_vm).
  destruct (ended_game_is_frozen (mkPosition 0 5) lost_demo
              (mkWorld [] [300]) He) as (H1 & H2 & _).
  destruct (ended_game_is_frozen (mkPosition 0 2) lost_demo
              (mkWorld [] [300]) He) as (_ & _ & H3).
  split_and!; [exact He|exact H1|exact H2|exact H3].
Defined.

Lemma demo_reachable ops r c m w :
  Forall (op_arg (in_bounds r c)) ops →
  is_done (run_ops ops (new_game r c m) w) = true →
  reachable (in_bounds r c) (new_game r c m)
    (result_game (new_game r c m) (run_ops ops (new_game r c m) w)).
Proof. apply reachable_result_game. Qed.

Lemma won_demo_reachable :
  reachable (in_bounds 1 6) (new_game 1 6 1) won_demo.
Proof.
  apply demo_reachable.
  - repeat (apply Forall_cons; split;
              [unfold op_arg, in_bounds; cbn [row col]; lia|]).
    constructor.
  - vm_compute. reflexivity.
Qed.

Lemma chord_ready_demo_reachable :
  reachable (in_bounds 1 6) (new_game 1 6 1) chord_ready_demo.
Proof.
  apply demo_reachable.
  - repeat (apply Forall_cons; split;
              [unfold op_arg, in_bounds; cbn [row col]; lia|]).
    constructor.
  - vm_compute. reflexivity.
Qed.

(** X3. When every call is given a position of the board, no revealed
    cell is ever a mine: the flood fill never uncovers one, and the mine
    that ends a game is not added to the revealed set. *)
Theorem revealed_never_mine r c m g :
  reachable (in_bounds r c) (new_game r c m) g → revealed g ## mines g.
Proof.
  intros Hreach.
  by destruct (reachable_board_inv r c m g Hreach) as (_ & _ & _ & _ & ? & _).
Qed.

Lemma revealed_never_mine_witness :
  reachable (in_bounds 1 6) (new_game 1 6 1) won_demo
  ∧ revealed won_demo ## mines won_demo.
Proof.
  split; [apply won_demo_reachable|].
  apply (revealed_never_mine 1 6 1), won_demo_reachable.
Defined.

Lemma won_flags_are_mines r c m g :
  reachable any_position (new_game r c m) g →
  state g = WON → flags g = mines g.
Proof.
  revert g.
  apply (reachable_invariant any_position
           (λ g, state g = WON → flags g = mines g)); try done.
  - intros p g _ IH. destruct (toggle_flag_frame p g) as (_&_&_&_&_&Hst).
    intros Hw. rewrite Hst in Hw. unfold toggle_flag.
    rewrite decide_True; [by apply IH|]. right. by rewrite Hw.
  - intros p g w b g' w' _ IH Hrun Hw.
    apply reveal_cell_inv in Hrun as (g1 & w1 & Hstage1 & Hstage2).
    destruct Hstage2 as [(Hb & _ & -> & _)|[(_ & _ & _ & -> & _)|
      (Hnb & _ & _ & g2 & w2 & Hfill & Hend)]].
    + destruct Hstage1 as [[Hs Hinit]|(_ & -> & _)]; [|by apply IH].
      apply initialize_mines_inv in Hinit as (_ & (_&_&_& Hst &_) & _).
      congruence.
    + done.
    + destruct Hend as [(_ & -> & _)|(_ & -> & _)]; [done|].
      assert (state g1 ≠ READY) as Hs1.
      { destruct Hstage1 as [[Hs Hinit]|(? & -> & _)]; [|done].
        apply initialize_mines_inv in Hinit as (_ & (_&_&_& Hst &_) & _).
        by rewrite Hst. }
      destruct (not_blocked g1 p Hnb Hs1) as (Hs & Hpr & _).
      destruct (flood_fill_result g1 p _ w1 g2 w2 Hpr Hfill)
        as ((_&_&_& Hst2 &_) & _). congruence.
Qed.

(** X4. When every call is given a position of the board, a won game has
    exactly the cells of the board that are not mines revealed, and
    exactly the mines flagged. *)
Theorem won_means_all_safe_revealed r c m g :
  reachable (in_bounds r c) (new_game r c m) g →
  state g = WON →
  revealed g = all_positions r c ∖ mines g ∧ flags g = mines g.
Proof.
  intros Hreach Hw.
  destruct (reachable_board_inv r c m g Hreach)
    as ((Hr & Hc & _) & Hinv & Hrin & _ & Hrm & _). fields.
  rewrite Hr, Hc in Hrin.
  destruct Hinv as (Hmin & _ & _ & _ & Hwon). rewrite Hr, Hc in Hmin.
  specialize (Hwon Hw). unfold win_condition in Hwon.
  rewrite Hr, Hc in Hwon.
  split.
  2:{ apply won_flags_are_mines with r c m; [|done].
      by apply (reachable_mono (in_bounds r c)). }
  assert (revealed g ∪ mines g ⊆ all_positions r c) as Hsub.
  { by apply union_subseteq. }
  pose proof (subseteq_size _ _ Hsub) as Hle.
  rewrite size_union, size_all_positions in Hle by done.
  assert (size (revealed g ∪ mines g) = size (all_positions r c)) as Hsz.
  { rewrite size_union, size_all_positions by done. nia. }
  assert (revealed g ∪ mines g = all_positions r c) as Heq.
  { apply set_eq. intros x. split; [apply Hsub|]. intros Hx.
    destruct (decide (x ∈ revealed g ∪ mines g)) as [|Hn]; [done|].
    exfalso.
    assert (size (revealed g ∪ mines g ∪ {[x]})
            ≤ size (all_positions r c))%nat as Hbig.
    { apply subseteq_size. apply union_subseteq. split; [done|].
      by apply singleton_subseteq_l. }
    rewrite size_union, size_singleton in Hbig.
    - lia.
    - intros y Hy ->%elem_of_singleton. done. }
  rewrite <- Heq. apply set_eq. intros x.
  rewrite elem_of_difference, elem_of_union.
  split; [|tauto]. intros Hx. split; [by left|].
  intros Hmine. by apply (Hrm x).
Qed.

Lemma won_means_all_safe_revealed_witness :
  reachable (in_bounds 1 6) (new_game 1 6 1) won_demo
  ∧ state won_demo = WON
  ∧ revealed won_demo = all_positions 1 6 ∖ mines won_demo
  ∧ flags won_demo = mines won_demo.
Proof.
  assert (state won_demo = WON) as Hw by decide_by_vm.
  split_and!; [apply won_demo_reachable|exact Hw| |];
    by apply (won_means_all_safe_revealed 1 6 1 won_demo won_demo_reachable).
Defined.

(** ** The first click, and the chord *)

Lemma reveal_cell_true_revealed pos g w g' w' :
  reveal_cell pos g w = Done (true, g', w') → pos ∈ revealed g'.
Proof.
  intros Hrun.
  apply reveal_cell_inv in Hrun as (g1 & w1 & Hstage1 & Hstage2).
  destruct Hstage2 as [(_ & ? & _)|[(_ & _ & ? & _)|
    (Hnb & _ & _ & g2 & w2 & Hfill & Hend)]]; [done|done|].
  assert (pos ∉ revealed g1) as Hpr.
  { intros ?. apply Hnb. right. by left. }
  destruct (flood_fill_result g1 pos _ w1 g2 w2 Hpr Hfill) as (_ & Hrev & _).
  assert (pos ∈ revealed g2) as Hin by (apply Hrev; right; constructor).
  by destruct Hend as [(_ & -> & _)|(_ & -> & _)].
Qed.

(** X5. The first click opens its neighbourhood: on a fresh or reset
    engine with a mine count that is not negative, the first
    [reveal_cell p] on a cell of the board returns [True], finds no mine
    around [p] (its cached count is 0), and reveals [p] together with all
    its neighbours on the board. *)
Theorem first_click_opens_neighbourhood g p w :
  g = new_game (rows g) (cols g) (total_mines g) →
  0 ≤ total_mines g →
  in_bounds (rows g) (cols g) p →
  ∃ g' w',
    reveal_cell p g w = Done (true, g', w')
    ∧ cached_count g' p = 0%nat
    ∧ safe_zone g p ⊆ revealed g'.
Proof.
  intros Hfresh Hm Hin.
  assert (session_inv g) as Hinv.
  { rewrite Hfresh. apply session_inv_new_game. }
  assert (state g = READY) as Hs by (by rewrite Hfresh).
  destruct (reveal_cell_cases p g w Hinv (λ _, Hm))
    as (b & g' & w' & Hrun & Hcases).
  destruct Hcases as [([[E|E]|[Hr|Hf]] & _)|[(E & _)|
    (_ & _ & _ & _ & -> & g1 & w1 & g2 & w2 & Hst1 & Hinv1 & Hcfg & Hs1
       & Hpr & Hpf & _ & Hfill & Hend)]]; try congruence.
  { rewrite Hfresh in Hr. by apply elem_of_empty in Hr. }
  { rewrite Hfresh in Hf. by apply elem_of_empty in Hf. }
  destruct Hst1 as [[_ Hinit]|(? & _)]; [|congruence].
  destruct (session_inv_init p g w g1 w1 Hinv Hs Hinit)
    as (_ & (Hr1 & Hc1 & _) & _ & Hrev1 & Hfl1).
  apply initialize_mines_inv in Hinit
    as (_ & (_&_&_&_&_&_&_&_& Hsub &_& Hca) & _).
  assert (cached_count g1 p = 0%nat) as Hzero.
  { unfold cached_count. rewrite Hca, adjacent_counts_lookup by done.
    cbn [default]. apply size_empty_iff. intros x.
    rewrite elem_of_intersection. split; [|by intros ?%elem_of_empty].
    intros [Hn Hmine]. apply Hsub in Hmine. unfold available in Hmine.
    apply elem_of_difference in Hmine as [_ Hmine]. exfalso. apply Hmine.
    unfold safe_zone. by apply elem_of_union_r. }
  destruct (flood_fill_result g1 p _ w1 g2 w2 Hpr Hfill)
    as (Hfr & Hrev & _).
  assert (safe_zone g p ⊆ revealed g2) as Hopen.
  { intros x Hx. apply Hrev. right. unfold safe_zone in Hx.
    apply elem_of_union in Hx as [->%elem_of_singleton|Hx]; [constructor|].
    apply (flood_reach_step g1 p p x); [constructor|done| | |].
    - by rewrite Hr1, Hc1.
    - rewrite Hrev1. apply not_elem_of_empty.
    - rewrite Hfl1. apply not_elem_of_empty. }
  exists g', w'. split; [done|].
  pose proof (same_frame_cached_count g1 g2 p Hfr) as Hcc.
  destruct Hend as [(_ & -> & _)|(_ & -> & _)].
  - split; [|done]. unfold cached_count, win in *. fields. congruence.
  - split; [congruence|done].
Qed.

Lemma first_click_opens_neighbourhood_witness :
  new_game 9 9 10
  = new_game (rows (new_game 9 9 10)) (cols (new_game 9 9 10))
      (total_mines (new_game 9 9 10))
  ∧ 0 ≤ total_mines (new_game 9 9 10)
  ∧ in_bounds (rows (new_game 9 9 10)) (cols (new_game 9 9 10))
      (mkPosition 0 8)
  ∧ ∃ g' w',
      reveal_cell (mkPosition 0 8) (new_game 9 9 10)
        (mkWorld [5; 3; 5; 3]%nat [10]) = Done (true, g', w')
      ∧ cached_count g' (mkPosition 0 8) = 0%nat
      ∧ safe_zone (new_game 9 9 10) (mkPosition 0 8) ⊆ revealed g'.
Proof.
  assert (in_bounds (rows (new_game 9 9 10)) (cols (new_game 9 9 10))
            (mkPosition 0 8)) as Hin.
  { unfold in_bounds. fields. lia. }
  split_and!; [reflexivity|fields; lia|exact Hin|].
  apply first_click_opens_neighbourhood; [reflexivity|fields; lia|exact Hin].
Defined.

Lemma reveal_all_true ns g w g' w' :
  reveal_all ns g w = Done (true, g', w') →
  revealed g ⊆ revealed g' ∧ ∀ n, n ∈ ns → n ∈ revealed g'.
Proof.
  revert g w. induction ns as [|n ns IH]; intros g w Hrun.
  - apply ret_Done in Hrun as [= -> _]. split; [done|].
    intros n Hn. by apply elem_of_nil in Hn.
  - cbn [reveal_all] in Hrun.
    apply bind_Done in Hrun as ([b1 g1] & w1 & Hrun1 & Hrest).
    cbn [fst snd] in Hrest. destruct b1.
    2:{ by apply ret_Done in Hrest as [= ? _]. }
    pose proof (reveal_cell_true_revealed n g w g1 w1 Hrun1) as Hn.
    pose proof (reveal_cell_frame n g w true g1 w1 Hrun1) as (_ & Hmono & _).
    destruct (IH g1 w1 Hrest) as [Hmono' Hall]. split; [by etrans|].
    intros x [->|Hx]%elem_of_cons; [by apply Hmono'|by apply Hall].
Qed.

(** X6. [auto_reveal_neighbors] returns in every world, and when it
    returns [True] the chord was allowed ([pos] revealed, state [PLAYING],
    as many flagged neighbours as the cached count) and afterwards every
    neighbour of [pos] that was not flagged is revealed. *)
Theorem chord_true_reveals_all pos g w :
  ∃ b g' w',
    auto_reveal_neighbors pos g w = Done (b, g', w')
    ∧ (b = true →
         state g = PLAYING ∧ pos ∈ revealed g
         ∧ size (neighbors pos (rows g) (cols g) ∩ flags g)
           = cached_count g pos
         ∧ ∀ n, n ∈ neighbors pos (rows g) (cols g) → n ∉ flags g →
                n ∈ revealed g').
Proof.
  destruct (auto_reveal_neighbors_Done pos g w) as (b & g' & w' & Hrun).
  exists b, g', w'. split; [done|]. intros ->.
  unfold auto_reveal_neighbors in Hrun.
  destruct (decide (pos ∉ revealed g ∨ state g ≠ PLAYING)) as [|Hg].
  { by apply ret_Done in Hrun as [= ? _]. }
  destruct (decide _) as [Hcount|] in Hrun.
  2:{ by apply ret_Done in Hrun as [= ? _]. }
  apply bind_Done in Hrun as (ns & w1 & Hiter & Hrun).
  destruct (set_iter_spec
              (neighbors pos (rows g) (cols g) ∖ revealed g ∖ flags g) w)
    as (ns' & w1' & Hiter' & _ & _ & Hns).
  rewrite Hiter' in Hiter. injection Hiter as -> ->.
  apply reveal_all_true in Hrun as [Hmono Hall].
  split_and!; try done.
  - destruct (decide (state g = PLAYING)); tauto.
  - destruct (decide (pos ∈ revealed g)); tauto.
  - intros n Hn Hnf. destruct (decide (n ∈ revealed g)) as [Hr|Hr].
    + by apply Hmono.
    + apply Hall, Hns. rewrite !elem_of_difference. tauto.
Qed.

Lemma chord_true_reveals_all_witness :
  ∃ g' w',
    auto_reveal_neighbors (mkPosition 0 4) chord_ready_demo
      (mkWorld [] [175]) = Done (true, g', w')
    ∧ state chord_ready_demo = PLAYING
    ∧ mkPosition 0 4 ∈ revealed chord_ready_demo
    ∧ mkPosition 0 5 ∈ neighbors (mkPosition 0 4) (rows chord_ready_demo)
                        (cols chord_ready_demo)
    ∧ (mkPosition 0 5 ∉ flags chord_ready_demo)
    ∧ (mkPosition 0 5 ∉ revealed chord_ready_demo)
    ∧ mkPosition 0 5 ∈ revealed g'.
Proof.
  destruct (chord_true_reveals_all (mkPosition 0 4) chord_ready_demo
              (mkWorld [] [175])) as (b & g' & w' & Hrun & Htrue).
  assert ((call_result chord_ready_demo
             (auto_reveal_neighbors (mkPosition 0 4) chord_ready_demo
                (mkWorld [] [175]))).1 = true) as Hb
    by (vm_compute; reflexivity).
  rewrite Hrun in Hb. cbn [call_result fst] in Hb. subst b.
  destruct (Htrue eq_refl) as (Hs & Hr & _ & Hall).
  assert (mkPosition 0 5 ∈ neighbors (mkPosition 0 4) (rows chord_ready_demo)
                             (cols chord_ready_demo)) as Hn by decide_by_vm.
  assert (mkPosition 0 5 ∉ flags chord_ready_demo) as Hnf by decide_by_vm.
  assert (mkPosition 0 5 ∉ revealed chord_ready_demo) as Hnr by decide_by_vm.
  exists g', w'.
  split_and!; [exact Hrun|exact Hs|exact Hr|exact Hn|exact Hnf|exact Hnr|].
  by apply Hall.
Defined.

Lemma reveal_safe_cell_never_loses (M0 : gset Position) p x w b x' w' :
  p ∉ M0 →
  mines x = M0 ∧ state x ≠ READY ∧ state x ≠ LOST →
  reveal_cell p x w = Done (b, x', w') →
  mines x' = M0 ∧ state x' ≠ READY ∧ state x' ≠ LOST.
Proof.
  intros Hp (Hm & Hr & Hl) Hrun.
  pose proof (reveal_cell_frame p x w b x' w' Hrun) as (_ & _ & Hfix & _).
  destruct (Hfix Hr) as (Hm' & _ & _ & Hr').
  split_and!; [congruence|done|].
  apply reveal_cell_inv in Hrun as (g1 & w1 & Hstage1 & Hstage2).
  destruct Hstage1 as [[? _]|(_ & -> & ->)]; [done|].
  destruct Hstage2 as [(_ & _ & -> & _)|[(_ & Hmine & _)|
    (Hnb & _ & _ & g2 & w2 & Hfill & Hend)]]; [done|congruence|].
  destruct (not_blocked x p Hnb Hr) as (Hs & Hpr & _).
  destruct (flood_fill_result x p _ w g2 w2 Hpr Hfill)
    as ((_&_&_& Hst2 &_) & _).
  destruct Hend as [(_ & -> & _)|(_ & -> & _)]; [done|congruence].
Qed.

(** X7. A chord with the right flags never detonates: in a session whose
    calls are given positions of the board, if the game is on, [pos] is
    revealed, its flagged neighbours are as many as its cached count and
    every one of them is a mine, then [auto_reveal_neighbors pos] returns
    and the game is not lost by it. *)
Theorem chord_with_right_flags_never_loses r c m g pos w :
  reachable (in_bounds r c) (new_game r c m) g →
  state g = PLAYING → pos ∈ revealed g →
  size (neighbors pos (rows g) (cols g) ∩ flags g) = cached_count g pos →
  neighbors pos (rows g) (cols g) ∩ flags g ⊆ mines g →
  ∃ b g' w',
    auto_reveal_neighbors pos g w = Done (b, g', w')
    ∧ state g' ≠ LOST ∧ mines g' = mines g.
Proof.
  intros Hreach Hs Hpr Hcount Hright.
  destruct (reachable_board_inv r c m g Hreach)
    as (_ & Hinv & Hrin & _). destruct Hinv as (_ & _ & Hplaced & _).
  destruct Hplaced as (_ & Hca & _); [by rewrite Hs|].
  assert (in_bounds (rows g) (cols g) pos) as Hin.
  { by apply elem_of_all_positions, Hrin. }
  assert (cached_count g pos
          = size (neighbors pos (rows g) (cols g) ∩ mines g)) as Hexact.
  { unfold cached_count. by rewrite Hca, adjacent_counts_lookup. }
  assert (neighbors pos (rows g) (cols g) ∩ flags g
          = neighbors pos (rows g) (cols g) ∩ mines g) as Heq.
  { apply set_subseteq_size_eq.
    - intros x. rewrite !elem_of_intersection. intros [? ?].
      split; [done|]. apply Hright. by apply elem_of_intersection.
    - rewrite Hcount, Hexact. done. }
  destruct (auto_reveal_neighbors_Done pos g w) as (b & g' & w' & Hrun).
  exists b, g', w'. split; [done|].
  unfold auto_reveal_neighbors in Hrun.
  rewrite decide_False in Hrun by (intros [?|?]; done).
  rewrite decide_True in Hrun by done.
  apply bind_Done in Hrun as (ns & w1 & Hiter & Hrun).
  destruct (set_iter_spec
              (neighbors pos (rows g) (cols g) ∖ revealed g ∖ flags g) w)
    as (ns' & w1' & Hiter' & _ & _ & Hns).
  rewrite Hiter' in Hiter. injection Hiter as -> ->.
  assert (Forall (λ n, n ∉ mines g) ns) as Hsafe.
  { apply Forall_forall. intros n Hn Hmine. apply Hns in Hn.
    rewrite !elem_of_difference in Hn. destruct Hn as [[Hnb _] Hnf].
    apply Hnf.
    assert (n ∈ neighbors pos (rows g) (cols g) ∩ flags g) as Hin'.
    { rewrite Heq. by apply elem_of_intersection. }
    by apply elem_of_intersection in Hin' as [_ ?]. }
  destruct (reveal_all_preserves (λ n, n ∉ mines g)
              (λ x, mines x = mines g ∧ state x ≠ READY ∧ state x ≠ LOST)
              (reveal_safe_cell_never_loses (mines g))
              ns g w1 b g' w' Hsafe) as (? & _ & ?); try done.
  split_and!; by rewrite ?Hs.
Qed.

Lemma chord_with_right_flags_never_loses_witness :
  reachable (in_bounds 2 8) (new_game 2 8 1) chord_demo
  ∧ state chord_demo = PLAYING
  ∧ mkPosition 1 6 ∈ revealed chord_demo
  ∧ size (neighbors (mkPosition 1 6) (rows chord_demo) (cols chord_demo)
            ∩ flags chord_demo)
    = cached_count chord_demo (mkPosition 1 6)
  ∧ neighbors (mkPosition 1 6) (rows chord_demo) (cols chord_demo)
      ∩ flags chord_demo ⊆ mines chord_demo
  ∧ ∃ b g' w',
      auto_reveal_neighbors (mkPosition 1 6) chord_demo (mkWorld [] [200])
      = Done (b, g', w')
      ∧ state g' ≠ LOST ∧ mines g' = mines chord_demo.
Proof.
  assert (state chord_demo = PLAYING) as H1 by decide_by_vm.
  assert (mkPosition 1 6 ∈ revealed chord_demo) as H2 by decide_by_vm.
  assert (size (neighbors (mkPosition 1 6) (rows chord_demo)
                  (cols chord_demo) ∩ flags chord_demo)
          = cached_count chord_demo (mkPosition 1 6)) as H3
    by decide_by_vm.
  assert (neighbors (mkPosition 1 6) (rows chord_demo) (cols chord_demo)
            ∩ flags chord_demo ⊆ mines chord_demo) as H4 by decide_by_vm.
  split_and!; [apply chord_demo_reachable|exact H1|exact H2|exact H3
              |exact H4|].
  by apply (chord_with_right_flags_never_loses 2 8 1 chord_demo
              (mkPosition 1 6) (mkWorld [] [200]) chord_demo_reachable).
Defined.

(** ** Neighbours and the adjacency cache *)

(** X8. Adjacency is symmetric and irreflexive: for two cells of the
    board, [n] is a neighbour of [p] exactly when [p] is a neighbour of
    [n], and no cell is its own neighbour. *)
Theorem neighbors_symmetric p n R C :
  in_bounds R C p →
  (n ∈ neighbors p R C ↔ in_bounds R C n ∧ p ∈ neighbors n R C)
  ∧ p ∉ neighbors p R C.
Proof.
  intros Hp. split; [|apply not_elem_of_neighbors_self].
  rewrite !elem_of_neighbors. split.
  - intros (Hn & Hne & Hr & Hc).
    split_and!; try done; try lia; by intros ->.
  - intros (Hn & _ & Hne & Hr & Hc).
    split_and!; try done; try lia; by intros ->.
Qed.

Lemma neighbors_symmetric_witness :
  in_bounds 9 9 (mkPosition 0 0)
  ∧ (mkPosition 1 1 ∈ neighbors (mkPosition 0 0) 9 9
     ↔ in_bounds 9 9 (mkPosition 1 1)
       ∧ mkPosition 0 0 ∈ neighbors (mkPosition 1 1) 9 9)
  ∧ mkPosition 0 0 ∉ neighbors (mkPosition 0 0) 9 9.
Proof.
  assert (in_bounds 9 9 (mkPosition 0 0)) as Hin.
  { unfold in_bounds. cbn [row col]. lia. }
  split; [exact Hin|]. by apply neighbors_symmetric.
Defined.

Lemma size_neighbors_le_8 p R C : (size (neighbors p R C) ≤ 8)%nat.
Proof.
  unfold neighbors. etrans; [apply size_list_to_set_le|].
  unfold deltas. csimpl. rewrite !length_app.
  repeat match goal with
         | |- context [length (if ?b then [?x] else [])] =>
             let H := fresh in
             let n := fresh in
             assert (H : (length (if b then [x] else []) ≤ 1)%nat)
               by (destruct b; cbn [length]; lia);
             set (n := length (if b then [x] else [])) in *;
             clearbody n
         end.
  cbn [length]. lia.
Qed.

Lemma size_neighbors_interior p R C :
  1 ≤ row p → row p + 1 < R → 1 ≤ col p → col p + 1 < C →
  size (neighbors p R C) = 8%nat.
Proof.
  intros Hr1 Hr2 Hc1 Hc2. unfold neighbors, deltas. csimpl.
  rewrite !bool_decide_eq_true_2 by lia. cbn [app].
  rewrite size_list_to_set; [done|].
  repeat (apply NoDup_cons; split;
          [rewrite ?elem_of_cons, elem_of_nil;
           intros H; repeat destruct H as [H|H]; try done;
           injection H; lia|]).
  apply NoDup_nil_2.
Qed.

(** X9. A cell has at most 8 neighbours, and a cell with a full ring of
    board around it has exactly 8. *)
Theorem neighbors_count p R C :
  (size (neighbors p R C) ≤ 8)%nat
  ∧ (1 ≤ row p → row p + 1 < R → 1 ≤ col p → col p + 1 < C →
     size (neighbors p R C) = 8%nat).
Proof. split; [apply size_neighbors_le_8|apply size_neighbors_interior]. Qed.

Lemma neighbors_count_witness :
  1 ≤ row (mkPosition 4 4) ∧ row (mkPosition 4 4) + 1 < 9
  ∧ 1 ≤ col (mkPosition 4 4) ∧ col (mkPosition 4 4) + 1 < 9
  ∧ (size (neighbors (mkPosition 4 4) 9 9) ≤ 8)%nat
  ∧ size (neighbors (mkPosition 4 4) 9 9) = 8%nat.
Proof.
  destruct (neighbors_count (mkPosition 4 4) 9 9) as [Hle Heq].
  cbn [row col] in *.
  split_and!; [lia|lia|lia|lia|exact Hle|apply Heq; lia].
Defined.

Lemma adjacent_counts_lookup_None R C m p :
  ¬ in_bounds R C p → adjacent_counts R C m !! p = None.
Proof.
  intros Hp. unfold adjacent_counts. apply not_elem_of_list_to_map.
  rewrite <- list_fmap_compose.
  rewrite (list_fmap_ext _ id (all_positions_list R C)) by done.
  rewrite list_fmap_id. intros Hin. apply Hp, elem_of_all_positions.
  unfold all_positions. by apply elem_of_list_to_set.
Qed.

Lemma dom_adjacent_counts R C m :
  dom (adjacent_counts R C m) = all_positions R C.
Proof.
  unfold adjacent_counts, all_positions. rewrite dom_list_to_map_L.
  rewrite <- list_fmap_compose.
  rewrite (list_fmap_ext _ id (all_positions_list R C)) by done.
  by rewrite list_fmap_id.
Qed.

(** X10. In every engine of a session, once the mines are placed, the
    adjacency cache has exactly one entry per cell of the board; the entry
    of a cell is the number of mines among its neighbours, which is at most
    8; and [adjacent_cache.get(p, 0)] is 0 for a position off the board. *)
Theorem cache_counts_mines_around r c m g p :
  reachable any_position (new_game r c m) g →
  state g ≠ READY →
  dom (adjacent_cache g) = all_positions r c
  ∧ (in_bounds r c p →
       adjacent_cache g !! p = Some (size (neighbors p r c ∩ mines g)))
  ∧ (¬ in_bounds r c p → cached_count g p = 0%nat)
  ∧ (cached_count g p ≤ 8)%nat.
Proof.
  intros Hreach Hs.
  destruct (reachable_session_inv _ r c m g Hreach)
    as [(Hr & Hc & _) (_ & _ & Hplaced & _)]. fields.
  destruct (Hplaced Hs) as (_ & Hca & _). rewrite Hr, Hc in Hca.
  assert (¬ in_bounds r c p → cached_count g p = 0%nat) as Hoff.
  { intros Hp. unfold cached_count.
    by rewrite Hca, adjacent_counts_lookup_None. }
  split_and!; [|by intros Hp; rewrite Hca, adjacent_counts_lookup|done|].
  - rewrite Hca. apply dom_adjacent_counts.
  - destruct (decide (in_bounds r c p)) as [Hp|Hp].
    + unfold cached_count. rewrite Hca, adjacent_counts_lookup by done.
      cbn [default]. etrans; [|apply (size_neighbors_le_8 p r c)].
      apply subseteq_size. intros x Hx.
      by apply elem_of_intersection in Hx as [? _].
    + rewrite Hoff by done. lia.
Qed.

Lemma cache_counts_mines_around_witness :
  reachable any_position (new_game 2 8 1) chord_demo
  ∧ state chord_demo ≠ READY
  ∧ in_bounds 2 8 (mkPosition 1 6)
  ∧ ¬ in_bounds 2 8 (mkPosition 2 6)
  ∧ dom (adjacent_cache chord_demo) = all_positions 2 8
  ∧ adjacent_cache chord_demo !! mkPosition 1 6
    = Some (size (neighbors (mkPosition 1 6) 2 8 ∩ mines chord_demo))
  ∧ cached_count chord_demo (mkPosition 2 6) = 0%nat
  ∧ (cached_count chord_demo (mkPosition 1 6) ≤ 8)%nat.
Proof.
  assert (reachable any_position (new_game 2 8 1) chord_demo) as Hreach.
  { apply (reachable_mono (in_bounds 2 8)); [done|].
    apply chord_demo_reachable. }
  assert (state chord_demo ≠ READY) as Hs by decide_by_vm.
  assert (in_bounds 2 8 (mkPosition 1 6)) as Hin.
  { unfold in_bounds. cbn [row col]. lia. }
  assert (¬ in_bounds 2 8 (mkPosition 2 6)) as Hout.
  { unfold in_bounds. cbn [row col]. lia. }
  destruct (cache_counts_mines_around 2 8 1 chord_demo (mkPosition 1 6)
              Hreach Hs) as (Hdom & Hcount & _ & Hle).
  destruct (cache_counts_mines_around 2 8 1 chord_demo (mkPosition 2 6)
              Hreach Hs) as (_ & _ & Hoff & _).
  split_and!; [exact Hreach|exact Hs|exact Hin|exact Hout|exact Hdom
              |by apply Hcount|by apply Hoff|exact Hle].
Defined.

Lemma DIFFICULTY_PRESETS_inv name r c m :
  DIFFICULTY_PRESETS !! name = Some (r, c, m) →
  (r, c, m) = (9, 9, 10) ∨ (r, c, m) = (16, 16, 40)
  ∨ (r, c, m) = (16, 30, 99).
Proof.
  intros H. unfold DIFFICULTY_PRESETS in H.
  apply elem_of_list_to_map_2 in H.
  rewrite !elem_of_cons, elem_of_nil in H.
  destruct H as [H|[H|[H|[]]]]; injection H as _ -> -> ->; auto.
Qed.

(** X11. For each of the three difficulty presets and for every first
    click, on the board or not, and every draw, [initialize_mines] places
    exactly the preset's number of mines, caches exactly [rows * cols]
    adjacency counts, and starts the game. *)
Theorem presets_place_all_mines name r c m first_click w :
  DIFFICULTY_PRESETS !! name = Some (r, c, m) →
  ∃ g' w',
    initialize_mines first_click (new_game r c m) w = Done (g', w')
    ∧ Z.of_nat (size (mines g')) = m
    ∧ Z.of_nat (size (adjacent_cache g')) = r * c
    ∧ state g' = PLAYING.
Proof.
  intros Hpreset.
  assert (0 ≤ m ∧ 0 ≤ r ∧ 0 ≤ c ∧ m + 10 ≤ r * c) as (Hm & Hr & Hc & Hroom).
  { apply DIFFICULTY_PRESETS_inv in Hpreset
      as [[= -> -> ->]|[[= -> -> ->]|[= -> -> ->]]]; lia. }
  destruct (initialize_mines_Done first_click (new_game r c m) w)
    as (g' & w' & Hrun & Hplaced & _); [done|].
  destruct Hplaced as (_&_&_& Hst &_&_&_&_&_& Hsize & Hca). fields.
  exists g', w'. split_and!; try done.
  - pose proof (size_available_ge (new_game r c m) first_click) as Hge.
    rewrite size_all_positions in Hge. fields. nia.
  - rewrite Hca, <- size_dom, dom_adjacent_counts, size_all_positions. nia.
Qed.

Lemma presets_place_all_mines_witness :
  DIFFICULTY_PRESETS !! "Expert"%string = Some (16, 30, 99)
  ∧ ∃ g' w',
      initialize_mines (mkPosition 0 0) (new_game 16 30 99)
        (mkWorld [11; 22; 33]%nat [7]) = Done (g', w')
      ∧ Z.of_nat (size (mines g')) = 99
      ∧ Z.of_nat (size (adjacent_cache g')) = 16 * 30
      ∧ state g' = PLAYING.
Proof.
  assert (DIFFICULTY_PRESETS !! "Expert"%string = Some (16, 30, 99)) as H
    by (vm_compute; reflexivity).
  split; [exact H|]. by apply (presets_place_all_mines "Expert").
Defined.

(** ** The flood fill on a board without flags *)

Lemma zero_region_zero g pos c :
  zero_region g pos c → cached_count g c = 0%nat.
Proof. by destruct 1. Qed.

(** X12. Where no flag stands in the way the flood fill opens the whole
    region: if the game is on, no cell is flagged, and every revealed cell
    of zero adjacency already has all its neighbours revealed, then
    [reveal_cell pos] on a hidden cell that is no mine reveals every cell
    of zero adjacency connected to [pos] and every cell that borders one of
    them, and afterwards every revealed cell of zero adjacency again has
    all its neighbours revealed. *)
Theorem flood_fill_opens_zero_region g pos w :
  state g = PLAYING → pos ∉ revealed g → pos ∉ mines g → flags g = ∅ →
  (∀ c n, c ∈ revealed g → cached_count g c = 0%nat →
          n ∈ neighbors c (rows g) (cols g) → n ∈ revealed g) →
  ∃ g' w',
    reveal_cell pos g w = Done (true, g', w')
    ∧ (∀ c, zero_region_with_border g pos c → c ∈ revealed g')
    ∧ (∀ c n, c ∈ revealed g' → cached_count g' c = 0%nat →
              n ∈ neighbors c (rows g') (cols g') → n ∈ revealed g').
Proof.
  intros Hs Hpr Hpm Hnoflags Hclosed.
  destruct (reveal_cell_Done pos g w) as (b & g' & w' & Hrun).
  { intros E. congruence. }
  pose proof Hrun as Hinv.
  apply reveal_cell_inv in Hinv as (g1 & w1 & Hstage1 & Hstage2).
  destruct Hstage1 as [[E _]|(_ & -> & ->)]; [congruence|].
  assert (¬ blocked g pos) as Hnb.
  { unfold blocked. rewrite Hs, Hnoflags.
    intros [[? _]|[?|?%elem_of_empty]]; done. }
  destruct Hstage2 as [(? & _)|[(_ & ? & _)|
    (_ & _ & -> & g2 & w2 & Hfill & Hend)]]; [done|done|].
  destruct (flood_fill_result g pos _ w g2 w2 Hpr Hfill)
    as (Hfr & Hrev & _).
  assert (revealed g' = revealed g2 ∧ rows g' = rows g ∧ cols g' = cols g
          ∧ ∀ c, cached_count g' c = cached_count g c)
    as (Hrev' & Hrows & Hcols & Hcc).
  { pose proof Hfr as (?&?&_).
    destruct Hend as [(_ & -> & _)|(_ & -> & _)].
    - unfold win. fields. split_and!; try done.
      intros c. apply (same_frame_cached_count g g2 c Hfr).
    - split_and!; try done. intros c.
      apply (same_frame_cached_count g g2 c Hfr). }
  assert (∀ c n, c ∈ revealed g2 → cached_count g c = 0%nat →
                 n ∈ neighbors c (rows g) (cols g) → n ∈ revealed g2)
    as Hclosed2.
  { intros c n Hc Hz Hn. apply Hrev.
    destruct (decide (n ∈ revealed g)) as [|Hnr]; [by left|].
    apply Hrev in Hc as [Hc|Hc].
    - left. by apply (Hclosed c n).
    - right. apply (flood_reach_step g pos c n); try done.
      rewrite Hnoflags. apply not_elem_of_empty. }
  assert (∀ c, zero_region g pos c → c ∈ revealed g2) as Hregion.
  { intros c Hc. induction Hc as [Hz|c n Hc IH Hn Hz].
    - apply Hrev. right. constructor.
    - apply (Hclosed2 c n); [done| |done]. by apply (zero_region_zero g pos). }
  exists g', w'. rewrite Hrev', Hrows, Hcols. split_and!; [done| |].
  - intros c [Hc|(z & Hz & Hn)]; [by apply Hregion|].
    apply (Hclosed2 z c); [by apply Hregion| |done].
    by apply (zero_region_zero g pos).
  - intros c n Hc Hz Hn. rewrite Hcc in Hz. by apply (Hclosed2 c n).
Qed.

Lemma first_click_demo_closed :
  ∀ c n, c ∈ revealed first_click_demo →
         cached_count first_click_demo c = 0%nat →
         n ∈ neighbors c (rows first_click_demo) (cols first_click_demo) →
         n ∈ revealed first_click_demo.
Proof.
  assert (set_Forall
            (λ c, cached_count first_click_demo c = 0%nat →
                  neighbors c (rows first_click_demo) (cols first_click_demo)
                  ⊆ revealed first_click_demo)
            (revealed first_click_demo)) as H by decide_by_vm.
  intros c n Hc Hz Hn. by apply (H c Hc Hz).
Qed.

Lemma flood_fill_opens_zero_region_witness :
  state first_click_demo = PLAYING
  ∧ (mkPosition 0 7 ∉ revealed first_click_demo)
  ∧ (mkPosition 0 7 ∉ mines first_click_demo)
  ∧ flags first_click_demo = ∅
  ∧ zero_region_with_border first_click_demo (mkPosition 0 7)
      (mkPosition 1 6)
  ∧ ∃ g' w',
      reveal_cell (mkPosition 0 7) first_click_demo (mkWorld [] [150])
      = Done (true, g', w')
      ∧ mkPosition 1 6 ∈ revealed g'.
Proof.
  assert (state first_click_demo = PLAYING) as H1 by decide_by_vm.
  assert (mkPosition 0 7 ∉ revealed first_click_demo) as H2 by decide_by_vm.
  assert (mkPosition 0 7 ∉ mines first_click_demo) as H3 by decide_by_vm.
  assert (flags first_click_demo = ∅) as H4 by decide_by_vm.
  assert (zero_region_with_border first_click_demo (mkPosition 0 7)
            (mkPosition 1 6)) as H5.
  { right. exists (mkPosition 0 7). split; [constructor|]; decide_by_vm. }
  destruct (flood_fill_opens_zero_region first_click_demo (mkPosition 0 7)
              (mkWorld [] [150]) H1 H2 H3 H4 first_click_demo_closed)
    as (g' & w' & Hrun & Hall & _).
  split_and!; [exact H1|exact H2|exact H3|exact H4|exact H5|].
  exists g', w'. split; [exact Hrun|]. by apply Hall.
Defined.

(** * The application *)

(** ** The monad of the handlers *)

Lemma gbind_Handled {A B} (m : G A) (f : A → G B) w r :
  (m ≫= f) w = Handled r
  ↔ ∃ a w', m w = Handled (a, w') ∧ f a w' = Handled r.
Proof.
  unfold mbind, G_bind. destruct (m w) as [[a w']| |]; split.
  - intros Hf. by exists a, w'.
  - by intros (? & ? & [= <- <-] & ?).
  - done.
  - by intros (? & ? & ? & _).
  - done.
  - by intros (? & ? & ? & _).
Qed.

Lemma gbind_step {A B} (m : G A) (f : A → G B) w a w' :
  m w = Handled (a, w') → (m ≫= f) w = f a w'.
Proof. intros Hm. unfold mbind, G_bind. by rewrite Hm. Qed.

Lemma gret_Handled {A} (a : A) w r :
  (mret a : G A) w = Handled r ↔ r = (a, w).
Proof. unfold mret, G_ret. split; [by intros [= <-]|by intros ->]. Qed.

Lemma engine_Handled {A} (m : M A) w r :
  engine m w = Handled r ↔ m w = Done r.
Proof.
  unfold engine. destruct (m w); split; try done; by intros [= ->].
Qed.

(** ** Loops over the cells *)

Lemma set_cells_cells self : set_cells (cells self) self = self.
Proof. by destruct self. Qed.

Lemma dom_alter_all h xs m : dom (alter_all h xs m) = dom m.
Proof.
  revert m. induction xs as [|x xs IH]; intros m; [done|].
  unfold alter_all in *. cbn [foldl]. by rewrite IH, dom_alter_L.
Qed.

Lemma lookup_alter_all h xs m p :
  NoDup xs →
  alter_all h xs m !! p
  = if decide (p ∈ xs) then h p <$> m !! p else m !! p.
Proof.
  revert m. induction xs as [|x xs IH]; intros m Hnd.
  { rewrite decide_False; [done|]. apply not_elem_of_nil. }
  apply NoDup_cons in Hnd as [Hx Hnd].
  unfold alter_all in *. cbn [foldl]. rewrite IH by done.
  destruct (decide (p = x)) as [->|Hne].
  - rewrite (decide_False (P:=x ∈ xs)) by done.
    rewrite decide_True by apply list_elem_of_here.
    by rewrite lookup_alter_eq.
  - rewrite lookup_alter_ne by done.
    destruct (decide (p ∈ xs)) as [Hp|Hp].
    + rewrite decide_True; [done|]. by apply list_elem_of_further.
    + rewrite decide_False; [done|].
      by intros [?|?]%elem_of_cons.
Qed.

Lemma for_each_alter (f : Position → MinesweeperGUI → G MinesweeperGUI)
    h xs self w :
  (∀ x s w, game s = game self → is_Some (cells s !! x) →
            f x s w = Handled (set_cells (alter (h x) x (cells s)) s, w)) →
  Forall (λ x, is_Some (cells self !! x)) xs →
  for_each f xs self w
  = Handled (set_cells (alter_all h xs (cells self)) self, w).
Proof.
  revert self. induction xs as [|x xs IH]; intros self Hf Hxs.
  { cbn [for_each]. unfold alter_all. cbn [foldl].
    by rewrite set_cells_cells. }
  apply Forall_cons in Hxs as [Hx Hxs]. cbn [for_each].
  rewrite (gbind_step _ _ w _ w (Hf x self w eq_refl Hx)).
  rewrite IH; [done| |].
  - intros y s wy Hs Hy. apply Hf; [|done]. by rewrite Hs.
  - gui_fields. eapply Forall_impl; [exact Hxs|].
    intros y Hy. by apply lookup_alter_is_Some.
Qed.

Lemma config_cell_Handled f pos self w :
  is_Some (cells self !! pos) →
  config_cell f pos self w
  = Handled (set_cells (alter f pos (cells self)) self, w).
Proof. intros [c Hc]. unfold config_cell. by rewrite Hc. Qed.

Lemma in_dom_cells (self : MinesweeperGUI) (X : gset Position) :
  X ⊆ dom (cells self) →
  Forall (λ x, is_Some (cells self !! x)) (elements X).
Proof.
  intros HX. apply Forall_forall. intros x Hx%elem_of_elements.
  by apply elem_of_dom, HX.
Qed.

(** ** The engine of the application *)

Lemma reveal_cell_blocked pos g w :
  state g ≠ READY → blocked g pos →
  reveal_cell pos g w = Done (false, g, w).
Proof.
  intros Hs Hb.
  destruct (reveal_cell_Done pos g w) as (b & g' & w' & Hrun); [done|].
  pose proof Hrun as Hinv.
  apply reveal_cell_inv in Hinv as (g1 & w1 & Hstage1 & Hstage2).
  destruct Hstage1 as [[? _]|(_ & -> & ->)]; [done|].
  destruct Hstage2 as [(_ & -> & -> & ->)|[(? & _)|(? & _)]]; done.
Qed.

Lemma reveal_cell_leaves_ready pos g w b g' w' :
  reveal_cell pos g w = Done (b, g', w') → state g' ≠ READY.
Proof.
  intros Hrun. destruct (decide (state g = READY)) as [Hs|Hs].
  2:{ apply reveal_cell_frame in Hrun as (_ & _ & Hfix & _).
      by destruct (Hfix Hs) as (_ & _ & _ & ?). }
  apply reveal_cell_inv in Hrun as (g1 & w1 & Hstage1 & Hstage2).
  destruct Hstage1 as [[_ Hinit]|(? & _)]; [|done].
  apply initialize_mines_inv in Hinit as (_ & (_&_&_& Hst &_) & _).
  destruct Hstage2 as [(_ & _ & -> & _)|[(_ & _ & _ & -> & _)|
    (Hnb & _ & _ & g2 & w2 & Hfill & Hend)]]; [by rewrite Hst|done|].
  assert (pos ∉ revealed g1) as Hpr.
  { intros ?. apply Hnb. right. by left. }
  destruct (flood_fill_result g1 pos _ w1 g2 w2 Hpr Hfill)
    as ((_&_&_& Hst2 &_) & _).
  destruct Hend as [(_ & -> & _)|(_ & -> & _)]; [done|].
  by rewrite Hst2, Hst.
Qed.

(** Only a win changes the flags, and a call that returns [False] wins
    nothing. *)
Lemma reveal_cell_flags pos g w b g' w' :
  reveal_cell pos g w = Done (b, g', w') →
  (state g' ≠ WON → flags g' = flags g)
  ∧ (b = false → state g ≠ WON → state g' ≠ WON).
Proof.
  intros Hrun.
  apply reveal_cell_inv in Hrun as (g1 & w1 & Hstage1 & Hstage2).
  assert (flags g1 = flags g ∧ (state g ≠ WON → state g1 ≠ WON))
    as [Hf1 Hs1].
  { destruct Hstage1 as [[_ Hinit]|(_ & -> & _)]; [|done].
    apply initialize_mines_inv in Hinit
      as (_ & (_&_&_& Hst &_&_&_& Hfl &_) & _).
    split; [done|]. by rewrite Hst. }
  destruct Hstage2 as [(_ & -> & -> & _)|[(_ & _ & -> & -> & _)|
    (Hnb & _ & -> & g2 & w2 & Hfill & Hend)]].
  - by split.
  - unfold lose. fields. by split.
  - split; [|done]. assert (pos ∉ revealed g1) as Hpr.
    { intros ?. apply Hnb. right. by left. }
    destruct (flood_fill_result g1 pos _ w1 g2 w2 Hpr Hfill)
      as ((_&_&_&_&_&_&_& Hfl2 &_) & _).
    destruct Hend as [(_ & -> & _)|(_ & -> & _)].
    + unfold win. fields. done.
    + intros _. by rewrite Hfl2.
Qed.

Lemma session_inv_game_over g :
  session_inv g → state g ≠ READY → session_inv (set_state LOST g).
Proof.
  intros (Hm & _ & Hplaced & _) Hs.
  unfold session_inv, available, safe_zone. fields.
  split_and!; try done. intros _. by apply Hplaced.
Qed.

Lemma app_inv_config g g' :
  same_config g g' → session_inv g' → board_inv g' → state g' ≠ READY →
  app_inv g → app_inv g'.
Proof.
  intros (Hr & Hc & Ht) Hinv Hbd Hs ([name Hname] & _).
  unfold app_inv. rewrite Hr, Hc, Ht. split_and!; try done. by exists name.
Qed.

Lemma app_inv_reveal pos g w b g' w' :
  app_inv g → in_bounds (rows g) (cols g) pos →
  reveal_cell pos g w = Done (b, g', w') →
  app_inv g' ∧ same_config g g' ∧ state g' ≠ READY.
Proof.
  intros Hg Hpos Hrun. pose proof Hg as (_ & Hinv & Hbd & _).
  destruct (session_inv_reveal pos g w b g' w' Hinv Hrun) as [Hinv' Hcfg].
  pose proof (board_inv_reveal pos g w b g' w' Hinv Hbd Hpos Hrun) as Hbd'.
  pose proof (reveal_cell_leaves_ready pos g w b g' w' Hrun) as Hs'.
  split_and!; try done. by apply (app_inv_config g g').
Qed.

Lemma app_inv_game_over g :
  app_inv g → state g ≠ READY → app_inv (set_state LOST g).
Proof.
  intros Hg Hs. pose proof Hg as (_ & Hinv & Hbd & _).
  apply (app_inv_config g); try done.
  by apply session_inv_game_over.
Qed.

Lemma app_inv_fresh name r c m :
  DIFFICULTY_PRESETS !! name = Some (r, c, m) → app_inv (new_game r c m).
Proof.
  intros Hname. unfold app_inv. split_and!.
  - by exists name.
  - apply session_inv_new_game.
  - unfold board_inv. fields. by split_and!.
  - done.
Qed.

Lemma app_inv_toggle pos g :
  app_inv g → in_bounds (rows g) (cols g) pos → app_inv (toggle_flag pos g).
Proof.
  intros ([name Hname] & Hinv & Hbd & Hready) Hpos.
  destruct (toggle_flag_frame pos g) as ((Hr & Hc & Ht) &_&_& Hca &_& Hst).
  unfold app_inv. rewrite Hr, Hc, Ht, Hst, Hca.
  split_and!; [by exists name|by apply session_inv_toggle| |done].
  by apply board_inv_toggle.
Qed.

(** What a chord keeps: the invariant, the board, and the flags unless it
    wins. *)
Lemma app_inv_chord pos g w b g' w' :
  app_inv g → auto_reveal_neighbors pos g w = Done (b, g', w') →
  app_inv g' ∧ same_config g g' ∧ (state g' ≠ WON → flags g' = flags g).
Proof.
  intros Hg Hrun.
  apply (auto_reveal_preserves (in_bounds (rows g) (cols g))
           (λ x, app_inv x ∧ same_config g x
                 ∧ (state x ≠ WON → flags x = flags g)) pos g w b g' w');
    [| |split_and!; [done|apply same_config_refl|done]|done].
  - intros p x wx bx x' wx' Hp (Hx & (Hr & Hc & Ht) & Hfl) Hx'.
    destruct (app_inv_reveal p x wx bx x' wx' Hx) as (? & Hcfg & _);
      [by rewrite Hr, Hc|done|].
    split_and!; [done|by eapply same_config_trans|].
    intros Hw. destruct (reveal_cell_flags p x wx bx x' wx' Hx') as [Hfl' _].
    rewrite (Hfl' Hw). apply Hfl. intros Hxw.
    apply reveal_cell_frame in Hx' as (_ & _ & _ & Hend).
    destruct Hend as (-> & _); [by left|done].
  - intros n Hn. apply elem_of_all_positions.
    by apply (neighbors_in_bounds pos).
Qed.

Lemma app_inv_count_le_8 g pos : app_inv g → (cached_count g pos ≤ 8)%nat.
Proof.
  intros (_ & Hinv & _ & Hready).
  destruct (decide (state g = READY)) as [Hs|Hs].
  { unfold cached_count. rewrite (Hready Hs), lookup_empty. cbn. lia. }
  destruct Hinv as (_ & _ & Hplaced & _).
  destruct (Hplaced Hs) as (_ & Hca & _). unfold cached_count. rewrite Hca.
  destruct (decide (in_bounds (rows g) (cols g) pos)) as [Hp|Hp].
  - rewrite adjacent_counts_lookup by done. cbn [default].
    etrans; [|apply (size_neighbors_le_8 pos (rows g) (cols g))].
    apply subseteq_size. intros x Hx.
    by apply elem_of_intersection in Hx as [? _].
  - rewrite adjacent_counts_lookup_None by done. cbn. lia.
Qed.

Lemma pretty_count_not_mine_glyph (n : nat) :
  (n ≤ 8)%nat → pretty n ≠ "💣"%string.
Proof.
  intros Hn. do 9 (destruct n as [|n]; [by vm_compute|]). lia.
Qed.

(** ** What a cell shows *)

Lemma cell_options_shown g pos :
  (cached_count g pos ≤ 8)%nat → cell_options g pos = inr (shown g pos).
Proof.
  intros Hle. unfold shown.
  destruct (cell_options g pos) as [e|cfg] eqn:E; [exfalso|done].
  unfold cell_options in E.
  assert (∃ color, (if decide (cached_count g pos = 0%nat)
                    then Some COLORS_text
                    else COLORS_numbers !! cached_count g pos) = Some color)
    as [color Hcolor].
  { destruct (decide (cached_count g pos = 0%nat)); [by eexists|].
    apply lookup_lt_is_Some_2. cbn. lia. }
  rewrite Hcolor in E. cbv zeta in E.
  by destruct (dict_get _ _ _) as [[? ?] ?].
Qed.

(** The options of a cell, case by case, where no revealed cell is a mine
    and no flagged cell is revealed. *)
Lemma shown_cases g pos :
  (cached_count g pos ≤ 8)%nat → flags g ## revealed g →
  revealed g ## mines g →
  cfg_text (shown g pos)
  = (if decide (pos ∈ flags g) then
       if decide (pos ∈ mines g ∧ state g = LOST) then ""%string
       else "🚩"%string
     else if decide (pos ∈ revealed g) then
       if decide (cached_count g pos = 0%nat) then ""%string
       else pretty (cached_count g pos)
     else ""%string)
  ∧ cfg_bg (shown g pos)
    = (if decide (pos ∈ revealed g) then COLORS_cell_revealed
       else COLORS_cell_hidden)
  ∧ cfg_relief (shown g pos)
    = (if decide (pos ∈ revealed g) then "sunken"%string
       else "raised"%string)
  ∧ cfg_text (shown g pos) ≠ "💣"%string.
Proof.
  intros Hle Hfr Hrm.
  pose proof (pretty_count_not_mine_glyph _ Hle) as Hglyph.
  unfold shown, cell_options.
  set (count := cached_count g pos) in *.
  set (s := pretty count) in *. clearbody s.
  assert (∃ col, (if decide (count = 0%nat) then Some COLORS_text
                  else COLORS_numbers !! count) = Some col) as [col ->].
  { destruct (decide (count = 0%nat)); [by eexists|].
    apply lookup_lt_is_Some_2. cbn. lia. }
  cbv zeta.
  destruct (decide (pos ∈ revealed g)) as [Hr|Hr];
    destruct (decide (pos ∈ flags g)) as [Hf|Hf];
    destruct (decide (pos ∈ mines g ∧ state g = LOST)) as [Hm|Hm];
    try (exfalso; by apply (Hfr pos));
    try (exfalso; destruct Hm as [Hm _]; by apply (Hrm pos));
    rewrite ?(bool_decide_eq_true_2 _ Hr), ?(bool_decide_eq_false_2 _ Hr),
      ?(bool_decide_eq_true_2 _ Hf), ?(bool_decide_eq_false_2 _ Hf),
      ?(bool_decide_eq_true_2 _ Hm), ?(bool_decide_eq_false_2 _ Hm);
    destruct (decide (count = 0%nat));
    cbn [dict_get decide_rel cfg_text cfg_bg cfg_relief];
    split_and!; done.
Qed.

Lemma update_cell_Handled pos self w :
  (cached_count (game self) pos ≤ 8)%nat → is_Some (cells self !! pos) →
  _update_cell pos self w
  = Handled (set_cells (alter (λ _, shown (game self) pos) pos (cells self))
               self, w).
Proof.
  intros Hle Hpos. unfold _update_cell.
  rewrite (cell_options_shown _ _ Hle).
  destruct Hpos as [c Hc]. rewrite Hc. by apply config_cell_Handled.
Qed.

Lemma alter_const_insert (m : gmap Position CellConfig) pos cfg :
  is_Some (m !! pos) → alter (λ _, cfg) pos m = <[pos := cfg]> m.
Proof.
  intros [c Hc]. apply map_eq. intros p.
  destruct (decide (p = pos)) as [->|Hne].
  - by rewrite lookup_alter_eq, lookup_insert_eq, Hc.
  - by rewrite lookup_alter_ne, lookup_insert_ne.
Qed.

(** ** The display functions, run *)

Lemma for_each_update_cell (X : gset Position) self w :
  (∀ pos, (cached_count (game self) pos ≤ 8)%nat) →
  X ⊆ dom (cells self) →
  for_each _update_cell (elements X) self w
  = Handled (set_cells
               (alter_all (λ x _, shown (game self) x) (elements X)
                  (cells self)) self, w).
Proof.
  intros Hle HX. apply for_each_alter; [|by apply in_dom_cells].
  intros x s wx Hs Hx. rewrite <- Hs. apply update_cell_Handled; [|done].
  rewrite Hs. apply Hle.
Qed.

Lemma for_each_config_cell f (X : gset Position) self w :
  X ⊆ dom (cells self) →
  for_each (config_cell f) (elements X) self w
  = Handled (set_cells (alter_all (λ _, f) (elements X) (cells self)) self,
             w).
Proof.
  intros HX. apply for_each_alter; [|by apply in_dom_cells].
  intros x s wx _ Hx. by apply config_cell_Handled.
Qed.

Lemma flash_Handled index self w :
  (∀ pos, (cached_count (game self) pos ≤ 8)%nat) →
  flags (game self) ⊆ dom (cells self) →
  ∃ cs, flash index self w = Handled (set_cells cs self, w)
        ∧ dom cs = dom (cells self).
Proof.
  intros Hle Hfl. unfold flash. destruct (decide (index < 5)%nat) as [Hi|Hi].
  - destruct (lookup_lt_is_Some_2 celebrate_colors index) as [color Hcolor].
    { cbn. lia. }
    rewrite Hcolor. eexists. split.
    + by apply (for_each_config_cell (show_bg color)).
    + apply dom_alter_all.
  - eexists. split; [by apply for_each_update_cell|apply dom_alter_all].
Qed.

Lemma game_over_Handled self w :
  mines (game self) ⊆ dom (cells self) →
  flags (game self) ⊆ dom (cells self) →
  _game_over self w
  = Handled
      (set_cells
         (alter_all (λ _, show_wrong_flag)
            (elements (flags (game self) ∖ mines (game self)))
            (alter_all (λ _, show_mine) (elements (mines (game self)))
               (cells self)))
         (set_new_game_btn "😵" (set_game (set_state LOST (game self)) self)),
       w).
Proof.
  intros Hm Hf. unfold _game_over. cbv zeta.
  erewrite gbind_step; [|by apply for_each_config_cell].
  gui_fields. fields. rewrite for_each_config_cell; [done|].
  gui_fields. rewrite dom_alter_all. intros x Hx.
  apply elem_of_difference in Hx as [Hx _]. by apply Hf.
Qed.

Lemma update_timer_Handled self w :
  ∃ t w', _update_timer self w = Handled (set_timer_label t self, w')
          ∧ t ≤ 999.
Proof.
  unfold _update_timer.
  destruct (decide (state (game self) = WON ∨ state (game self) = LOST)).
  { eexists _, w. split; [done|]. lia. }
  destruct (decide (start_time (game self) ≠ 0)).
  - eexists _, _. split; [done|]. lia.
  - eexists _, w. split; [done|]. lia.
Qed.

Lemma redraw_refl self : redraw self self.
Proof. by unfold redraw. Qed.

Lemma redraw_trans s1 s2 s3 : redraw s1 s2 → redraw s2 s3 → redraw s1 s3.
Proof.
  intros (Hg & Hd & Hm & Ht) (Hg' & Hd' & Hm' & Ht'). unfold redraw.
  rewrite Hg', Hg, Hd', Hd, Hm', Hm. split_and!; auto.
Qed.

Lemma redraw_set_cells cs self :
  dom cs = dom (cells self) → redraw self (set_cells cs self).
Proof. intros Hd. unfold redraw. gui_fields. by split_and!. Qed.

Lemma gui_inv_redraw self self' :
  gui_inv self → redraw self self' → gui_inv self'.
Proof.
  intros (Hg & Hd & Ht & Hm0 & Hm) (Hg' & Hd' & Hm' & Ht').
  unfold gui_inv. rewrite Hg', Hd', Hm'. split_and!; auto.
Qed.

Lemma gui_inv_cells self X :
  gui_inv self → X ⊆ all_positions (rows (game self)) (cols (game self)) →
  X ⊆ dom (cells self).
Proof. intros (_ & Hd & _) HX. by rewrite Hd. Qed.

Lemma gui_inv_flags self : gui_inv self → flags (game self) ⊆ dom (cells self).
Proof.
  intros Hinv. apply gui_inv_cells; [done|].
  by destruct Hinv as ((_ & _ & (_ & ? & _) & _) & _).
Qed.

Lemma gui_inv_mines self : gui_inv self → mines (game self) ⊆ dom (cells self).
Proof.
  intros Hinv. apply gui_inv_cells; [done|].
  by destruct Hinv as ((_ & (? & _) & _) & _).
Qed.

Lemma gui_inv_count self pos :
  gui_inv self → (cached_count (game self) pos ≤ 8)%nat.
Proof. intros [Hg _]. by apply app_inv_count_le_8. Qed.

(** [_update_board] redraws; short of a win, it sets every cell to what
    [_update_cell] computes for it. *)
Lemma update_board_spec self w :
  gui_inv self →
  ∃ self',
    _update_board self w = Handled (self', w)
    ∧ redraw self self'
    ∧ timer_job self' = timer_job self
    ∧ (state (game self) ≠ WON →
         self' = set_cells
                   (alter_all (λ x _, shown (game self) x)
                      (elements (dom (cells self))) (cells self)) self).
Proof.
  intros Hinv. unfold _update_board.
  erewrite gbind_step;
    [|apply for_each_update_cell; [intros; by apply gui_inv_count|done]].
  gui_fields. destruct (decide (state (game self) = WON)) as [Hw|Hw].
  - unfold _game_won, _celebrate.
    edestruct (flash_Handled 0) as (cs & -> & Hcs).
    { gui_fields. intros pos. by apply gui_inv_count. }
    { gui_fields. rewrite dom_alter_all. by apply gui_inv_flags. }
    gui_fields. rewrite dom_alter_all in Hcs.
    eexists. split; [done|]. unfold redraw. gui_fields. by split_and!.
  - eexists. split; [done|]. split_and!; try done.
    apply redraw_set_cells, dom_alter_all.
Qed.

Lemma game_over_spec self w :
  gui_inv self → state (game self) ≠ READY → state (game self) ≠ WON →
  ∃ self',
    _game_over self w = Handled (self', w)
    ∧ gui_inv self'
    ∧ game self' = set_state LOST (game self).
Proof.
  intros Hinv Hr Hw.
  rewrite game_over_Handled by (by apply gui_inv_mines || by apply gui_inv_flags).
  eexists. split; [done|].
  destruct Hinv as (Hg & Hd & Ht & Hm0 & Hm).
  split; [|done]. unfold gui_inv, remaining_mines in *. gui_fields. fields.
  rewrite !dom_alter_all. split_and!; try done; [|by auto].
  by apply app_inv_game_over.
Qed.

Lemma tick_spec self w :
  ∃ self' w', tick self w = Handled (self', w') ∧ redraw self self'.
Proof.
  unfold tick. destruct (decide (state (game self) = PLAYING)).
  - destruct (update_timer_Handled self w) as (t & w' & Hrun & Ht).
    erewrite gbind_step by exact Hrun.
    eexists _, _. split; [done|]. unfold redraw. gui_fields. by split_and!.
  - eexists _, _. split; [done|]. apply redraw_refl.
Qed.

Lemma hover_spec color pos self w :
  is_Some (cells self !! pos) →
  ∃ self', hover color pos self w = Handled (self', w) ∧ redraw self self'.
Proof.
  intros Hpos. unfold hover. destruct (decide _).
  - rewrite config_cell_Handled by done. eexists. split; [done|].
    apply redraw_set_cells, dom_alter_L.
  - eexists. split; [done|]. apply redraw_refl.
Qed.

Lemma flash_spec index self w :
  gui_inv self →
  ∃ self', flash index self w = Handled (self', w) ∧ redraw self self'.
Proof.
  intros Hinv. destruct (flash_Handled index self w) as (cs & -> & Hcs).
  { intros pos. by apply gui_inv_count. }
  { by apply gui_inv_flags. }
  eexists. split; [done|]. by apply redraw_set_cells.
Qed.

Lemma dom_fresh_cells R C :
  dom (list_to_map ((λ p, (p, _create_cell p)) <$> all_positions_list R C)
         : gmap Position CellConfig)
  = all_positions R C.
Proof.
  unfold all_positions. rewrite dom_list_to_map_L.
  rewrite <- list_fmap_compose.
  rewrite (list_fmap_ext _ id (all_positions_list R C)) by done.
  by rewrite list_fmap_id.
Qed.

Lemma remaining_mines_fresh r c m : 0 ≤ remaining_mines (new_game r c m).
Proof. unfold remaining_mines. lia. Qed.

(** [gui_new_game] on the engine [g'] that it makes. *)
Lemma gui_new_game_fresh name r c m self w (g' : G MinesweeperGame) :
  DIFFICULTY_PRESETS !! name = Some (r, c, m) →
  g' w = Handled (new_game r c m, w) →
  ∃ self',
    (g' ≫= λ game,
       let self := set_game game self in
       let self :=
         set_cells
           (list_to_map
              ((λ p, (p, _create_cell p))
                 <$> all_positions_list (rows game) (cols game))) self in
       let self := _update_mine_counter self in
       self ← _update_timer self;
       let self := set_new_game_btn "😊" self in
       mret (set_timer_job false self)) w = Handled (self', w)
    ∧ gui_inv self' ∧ game self' = new_game r c m.
Proof.
  intros Hname Hg. erewrite gbind_step by exact Hg. cbv zeta.
  unfold _update_timer. gui_fields. fields.
  rewrite decide_False by (intros [?|?]; done).
  rewrite decide_False by (intros ?; done).
  eexists. split; [done|]. split; [|done].
  unfold gui_inv. gui_fields. fields. rewrite dom_fresh_cells.
  split_and!; try done.
  - by apply (app_inv_fresh name).
  - apply remaining_mines_fresh.
Qed.

Lemma gui_new_game_spec difficulty self w :
  (∃ name, DIFFICULTY_PRESETS !! name
           = Some (rows (game self), cols (game self),
                   total_mines (game self))) →
  offered self (NewGame difficulty) →
  ∃ self',
    gui_new_game difficulty self w = Handled (self', w) ∧ gui_inv self'.
Proof.
  intros [name0 Hname0] Hoff. unfold gui_new_game.
  destruct difficulty as [name|]; cbn [offered] in Hoff.
  - destruct Hoff as [[[r c] m] Hname].
    destruct (gui_new_game_fresh name r c m self w
                (if decide (name = ""%string) then mret (reset (game self))
                 else match DIFFICULTY_PRESETS !! name with
                      | Some (rows, cols, mines) =>
                          mret (new_game rows cols mines)
                      | None => gui_raise (Exn KeyError)
                      end) Hname) as (self' & Hrun & Hinv & _).
    { rewrite decide_False; [by rewrite Hname|].
      intros ->. by vm_compute in Hname. }
    by exists self'.
  - destruct (gui_new_game_fresh name0 _ _ _ self w
                (mret (reset (game self))) Hname0)
      as (self' & Hrun & Hinv & _); [done|].
    by exists self'.
Qed.

Lemma gui_init_spec w :
  ∃ self, gui_init w = Handled (self, w) ∧ gui_inv self.
Proof.
  apply gui_new_game_spec.
  - exists "Beginner"%string. by vm_compute.
  - cbn [offered]. exists (9, 9, 10). by vm_compute.
Qed.

Lemma auto_reveal_not_playing pos g w :
  state g ≠ PLAYING → auto_reveal_neighbors pos g w = Done (false, g, w).
Proof.
  intros Hs. unfold auto_reveal_neighbors.
  by rewrite decide_True by (by right).
Qed.

Lemma gui_inv_preset self :
  gui_inv self → 0 ≤ total_mines (game self).
Proof.
  intros (([name Hname] & _) & _).
  apply DIFFICULTY_PRESETS_inv in Hname
    as [[= _ _ Ht]|[[= _ _ Ht]|[= _ _ Ht]]]; lia.
Qed.

Lemma offered_in_bounds self pos :
  gui_inv self → is_Some (cells self !! pos) →
  in_bounds (rows (game self)) (cols (game self)) pos.
Proof.
  intros (_ & Hd & _) Hpos. apply elem_of_all_positions.
  rewrite <- Hd. by apply elem_of_dom.
Qed.

(** The application once the engine call of a click has returned. *)
Lemma gui_inv_set_game self g1 :
  gui_inv self → app_inv g1 → same_config (game self) g1 →
  state (game self) ≠ WON ∨ state g1 = WON →
  (state g1 ≠ WON → flags g1 = flags (game self)) →
  gui_inv (set_game g1 self).
Proof.
  intros (Hg & Hd & Ht & Hm0 & Hm) Hg1 (Hr & Hc & Htm) Hs Hfl.
  unfold gui_inv. gui_fields. rewrite Hr, Hc. split_and!; try done.
  intros Hw. unfold remaining_mines. rewrite Htm, (Hfl Hw).
  apply Hm. by destruct Hs.
Qed.

Lemma left_click_spec pos self w :
  gui_inv self → is_Some (cells self !! pos) →
  ∃ self' w', _on_left_click pos self w = Handled (self', w') ∧ gui_inv self'.
Proof.
  intros Hinv Hpos. pose proof (offered_in_bounds _ _ Hinv Hpos) as Hin.
  unfold _on_left_click.
  destruct (decide (state (game self) = PLAYING ∨ state (game self) = READY))
    as [Hs|Hs]; [|by exists self, w].
  destruct (reveal_cell_Done pos (game self) w) as (b & g1 & w1 & Hrun).
  { intros _. by apply gui_inv_preset. }
  erewrite gbind_step by (apply engine_Handled; exact Hrun).
  cbv zeta. cbn [fst snd].
  destruct (app_inv_reveal pos _ w b g1 w1 (proj1 Hinv) Hin Hrun)
    as (Hg1 & Hcfg & Hr1).
  destruct (reveal_cell_flags pos _ w b g1 w1 Hrun) as [Hfl Hnw].
  assert (gui_inv (set_game g1 self)) as Hinv1.
  { apply gui_inv_set_game; try done. left. by destruct Hs as [-> | ->]. }
  destruct b.
  - destruct (update_board_spec _ w1 Hinv1) as (self2 & Hb & Hrd & _).
    erewrite gbind_step by exact Hb.
    pose proof (gui_inv_redraw _ _ Hinv1 Hrd) as Hinv2.
    destruct (decide _).
    + destruct (tick_spec self2 w1) as (self3 & w3 & Ht & Hrd3).
      exists self3, w3. split; [done|]. by apply (gui_inv_redraw self2).
    + by exists self2, w1.
  - destruct (game_over_spec (set_game g1 self) w1 Hinv1)
      as (self2 & Hrun2 & Hinv2 & _); [done| |by exists self2, w1].
    gui_fields. apply Hnw; [done|]. by destruct Hs as [-> | ->].
Qed.

Lemma right_click_Handled pos self w :
  gui_inv self → is_Some (cells self !! pos) →
  _on_right_click pos self w
  = Handled
      (_update_mine_counter
         (set_cells
            (alter (λ _, shown (toggle_flag pos (game self)) pos) pos
               (cells self))
            (set_game (toggle_flag pos (game self)) self)), w)
    ∧ gui_inv
        (_update_mine_counter
           (set_cells
              (alter (λ _, shown (toggle_flag pos (game self)) pos) pos
                 (cells self))
              (set_game (toggle_flag pos (game self)) self))).
Proof.
  intros Hinv Hpos. pose proof (offered_in_bounds _ _ Hinv Hpos) as Hin.
  pose proof (app_inv_toggle pos _ (proj1 Hinv) Hin) as Hg1.
  split.
  - unfold _on_right_click. cbv zeta.
    by rewrite (gbind_step _ _ w _ w
                  (update_cell_Handled pos
                     (set_game (toggle_flag pos (game self)) self) w
                     (app_inv_count_le_8 _ pos Hg1) Hpos)).
  - destruct (toggle_flag_frame pos (game self)) as ((Hr & Hc & _) & _).
    destruct Hinv as (Hg & Hd & Ht & Hm0 & Hm).
    unfold gui_inv. gui_fields.
    rewrite dom_alter_L, Hr, Hc. split_and!; try done.
    unfold remaining_mines. lia.
Qed.

Lemma double_click_spec pos self w :
  gui_inv self →
  ∃ self' w',
    _on_double_click pos self w = Handled (self', w') ∧ gui_inv self'.
Proof.
  intros Hinv. unfold _on_double_click.
  destruct (auto_reveal_neighbors_Done pos (game self) w)
    as (b & g1 & w1 & Hrun).
  erewrite gbind_step by (apply engine_Handled; exact Hrun).
  cbv zeta. cbn [fst snd].
  destruct (app_inv_chord pos _ w b g1 w1 (proj1 Hinv) Hrun)
    as (Hg1 & Hcfg & Hfl).
  assert (gui_inv (set_game g1 self)) as Hinv1.
  { apply gui_inv_set_game; try done.
    destruct (decide (state (game self) = WON)) as [Hw|Hw]; [right|by left].
    rewrite auto_reveal_not_playing in Hrun by (by rewrite Hw).
    by injection Hrun as _ <- _. }
  destruct b.
  - destruct (update_board_spec _ w1 Hinv1) as (self2 & Hb & Hrd & _).
    exists self2, w1. split; [done|]. by apply (gui_inv_redraw _ _ Hinv1).
  - gui_fields. destruct (decide (state g1 = LOST)) as [Hl|Hl].
    + destruct (game_over_spec (set_game g1 self) w1 Hinv1)
        as (self2 & Hrun2 & Hinv2 & _);
        [gui_fields; by rewrite Hl..|by exists self2, w1].
    + by exists (set_game g1 self), w1.
Qed.

Lemma gui_step_spec e self w :
  gui_inv self → offered self e →
  ∃ self' w', gui_step e self w = Handled (self', w') ∧ gui_inv self'.
Proof.
  intros Hinv Hoff.
  destruct e as [pos|pos|pos|pos|pos|difficulty| |index];
    cbn [gui_step offered] in *.
  - by apply left_click_spec.
  - destruct (right_click_Handled pos self w Hinv Hoff) as [Hrun Hinv'].
    by eexists _, _.
  - by apply double_click_spec.
  - destruct (hover_spec COLORS_cell_hover pos self w Hoff)
      as (self' & Hrun & Hrd).
    exists self', w. split; [done|]. by apply (gui_inv_redraw self).
  - destruct (hover_spec COLORS_cell_hidden pos self w Hoff)
      as (self' & Hrun & Hrd).
    exists self', w. split; [done|]. by apply (gui_inv_redraw self).
  - destruct (gui_new_game_spec difficulty self w) as (self' & Hrun & Hinv');
      [by destruct Hinv as ((? & _) & _)|done|].
    by exists self', w.
  - destruct (tick_spec self w) as (self' & w' & Hrun & Hrd).
    exists self', w'. split; [done|]. by apply (gui_inv_redraw self).
  - destruct (flash_spec index self w Hinv) as (self' & Hrun & Hrd).
    exists self', w. split; [done|]. by apply (gui_inv_redraw self).
Qed.

Lemma gui_reachable_inv self : gui_reachable self → gui_inv self.
Proof.
  induction 1 as [w self w' Hinit|self e w self' w' _ IH He Hrun].
  - destruct (gui_init_spec w) as (self0 & Hrun & Hinv).
    rewrite Hrun in Hinit. by injection Hinit as <- _.
  - destruct (gui_step_spec e self w IH He) as (s & ws & Hs & Hinv).
    rewrite Hs in Hrun. by injection Hrun as <- _.
Qed.

Lemma gui_run_reachable es self w :
  gui_reachable self → gui_run_offered es self w = true →
  ∃ self' w', gui_run es self w = Handled (self', w')
              ∧ gui_reachable self'.
Proof.
  revert self w. induction es as [|e es IH]; intros self w Hreach Hrun.
  - by exists self, w.
  - cbn [gui_run_offered] in Hrun. apply andb_true_iff in Hrun as [He Hrun].
    apply bool_decide_eq_true in He.
    destruct (gui_step e self w) as [[s1 w1]| |] eqn:Hstep; try discriminate.
    destruct (IH s1 w1) as (self' & w' & Hrest & Hreach'); [|done|].
    { by apply (gui_event_handled self e w s1 w1). }
    exists self', w'. split; [|done]. cbn [gui_run].
    by erewrite gbind_step by exact Hstep.
Qed.

Lemma gui_after_reachable es w :
  gui_after_offered es w = true → gui_reachable (gui_after es w).
Proof.
  unfold gui_after_offered, gui_after. intros Hrun.
  destruct (gui_init w) as [[s0 w0]| |] eqn:Hinit; try discriminate.
  destruct (gui_run_reachable es s0 w0) as (self' & w' & Hrest & Hreach);
    [by apply (gui_start w s0 w0)|done|].
  erewrite gbind_step by exact Hinit. by rewrite Hrest.
Qed.

Lemma start_demo_reachable : gui_reachable start_demo.
Proof. apply gui_after_reachable. vm_compute. reflexivity. Qed.

Lemma click_demo_reachable : gui_reachable click_demo.
Proof. apply gui_after_reachable. vm_compute. reflexivity. Qed.

Lemma gui_demo_reachable : gui_reachable gui_demo.
Proof. apply gui_after_reachable. vm_compute. reflexivity. Qed.

(** The cells once [_game_over] has run. *)
Lemma game_over_cells (M F : gset Position) (cs : gmap Position CellConfig) p :
  alter_all (λ _, show_wrong_flag) (elements (F ∖ M))
    (alter_all (λ _, show_mine) (elements M) cs) !! p
  = (if decide (p ∈ M) then show_mine
     else if decide (p ∈ F) then show_wrong_flag else id) <$> cs !! p.
Proof.
  rewrite !lookup_alter_all by apply NoDup_elements.
  destruct (decide (p ∈ M)) as [Hm|Hm].
  - rewrite (decide_True (P:=p ∈ elements M)) by (by apply elem_of_elements).
    rewrite decide_False; [done|].
    intros [_ ?]%elem_of_elements%elem_of_difference. done.
  - rewrite (decide_False (P:=p ∈ elements M))
      by (by intros ?%elem_of_elements).
    destruct (decide (p ∈ F)) as [Hf|Hf].
    + rewrite decide_True; [done|].
      by apply elem_of_elements, elem_of_difference.
    + rewrite decide_False; [by rewrite option_fmap_id|].
      intros [? _]%elem_of_elements%elem_of_difference. done.
Qed.

(** X13. A left click on a cell that is already revealed, or flagged,
    while the game is on ends the game: [reveal_cell] returns [False] for
    the no-op, and [_on_left_click] answers every [False] with
    [_game_over].  No mine was hit and no clock is read; the state of the
    engine becomes [LOST], nothing else in it changes, the button shows
    the lost face, every mine is shown and every flag that is on no mine
    is crossed. *)
Theorem left_click_on_opened_cell_ends_game pos self w :
  gui_reachable self → state (game self) = PLAYING →
  pos ∈ revealed (game self) ∨ pos ∈ flags (game self) →
  ∃ self',
    _on_left_click pos self w = Handled (self', w)
    ∧ game self' = set_state LOST (game self)
    ∧ new_game_btn self' = "😵"%string
    ∧ ∀ p, cells self' !! p
           = (if decide (p ∈ mines (game self)) then show_mine
              else if decide (p ∈ flags (game self)) then show_wrong_flag
              else id) <$> cells self !! p.
Proof.
  intros Hreach Hs Hopen. pose proof (gui_reachable_inv _ Hreach) as Hinv.
  unfold _on_left_click. rewrite decide_True by (by left).
  erewrite gbind_step.
  2:{ apply engine_Handled, reveal_cell_blocked; [by rewrite Hs|]. by right. }
  cbv zeta. cbn [fst snd].
  assert (set_game (game self) self = self) as -> by (by destruct self).
  rewrite game_over_Handled
    by (by apply gui_inv_mines || by apply gui_inv_flags).
  eexists. split; [done|]. gui_fields. split_and!; try done.
  intros p. apply game_over_cells.
Qed.

Lemma left_click_on_opened_cell_ends_game_witness :
  gui_reachable click_demo
  ∧ state (game click_demo) = PLAYING
  ∧ (mkPosition 0 0 ∈ revealed (game click_demo)
     ∨ mkPosition 0 0 ∈ flags (game click_demo))
  ∧ (mkPosition 0 0 ∉ mines (game click_demo))
  ∧ ∃ self',
      _on_left_click (mkPosition 0 0) click_demo (mkWorld [] [200])
      = Handled (self', mkWorld [] [200])
      ∧ game self' = set_state LOST (game click_demo)
      ∧ new_game_btn self' = "😵"%string
      ∧ ∀ p, cells self' !! p
             = (if decide (p ∈ mines (game click_demo)) then show_mine
                else if decide (p ∈ flags (game click_demo))
                then show_wrong_flag
                else id) <$> cells click_demo !! p.
Proof.
  assert (state (game click_demo) = PLAYING) as Hs by decide_by_vm.
  assert (mkPosition 0 0 ∈ revealed (game click_demo)) as Hr
    by decide_by_vm.
  assert (mkPosition 0 0 ∉ mines (game click_demo)) as Hm by decide_by_vm.
  split_and!; [apply click_demo_reachable|exact Hs|by left|exact Hm|].
  apply left_click_on_opened_cell_ends_game;
    [apply click_demo_reachable|exact Hs|by left].
Defined.

(** X14. In every run of the application the board and the mine count are
    those of one of the three presets; [self.cells] has exactly one label
    for each cell of the board; no cell is both flagged and revealed; no
    revealed cell is a mine; the revealed, flagged and mined cells are all
    cells of the board; and once the first click has been made exactly the
    preset's number of mines is on the board. *)
Theorem gui_session_invariants self :
  gui_reachable self →
  (∃ name,
     DIFFICULTY_PRESETS !! name
     = Some (rows (game self), cols (game self), total_mines (game self)))
  ∧ dom (cells self) = all_positions (rows (game self)) (cols (game self))
  ∧ flags (game self) ## revealed (game self)
  ∧ revealed (game self) ## mines (game self)
  ∧ (∀ p, p ∈ revealed (game self) ∨ p ∈ flags (game self)
          ∨ p ∈ mines (game self) →
          in_bounds (rows (game self)) (cols (game self)) p)
  ∧ (state (game self) ≠ READY →
       Z.of_nat (size (mines (game self))) = total_mines (game self)).
Proof.
  intros Hreach.
  destruct (gui_reachable_inv self Hreach)
    as (([name Hname] & Hinv & (Hrin & Hfin & Hrm & Hfr) & _) & Hd & _).
  destruct Hinv as (Hmin & _ & Hplaced & _).
  split_and!; try done.
  - by exists name.
  - intros p [Hp|[Hp|Hp]]; apply elem_of_all_positions; auto.
  - intros Hs. destruct (Hplaced Hs) as (_ & _ & fc & _ & Hsize).
    pose proof (size_available_ge (game self) fc) as Hge.
    rewrite size_all_positions in Hge.
    apply DIFFICULTY_PRESETS_inv in Hname
      as [[= Hr Hc Ht]|[[= Hr Hc Ht]|[= Hr Hc Ht]]];
      rewrite Hr, Hc in Hge; lia.
Qed.

Lemma gui_session_invariants_witness :
  gui_reachable gui_demo
  ∧ (∃ name,
       DIFFICULTY_PRESETS !! name
       = Some (rows (game gui_demo), cols (game gui_demo),
               total_mines (game gui_demo)))
  ∧ dom (cells gui_demo)
    = all_positions (rows (game gui_demo)) (cols (game gui_demo))
  ∧ flags (game gui_demo) ## revealed (game gui_demo)
  ∧ revealed (game gui_demo) ## mines (game gui_demo)
  ∧ (∀ p, p ∈ revealed (game gui_demo) ∨ p ∈ flags (game gui_demo)
          ∨ p ∈ mines (game gui_demo) →
          in_bounds (rows (game gui_demo)) (cols (game gui_demo)) p)
  ∧ (state (game gui_demo) ≠ READY →
     Z.of_nat (size (mines (game gui_demo))) = total_mines (game gui_demo)).
Proof.
  split; [apply gui_demo_reachable|].
  apply gui_session_invariants, gui_demo_reachable.
Defined.

(** X15. No event raises: in every run of the application, every event
    the widgets offer (a click, a double click or the pointer on a cell of
    [self.cells], a new game from the button or the menu, a scheduled
    [tick] or [flash]) is handled in every world.  No [ValueError] comes
    out of the sampling, no [KeyError] out of [self.cells] or the presets,
    no [IndexError] out of [COLORS['numbers']], and the flood fill
    ends. *)
Theorem gui_events_never_raise self e w :
  gui_reachable self → offered self e →
  ∃ self' w', gui_step e self w = Handled (self', w').
Proof.
  intros Hreach Hoff.
  destruct (gui_step_spec e self w (gui_reachable_inv _ Hreach) Hoff)
    as (self' & w' & Hrun & _).
  by exists self', w'.
Qed.

Lemma gui_events_never_raise_witness :
  gui_reachable gui_demo
  ∧ offered gui_demo (DoubleClick (mkPosition 0 0))
  ∧ ∃ self' w',
      gui_step (DoubleClick (mkPosition 0 0)) gui_demo (mkWorld [] [])
      = Handled (self', w').
Proof.
  assert (offered gui_demo (DoubleClick (mkPosition 0 0))) as Hoff
    by decide_by_vm.
  split_and!; [apply gui_demo_reachable|exact Hoff|].
  apply gui_events_never_raise; [apply gui_demo_reachable|exact Hoff].
Defined.

(** X16. In every run of the application [_update_cell] redraws any cell
    of [self.cells] without raising ([COLORS['numbers'][count]] is in
    range, the count being at most 8) and touches nothing else.  A flagged
    cell shows the flag, except a flagged mine once the game is lost,
    which falls to the default and shows nothing; a revealed cell shows its
    count, or nothing when the count is 0, and is sunken; every other cell
    shows nothing, a mine of a lost game included.  The entry of the mine
    glyph is never selected. *)
Theorem update_cell_renders self pos w :
  gui_reachable self → is_Some (cells self !! pos) →
  ∃ cfg,
    _update_cell pos self w
    = Handled (set_cells (<[pos := cfg]> (cells self)) self, w)
    ∧ cfg_text cfg
      = (if decide (pos ∈ flags (game self)) then
           if decide (pos ∈ mines (game self) ∧ state (game self) = LOST)
           then ""%string
           else "🚩"%string
         else if decide (pos ∈ revealed (game self)) then
           if decide (cached_count (game self) pos = 0%nat) then ""%string
           else pretty (cached_count (game self) pos)
         else ""%string)
    ∧ cfg_relief cfg
      = (if decide (pos ∈ revealed (game self)) then "sunken"%string
         else "raised"%string)
    ∧ cfg_text cfg ≠ "💣"%string.
Proof.
  intros Hreach Hpos. pose proof (gui_reachable_inv _ Hreach) as Hinv.
  pose proof (gui_inv_count self pos Hinv) as Hle.
  destruct Hinv as ((_ & _ & (_ & _ & Hrm & Hfr) & _) & _).
  destruct (shown_cases (game self) pos Hle Hfr Hrm)
    as (Htext & _ & Hrelief & Hglyph).
  exists (shown (game self) pos). split_and!; try done.
  rewrite update_cell_Handled by done. by rewrite alter_const_insert.
Qed.

Lemma update_cell_renders_witness :
  gui_reachable gui_demo
  ∧ is_Some (cells gui_demo !! mkPosition 15 15)
  ∧ ∃ cfg,
      _update_cell (mkPosition 15 15) gui_demo (mkWorld [] [])
      = Handled (set_cells (<[mkPosition 15 15 := cfg]> (cells gui_demo))
                   gui_demo, mkWorld [] [])
      ∧ cfg_text cfg
        = (if decide (mkPosition 15 15 ∈ flags (game gui_demo)) then
             if decide (mkPosition 15 15 ∈ mines (game gui_demo)
                        ∧ state (game gui_demo) = LOST)
             then ""%string
             else "🚩"%string
           else if decide (mkPosition 15 15 ∈ revealed (game gui_demo)) then
             if decide (cached_count (game gui_demo) (mkPosition 15 15)
                        = 0%nat)
             then ""%string
             else pretty (cached_count (game gui_demo) (mkPosition 15 15))
           else ""%string)
      ∧ cfg_relief cfg
        = (if decide (mkPosition 15 15 ∈ revealed (game gui_demo))
           then "sunken"%string else "raised"%string)
      ∧ cfg_text cfg ≠ "💣"%string.
Proof.
  assert (is_Some (cells gui_demo !! mkPosition 15 15)) as Hpos
    by decide_by_vm.
  split_and!; [apply gui_demo_reachable|exact Hpos|].
  apply update_cell_renders; [apply gui_demo_reachable|exact Hpos].
Defined.

Lemma size_sym_diff_singleton (F : gset Position) p :
  size (sym_diff F {[p]})
  = if decide (p ∈ F) then (size F - 1)%nat else (size F + 1)%nat.
Proof.
  unfold sym_diff. destruct (decide (p ∈ F)) as [Hp|Hp].
  - assert (F ∖ {[p]} ∪ {[p]} ∖ F = F ∖ {[p]}) as ->.
    { apply set_eq. intros x.
      rewrite elem_of_union, !elem_of_difference, elem_of_singleton.
      split; [|tauto]. intros [?|[-> ?]]; done. }
    pose proof (size_remove F p Hp). lia.
  - assert (F ∖ {[p]} ∪ {[p]} ∖ F = F ∪ {[p]}) as ->.
    { apply set_eq. intros x.
      rewrite !elem_of_union, !elem_of_difference, elem_of_singleton.
      split; [tauto|]. intros [?| ->]; [left|right]; split; try done.
      by intros ->. }
    rewrite size_union, size_singleton; [done|].
    intros x ? ->%elem_of_singleton. done.
Qed.

(** X17. The mine counter follows the flags: while the game is on, a right
    click on a hidden cell is handled without a reading of the clock, and
    the number in the mine counter goes down by one when the cell had no
    flag and up by one when it had, as long as there are no more flags
    than mines; with as many flags as mines or more, one more flag leaves
    it at 0. *)
Theorem right_click_moves_counter pos self w :
  gui_reachable self → is_Some (cells self !! pos) →
  state (game self) = PLAYING → pos ∉ revealed (game self) →
  ∃ self',
    _on_right_click pos self w = Handled (self', w)
    ∧ (pos ∈ flags (game self') ↔ pos ∉ flags (game self))
    ∧ (pos ∉ flags (game self) →
       Z.of_nat (size (flags (game self))) < total_mines (game self) →
       mine_label self' = mine_label self - 1)
    ∧ (pos ∉ flags (game self) →
       total_mines (game self) ≤ Z.of_nat (size (flags (game self))) →
       mine_label self' = 0)
    ∧ (pos ∈ flags (game self) →
       Z.of_nat (size (flags (game self))) ≤ total_mines (game self) →
       mine_label self' = mine_label self + 1).
Proof.
  intros Hreach Hpos Hs Hpr. pose proof (gui_reachable_inv _ Hreach) as Hinv.
  destruct (right_click_Handled pos self w Hinv Hpos) as [Hrun _].
  eexists. split; [exact Hrun|].
  destruct Hinv as (_ & _ & _ & _ & Hlabel).
  rewrite Hlabel by (by rewrite Hs). gui_fields.
  assert (flags (toggle_flag pos (game self))
          = sym_diff (flags (game self)) {[pos]}
          ∧ total_mines (toggle_flag pos (game self))
            = total_mines (game self)) as [Hf Ht].
  { unfold toggle_flag.
    rewrite decide_False by (intros [?|?]; done). by fields. }
  unfold remaining_mines. rewrite Hf, Ht, size_sym_diff_singleton.
  split_and!.
  - unfold sym_diff.
    rewrite elem_of_union, !elem_of_difference, !elem_of_singleton.
    destruct (decide (pos ∈ flags (game self))); tauto.
  - intros Hnf Hlt. rewrite decide_False by done. lia.
  - intros Hnf Hge. rewrite decide_False by done. lia.
  - intros Hin Hle. rewrite decide_True by done.
    assert (size (flags (game self)) ≠ 0%nat); [|lia].
    apply size_non_empty_iff. intros Hempty.
    apply (not_elem_of_empty (C:=gset Position) pos). by apply Hempty.
Qed.

Lemma right_click_moves_counter_witness :
  gui_reachable click_demo
  ∧ is_Some (cells click_demo !! mkPosition 8 8)
  ∧ state (game click_demo) = PLAYING
  ∧ (mkPosition 8 8 ∉ revealed (game click_demo))
  ∧ (mkPosition 8 8 ∉ flags (game click_demo))
  ∧ Z.of_nat (size (flags (game click_demo)))
    < total_mines (game click_demo)
  ∧ ∃ self',
      _on_right_click (mkPosition 8 8) click_demo (mkWorld [] [])
      = Handled (self', mkWorld [] [])
      ∧ mine_label self' = mine_label click_demo - 1.
Proof.
  assert (is_Some (cells click_demo !! mkPosition 8 8)) as Hpos
    by decide_by_vm.
  assert (state (game click_demo) = PLAYING) as Hs by decide_by_vm.
  assert (mkPosition 8 8 ∉ revealed (game click_demo)) as Hr
    by decide_by_vm.
  assert (mkPosition 8 8 ∉ flags (game click_demo)) as Hf by decide_by_vm.
  assert (Z.of_nat (size (flags (game click_demo)))
          < total_mines (game click_demo)) as Hlt by decide_by_vm.
  split_and!; [apply click_demo_reachable|exact Hpos|exact Hs|exact Hr
              |exact Hf|exact Hlt|].
  destruct (right_click_moves_counter (mkPosition 8 8) click_demo
              (mkWorld [] []) click_demo_reachable Hpos Hs Hr)
    as (self' & Hrun & _ & Hdown & _).
  exists self'. split; [exact Hrun|]. by apply Hdown.
Defined.

Lemma tick_cells self w self' w' :
  tick self w = Handled (self', w') →
  game self' = game self ∧ cells self' = cells self.
Proof.
  unfold tick. destruct (decide (state (game self) = PLAYING)).
  - destruct (update_timer_Handled self w) as (t & w1 & Hrun & _).
    erewrite gbind_step by exact Hrun. by intros [= <- _].
  - by intros [= <- _].
Qed.

(** X18. A left click that leaves the game on redraws the whole board:
    afterwards the label of every cell of the board shows the flag if the
    cell is flagged, its count of adjacent mines (nothing for 0) on the
    revealed colour and sunken if it is revealed, and nothing, on the
    hidden colour and raised, otherwise. *)
Theorem left_click_redraws_board pos self w self' w' p :
  gui_reachable self → is_Some (cells self !! pos) →
  _on_left_click pos self w = Handled (self', w') →
  state (game self') = PLAYING →
  in_bounds (rows (game self')) (cols (game self')) p →
  ∃ cfg,
    cells self' !! p = Some cfg
    ∧ cfg_text cfg
      = (if decide (p ∈ flags (game self')) then "🚩"%string
         else if decide (p ∈ revealed (game self')) then
           if decide (cached_count (game self') p = 0%nat) then ""%string
           else pretty (cached_count (game self') p)
         else ""%string)
    ∧ cfg_bg cfg
      = (if decide (p ∈ revealed (game self')) then COLORS_cell_revealed
         else COLORS_cell_hidden)
    ∧ cfg_relief cfg
      = (if decide (p ∈ revealed (game self')) then "sunken"%string
         else "raised"%string).
Proof.
  intros Hreach Hpos Hrun Hs' Hp.
  pose proof (gui_reachable_inv _ Hreach) as Hinv.
  pose proof (offered_in_bounds _ _ Hinv Hpos) as Hin.
  unfold _on_left_click in Hrun.
  destruct (decide (state (game self) = PLAYING ∨ state (game self) = READY))
    as [Hs|Hs].
  2:{ apply gret_Handled in Hrun as [= <- _]. exfalso. apply Hs. by left. }
  apply gbind_Handled in Hrun as ([b g1] & w1 & Heng & Hrun).
  apply engine_Handled in Heng. cbv zeta in Hrun. cbn [fst snd] in Hrun.
  destruct (app_inv_reveal pos _ w b g1 w1 (proj1 Hinv) Hin Heng)
    as (Hg1 & Hcfg & Hr1).
  destruct (reveal_cell_flags pos _ w b g1 w1 Heng) as [Hfl Hnw].
  assert (gui_inv (set_game g1 self)) as Hinv1.
  { apply gui_inv_set_game; try done. left. by destruct Hs as [-> | ->]. }
  destruct b.
  2:{ destruct (game_over_spec (set_game g1 self) w1 Hinv1)
        as (self2 & Hrun2 & _ & Hg2); [done| |].
      { gui_fields. apply Hnw; [done|]. by destruct Hs as [-> | ->]. }
      rewrite Hrun2 in Hrun. injection Hrun as <- _.
      by rewrite Hg2 in Hs'. }
  destruct (update_board_spec _ w1 Hinv1) as (self2 & Hb & Hrd & _ & Hclosed).
  erewrite gbind_step in Hrun by exact Hb.
  assert (game self' = game self2 ∧ cells self' = cells self2) as [Hg' Hc'].
  { destruct (decide _); [by apply tick_cells in Hrun|].
    by apply gret_Handled in Hrun as [= <- _]. }
  destruct Hrd as (Hg2 & _). gui_fields.
  assert (state g1 ≠ WON) as Hnot_won.
  { rewrite <- Hg2, <- Hg', Hs'. done. }
  rewrite (Hclosed Hnot_won) in Hc'. gui_fields.
  rewrite Hg', Hg2 in *. clear Hg' Hg2 Hclosed Hb Hrun.
  pose proof (app_inv_count_le_8 g1 p Hg1) as Hle.
  destruct Hinv1 as ((_ & _ & (_ & _ & Hrm & Hfr) & _) & Hd & _).
  gui_fields.
  destruct (shown_cases g1 p Hle Hfr Hrm) as (Htext & Hbg & Hrelief & _).
  exists (shown g1 p). split_and!; try done.
  - rewrite Hc', lookup_alter_all by apply NoDup_elements.
    assert (p ∈ dom (cells self)) as Hdom.
    { rewrite Hd. by apply elem_of_all_positions. }
    rewrite decide_True by (by apply elem_of_elements).
    apply elem_of_dom in Hdom as [c ->]. done.
  - rewrite Htext. destruct (decide (p ∈ flags g1)); [|done].
    rewrite decide_False; [done|]. intros [_ Hl]. by rewrite Hl in Hs'.
Qed.

Lemma left_click_redraws_board_witness :
  gui_reachable start_demo
  ∧ is_Some (cells start_demo !! mkPosition 0 0)
  ∧ _on_left_click (mkPosition 0 0) start_demo click_demo_world
    = Handled (click_demo, mkWorld [] [])
  ∧ state (game click_demo) = PLAYING
  ∧ in_bounds (rows (game click_demo)) (cols (game click_demo))
      (mkPosition 0 1)
  ∧ ∃ cfg,
      cells click_demo !! mkPosition 0 1 = Some cfg
      ∧ cfg_text cfg
        = (if decide (mkPosition 0 1 ∈ flags (game click_demo))
           then "🚩"%string
           else if decide (mkPosition 0 1 ∈ revealed (game click_demo)) then
             if decide (cached_count (game click_demo) (mkPosition 0 1)
                        = 0%nat)
             then ""%string
             else pretty (cached_count (game click_demo) (mkPosition 0 1))
           else ""%string)
      ∧ cfg_bg cfg
        = (if decide (mkPosition 0 1 ∈ revealed (game click_demo))
           then COLORS_cell_revealed else COLORS_cell_hidden)
      ∧ cfg_relief cfg
        = (if decide (mkPosition 0 1 ∈ revealed (game click_demo))
           then "sunken"%string else "raised"%string).
Proof.
  assert (is_Some (cells start_demo !! mkPosition 0 0)) as Hpos
    by decide_by_vm.
  assert (_on_left_click (mkPosition 0 0) start_demo click_demo_world
          = Handled (click_demo, mkWorld [] [])) as Hrun
    by (vm_compute; reflexivity).
  assert (state (game click_demo) = PLAYING) as Hs by decide_by_vm.
  assert (in_bounds (rows (game click_demo)) (cols (game click_demo))
            (mkPosition 0 1)) as Hp by decide_by_vm.
  split_and!; [apply start_demo_reachable|exact Hpos|exact Hrun|exact Hs
              |exact Hp|].
  exact (left_click_redraws_board (mkPosition 0 0) start_demo
           click_demo_world click_demo (mkWorld [] []) (mkPosition 0 1)
           start_demo_reachable Hpos Hrun Hs Hp).
Defined.

(** X19. A left click on a mine that carries no flag, while the game is
    on, loses the game and shows the board: the state is [LOST], the
    button shows the lost face, the label of every mine shows the mine on
    the mine colour, sunken, the label of every flag that is on no mine
    shows the cross, and every other label is left as it was. *)
Theorem left_click_on_mine_shows_mines pos self w :
  gui_reachable self → state (game self) = PLAYING →
  pos ∈ mines (game self) → pos ∉ flags (game self) →
  ∃ self' w',
    _on_left_click pos self w = Handled (self', w')
    ∧ state (game self') = LOST
    ∧ mines (game self') = mines (game self)
    ∧ flags (game self') = flags (game self)
    ∧ revealed (game self') = revealed (game self)
    ∧ new_game_btn self' = "😵"%string
    ∧ ∀ p, cells self' !! p
           = (if decide (p ∈ mines (game self)) then show_mine
              else if decide (p ∈ flags (game self)) then show_wrong_flag
              else id) <$> cells self !! p.
Proof.
  intros Hreach Hs Hmine Hnf.
  pose proof (gui_reachable_inv _ Hreach) as Hinv.
  assert (pos ∉ revealed (game self)) as Hnr.
  { destruct Hinv as ((_ & _ & (_ & _ & Hrm & _) & _) & _).
    intros Hr. by apply (Hrm pos). }
  unfold _on_left_click. rewrite decide_True by (by left).
  destruct (reveal_cell_Done pos (game self) w) as (b & g1 & w1 & Hrun).
  { by rewrite Hs. }
  erewrite gbind_step by (apply engine_Handled; exact Hrun).
  cbv zeta. cbn [fst snd].
  apply reveal_cell_inv in Hrun as (g0 & w0 & Hstage1 & Hstage2).
  destruct Hstage1 as [[Hready _]|(_ & -> & ->)];
    [by rewrite Hs in Hready|].
  destruct Hstage2 as [(Hb & _)|[(_ & _ & -> & -> & _)|(_ & ? & _)]];
    [| |done].
  { exfalso. destruct Hb as [[Hb _]|[Hb|Hb]]; done. }
  rewrite game_over_Handled.
  2,3: unfold lose; gui_fields; fields;
    by apply gui_inv_mines || by apply gui_inv_flags.
  eexists _, _. split; [done|]. unfold lose. gui_fields. fields.
  split_and!; try done. intros p. apply game_over_cells.
Qed.

Lemma left_click_on_mine_shows_mines_witness :
  gui_reachable click_demo
  ∧ state (game click_demo) = PLAYING
  ∧ mkPosition 0 2 ∈ mines (game click_demo)
  ∧ (mkPosition 0 2 ∉ flags (game click_demo))
  ∧ ∃ self' w',
      _on_left_click (mkPosition 0 2) click_demo (mkWorld [] [150])
      = Handled (self', w')
      ∧ state (game self') = LOST
      ∧ cells self' !! mkPosition 0 2
        = show_mine <$> cells click_demo !! mkPosition 0 2.
Proof.
  assert (state (game click_demo) = PLAYING) as Hs by decide_by_vm.
  assert (mkPosition 0 2 ∈ mines (game click_demo)) as Hm by decide_by_vm.
  assert (mkPosition 0 2 ∉ flags (game click_demo)) as Hf by decide_by_vm.
  split_and!; [apply click_demo_reachable|exact Hs|exact Hm|exact Hf|].
  destruct (left_click_on_mine_shows_mines (mkPosition 0 2) click_demo
              (mkWorld [] [150]) click_demo_reachable Hs Hm Hf)
    as (self' & w' & Hrun & Hlost & _ & _ & _ & _ & Hcells).
  exists self', w'. split_and!; [exact Hrun|exact Hlost|].
  rewrite Hcells. by rewrite decide_True by exact Hm.
Defined.

(** X20. In every run of the application the number in the mine counter
    is never negative and the number in the timer never exceeds 999; and
    for as long as the game is not won the mine counter is up to date: it
    shows the mine count less the number of flags, or 0 when there are
    more flags than mines. *)
Theorem gui_labels self :
  gui_reachable self →
  0 ≤ mine_label self
  ∧ timer_label self ≤ 999
  ∧ (state (game self) ≠ WON →
       mine_label self
       = Z.max 0 (total_mines (game self)
                  - Z.of_nat (size (flags (game self))))).
Proof.
  intros Hreach.
  by destruct (gui_reachable_inv _ Hreach) as (_ & _ & ? & ? & ?).
Qed.

Lemma gui_labels_witness :
  gui_reachable gui_demo
  ∧ 0 ≤ mine_label gui_demo
  ∧ timer_label gui_demo ≤ 999
  ∧ (state (game gui_demo) ≠ WON →
       mine_label gui_demo
       = Z.max 0 (total_mines (game gui_demo)
                  - Z.of_nat (size (flags (game gui_demo))))).
Proof.
  split; [apply gui_demo_reachable|].
  apply gui_labels, gui_demo_reachable.
Defined.
